(** * Telingo: temporal rewriting and the incremental solving loop

  A shallow embedding of [telingo/transformers.py] (the rewriting of
  temporal operators into an explicit time parameter) and of
  [telingo/__init__.py] (the incremental loop [imain] and
  [Application.main]), together with the properties of both that the
  specification states.

  Conventions of the embedding:
  - Python integers are [Z]; lengths and arities are [nat].
  - An exception is a value of [Py.exn]; code that may raise returns a
    [Py.result].
  - The syntax tree of clingo is an inductive type per node family; the
    source location every node carries is only ever copied or printed into
    an error message and is left out.
  - Objects mutated in place by the visitors ([term.name], [atom.term],
    [rule.body], ...) are rebuilt; the two places where the source shares a
    mutable object between owners (the registry of future predicates and
    the one-element list [max_shift]) are fields of the transformer state
    that is threaded through every visit. *)

From Stdlib Require Import String Ascii List ZArith Lia Bool DecimalString.
Import ListNotations.
Open Scope string_scope.
Open Scope Z_scope.
Open Scope list_scope.
Set Warnings "-register-all".

(** ** Exceptions and results *)

Module Py.

Inductive exn : Type :=
| RuntimeError (msg : string)
| TypeError (msg : string)
| ValueError (msg : string)
| AttributeError (msg : string)
| IndexError (msg : string)
| IOError (msg : string)
| AssertionError.

Inductive result (A : Type) : Type :=
| Ok (a : A)
| Raise (e : exn).

Arguments Ok {A} a.
Arguments Raise {A} e.

Definition is_ok {A} (r : result A) : bool :=
  match r with Ok _ => true | Raise _ => false end.

Definition rbind {A B} (r : result A) (k : A -> result B) : result B :=
  match r with
  | Ok a => k a
  | Raise e => Raise e
  end.

(** [[f(y) for y in xs]] where [f] may raise. *)
Fixpoint rmap {A B} (f : A -> result B) (xs : list A) : result (list B) :=
  match xs with
  | [] => Ok []
  | x :: xs' =>
      rbind (f x) (fun y => rbind (rmap f xs') (fun ys => Ok (y :: ys)))
  end.

(** [str.strip("'")], [len] and the prime test on characters. *)
Definition is_prime (c : ascii) : bool := Ascii.eqb c "'"%char.

Fixpoint lstrip (s : string) : string :=
  match s with
  | EmptyString => EmptyString
  | String c r => if is_prime c then lstrip r else s
  end.

Fixpoint rstrip (s : string) : string :=
  match s with
  | EmptyString => EmptyString
  | String c r =>
      match rstrip r with
      | EmptyString => if is_prime c then EmptyString else String c EmptyString
      | r' => String c r'
      end
  end.

Definition strip (s : string) : string := lstrip (rstrip s).

Definition len (s : string) : Z := Z.of_nat (String.length s).

(** ["{}{}".format(prefix, i)] for a non-negative [i]. *)
Definition format2 (prefix : string) (i : nat) : string :=
  prefix ++ NilEmpty.string_of_uint (Nat.to_uint i).

End Py.

Import Py.

Notation "x <- c1 ;; c2" := (rbind c1 (fun x => c2))
(at level 61, c1 at next level, right associativity).

(** ** The syntax tree (the part of [clingo.ast] the rewriting touches) *)

Module Ast.

(** [clingo.Symbol]: numbers and (possibly nullary) function symbols.
    The clingo binding this code was written for converts a host integer
    given where a symbol is expected into [Number]. *)
Inductive symbol : Type :=
| Number (n : Z)
| Fun (name : string) (arguments : list symbol).

Inductive Sign : Type := NoSign | Negation | DoubleNegation.
Inductive UnaryOperator : Type := UMinus | UNegation | UAbsolute.
Inductive BinaryOperator : Type :=
  XOr | Or | And | Plus | Minus | Multiplication | Division | Modulo.
Inductive ComparisonOperator : Type :=
  GreaterThan | LessThan | LessEqual | GreaterEqual | NotEqual | Equal.

(** Terms.  [Str] is a bare host string sitting in a term slot: [transform]
    builds the argument lists of its synthesized atoms from such strings,
    and the generic visitor rejects them as "unexpected type". *)
Inductive term : Type :=
| Symbol (sym : symbol)
| Variable_ (name : string)
| UnaryOperation (op : UnaryOperator) (argument : term)
| BinaryOperation (op : BinaryOperator) (left right : term)
| Interval (left right : term)
| Function (name : string) (arguments : list term) (external : bool)
| Pool (arguments : list term)
| Str (s : string).

Inductive atom : Type :=
| BooleanConstant (value : bool)
| SymbolicAtom (t : term)
| Comparison (cmp : ComparisonOperator) (left right : term).

Inductive literal : Type :=
| Literal (sign : Sign) (a : atom).

Inductive conditional_literal : Type :=
| ConditionalLiteral (l : literal) (condition : list literal).

Inductive head : Type :=
| HeadLiteral (l : literal)
| Disjunction (elements : list conditional_literal).

Inductive body_literal : Type :=
| BodyLiteral (l : literal)
| BodyConditional (c : conditional_literal).

Inductive statement : Type :=
| Rule (h : head) (body : list body_literal)
| Program (name : string) (parameters : list string)
| External (a : atom) (body : list body_literal)
| ShowSignature (name : string) (arity : nat) (positive : bool)
| ProjectSignature (name : string) (arity : nat) (positive : bool).

Definition sign_eqb (a b : Sign) : bool :=
  match a, b with
  | NoSign, NoSign | Negation, Negation | DoubleNegation, DoubleNegation => true
  | _, _ => false
  end.

(** [symbol.name]: only function symbols have one. *)
Definition symbol_name (s : symbol) : result string :=
  match s with
  | Fun n _ => Ok n
  | Number _ => Raise (RuntimeError "unexpected")
  end.

End Ast.

Import Ast.

(** ** [telingo/transformers.py] *)

Module Transformers.

Definition _future_prefix : string := "__future_".
Definition _variable_prefix : string := "X".
Definition _time_parameter_name : string := "__t".

(** *** Dictionaries

    A [dict] keeps its keys in insertion order; assigning to a key that is
    present keeps the key where it is. *)
Section Dict.
Context {K V : Type} (eqb : K -> K -> bool).

Fixpoint dict_get (d : list (K * V)) (k : K) : option V :=
  match d with
  | [] => None
  | (k', v) :: d' => if eqb k' k then Some v else dict_get d' k
  end.

(** [d[k] = v] *)
Fixpoint dict_set (d : list (K * V)) (k : K) (v : V) : list (K * V) :=
  match d with
  | [] => [(k, v)]
  | (k', v') :: d' =>
      if eqb k' k then (k', v) :: d' else (k', v') :: dict_set d' k v
  end.

(** [d.setdefault(k, v)], for its effect on [d] *)
Definition dict_setdefault (d : list (K * V)) (k : K) (v : V) : list (K * V) :=
  match dict_get d k with
  | Some _ => d
  | None => dict_set d k v
  end.
End Dict.

(** The key of a future predicate: (stripped name, arity, shift). *)
Definition key : Type := string * nat * Z.

Definition key_eqb (a b : key) : bool :=
  let '(n1, a1, s1) := a in
  let '(n2, a2, s2) := b in
  String.eqb n1 n2 && Nat.eqb a1 a2 && Z.eqb s1 s2.

Definition part_key : Type := string * string * Z.

Definition part_key_eqb (a b : part_key) : bool :=
  let '(p1, t1, s1) := a in
  let '(p2, t2, s2) := b in
  String.eqb p1 p2 && String.eqb t1 t2 && Z.eqb s1 s2.

(** *** The state of the two transformers

    [future_predicates] and [constraint_parts] are the dictionaries created
    by [transform] and shared by reference with the transformers;
    [st_max_shift] is the content of the one-element list [__max_shift],
    which [visit_SymbolicAtom] hands to the term transformer and which the
    latter updates in place.  [st_part] is the attribute [__part], which
    does not exist until the first program directive has been visited. *)
Record state : Type := mkState {
  st_final : bool;
  st_head : bool;
  st_constraint : bool;
  st_disjunction : bool;
  st_max_shift : Z;
  st_part : option string;
  future_predicates : list (key * bool);
  constraint_parts : list (part_key * list (statement * statement))
}.

Definition set_head (b : bool) (s : state) : state :=
  mkState (st_final s) b (st_constraint s) (st_disjunction s)
          (st_max_shift s) (st_part s) (future_predicates s) (constraint_parts s).

Definition set_max_shift (m : Z) (s : state) : state :=
  mkState (st_final s) (st_head s) (st_constraint s) (st_disjunction s)
          m (st_part s) (future_predicates s) (constraint_parts s).

Definition set_future_predicates (d : list (key * bool)) (s : state) : state :=
  mkState (st_final s) (st_head s) (st_constraint s) (st_disjunction s)
          (st_max_shift s) (st_part s) d (constraint_parts s).

Definition set_constraint_parts
    (d : list (part_key * list (statement * statement))) (s : state) : state :=
  mkState (st_final s) (st_head s) (st_constraint s) (st_disjunction s)
          (st_max_shift s) (st_part s) (future_predicates s) d.

(** Entering a rule: [__head = True], [__max_shift = [0]] and the two
    classification flags. *)
Definition enter_rule (c d : bool) (s : state) : state :=
  mkState (st_final s) true c d 0 (st_part s)
          (future_predicates s) (constraint_parts s).

(** The [finally] block of [visit_Rule]. *)
Definition leave_rule (s : state) : state :=
  mkState (st_final s) false false false 0 (st_part s)
          (future_predicates s) (constraint_parts s).

Definition enter_program (f : bool) (p : string) (s : state) : state :=
  mkState f (st_head s) (st_constraint s) (st_disjunction s)
          (st_max_shift s) (Some p) (future_predicates s) (constraint_parts s).

(** A computation that reads and writes the transformer state and may
    raise.  An exception abandons the whole transform, so no state is kept
    on that path (which is also why a [finally] that restores a flag is the
    same as restoring it after the protected block). *)
Definition M (A : Type) : Type := state -> result (A * state).

Definition ret {A} (a : A) : M A := fun s => Ok (a, s).
Definition raise {A} (e : exn) : M A := fun _ => Raise e.
Definition bind {A B} (m : M A) (k : A -> M B) : M B :=
  fun s => match m s with
           | Ok (a, s') => k a s'
           | Raise e => Raise e
           end.
Definition get : M state := fun s => Ok (s, s).
Definition modify (f : state -> state) : M unit := fun s => Ok (tt, f s).
Definition lift {A} (r : result A) : M A :=
  fun s => match r with Ok a => Ok (a, s) | Raise e => Raise e end.

Fixpoint mapM {A B} (f : A -> M B) (xs : list A) : M (list B) :=
  match xs with
  | [] => ret []
  | x :: xs' =>
      bind (f x) (fun y => bind (mapM f xs') (fun ys => ret (y :: ys)))
  end.

Notation "x <~ c1 ;; c2" := (bind c1 (fun x => c2))
  (at level 61, c1 at next level, right associativity).
Notation "c1 ;;; c2" := (bind c1 (fun _ => c2))
  (at level 61, right associativity).

(** *** [TermTransformer] *)

Section Transformer.

(** [self.__parameter]: the symbol of the time parameter. *)
Variable parameter : symbol.

(** The [for] loop of [__get_param]: one less for every leading prime, left
    at the first other character. *)
Fixpoint count_leading (name : string) (shift : Z) : Z :=
  match name with
  | EmptyString => shift
  | String c r => if is_prime c then count_leading r (shift - 1) else shift
  end.

(** The shift [__get_param] computes from a name. *)
Definition get_shift (name : string) : Z :=
  let n := strip name in
  let shift := count_leading name 0 in
  shift + (len name - len n + shift).

(** [params[-1] = f(params[-1])] on a list that is not empty. *)
Fixpoint update_last (f : term -> term) (params : list term) : list term :=
  match params with
  | [] => []
  | [p] => [f p]
  | p :: ps => p :: update_last f ps
  end.

Definition future_error : exn :=
  RuntimeError "future atoms not supported in this context".
Definition past_error : exn :=
  RuntimeError "past atoms not supported in this context".

(** [d[key] = True] for a disjunctive occurrence, [d.setdefault(key, False)]
    otherwise. *)
Definition register (k : key) (disjunctive : bool) (d : list (key * bool))
  : list (key * bool) :=
  if disjunctive then dict_set key_eqb d k true
  else dict_setdefault key_eqb d k false.

Definition __get_param (name : string) (arity : nat)
    (replace_future fail_future fail_past disjunctive : bool)
  : M (string * list term) :=
  let n := strip name in
  let shift := get_shift name in
  let params := [Symbol parameter] in
  if shift =? 0 then ret (n, params)
  else if fail_future && (0 <? shift) then raise future_error
  else if fail_past && (shift <? 0) then raise past_error
  else
    np <~ (if 0 <? shift then
             if replace_future then
               modify (fun s => set_future_predicates
                         (register (n, arity, shift) disjunctive
                                   (future_predicates s)) s) ;;;
               ret ((_future_prefix ++ n)%string, Symbol (Number shift) :: params)
             else
               modify (fun s => set_max_shift (Z.max (st_max_shift s) shift) s) ;;;
               ret (n, params)
           else ret (n, params)) ;;
    ret (fst np,
         update_last (fun p => BinaryOperation Plus p (Symbol (Number shift)))
                     (snd np)).

Definition visit_Function (name : string) (arguments : list term) (external : bool)
    (replace_future fail_future fail_past disjunctive : bool) : M term :=
  np <~ __get_param name (List.length arguments)
          replace_future fail_future fail_past disjunctive ;;
  ret (Function (fst np) (arguments ++ snd np) external).

(** [TermTransformer.visit]: a [Function] and a [Symbol] have a visitor of
    their own, every other node has its children visited. *)
Fixpoint term_visit (replace_future fail_future fail_past disjunctive : bool)
    (t : term) : M term :=
  let visit := term_visit replace_future fail_future fail_past disjunctive in
  match t with
  | Symbol _ => raise (RuntimeError "not implemented")
  | Variable_ _ => ret t
  | UnaryOperation op a => a' <~ visit a ;; ret (UnaryOperation op a')
  | BinaryOperation op l r =>
      l' <~ visit l ;; r' <~ visit r ;; ret (BinaryOperation op l' r')
  | Interval l r => l' <~ visit l ;; r' <~ visit r ;; ret (Interval l' r')
  | Function name arguments external =>
      visit_Function name arguments external
        replace_future fail_future fail_past disjunctive
  | Pool arguments =>
      arguments' <~ (fix go (ts : list term) : M (list term) :=
                       match ts with
                       | [] => ret []
                       | x :: xs =>
                           x' <~ visit x ;; xs' <~ go xs ;; ret (x' :: xs')
                       end) arguments ;;
      ret (Pool arguments')
  | Str _ => raise (TypeError "unexpected type")
  end.

(** [Transformer.visit] on a term when no visitor is specialised (the
    program transformer reaches the terms of a comparison this way): the
    term is rebuilt as it is, and anything that is not a node is refused. *)
Fixpoint generic_visit (t : term) : result term :=
  match t with
  | Symbol _ | Variable_ _ => Ok t
  | UnaryOperation op a => a' <- generic_visit a ;; Ok (UnaryOperation op a')
  | BinaryOperation op l r =>
      l' <- generic_visit l ;; r' <- generic_visit r ;;
      Ok (BinaryOperation op l' r')
  | Interval l r =>
      l' <- generic_visit l ;; r' <- generic_visit r ;; Ok (Interval l' r')
  | Function name arguments external =>
      arguments' <- (fix go (ts : list term) : result (list term) :=
                       match ts with
                       | [] => Ok []
                       | x :: xs =>
                           x' <- generic_visit x ;; xs' <- go xs ;;
                           Ok (x' :: xs')
                       end) arguments ;;
      Ok (Function name arguments' external)
  | Pool arguments =>
      arguments' <- (fix go (ts : list term) : result (list term) :=
                       match ts with
                       | [] => Ok []
                       | x :: xs =>
                           x' <- generic_visit x ;; xs' <- go xs ;;
                           Ok (x' :: xs')
                       end) arguments ;;
      Ok (Pool arguments')
  | Str _ => Raise (TypeError "unexpected type")
  end.

(** *** [is_constraint], [is_disjunction] *)

Definition is_constraint (s : statement) : bool :=
  match s with
  | Rule (HeadLiteral (Literal sign a)) _ =>
      match a with
      | BooleanConstant value => negb value
      | _ => false
      end
      || negb (sign_eqb sign NoSign)
  | _ => false
  end.

Definition is_disjunction (s : statement) : bool :=
  match s with
  | Rule (Disjunction _) _ => true
  | _ => false
  end.

(** *** [ProgramTransformer] *)

(** The literal [__append_final] puts at the end of a body. *)
Definition final_literal (add_param : bool) : body_literal :=
  BodyLiteral
    (Literal NoSign
       (SymbolicAtom
          (Function "__final" (if add_param then [Symbol parameter] else [])
                    false))).

Definition __append_final (body : list body_literal) (add_param : bool)
  : list body_literal :=
  body ++ [final_literal add_param].

Definition visit_SymbolicAtom (t : term) : M atom :=
  s <~ get ;;
  t' <~ term_visit (st_head s)
                   (negb (st_head s) && negb (st_constraint s))
                   (st_head s)
                   (st_head s && st_disjunction s)
                   t ;;
  ret (SymbolicAtom t').

(** The atom of a literal: a symbolic atom has its visitor, the other two
    kinds are traversed generically. *)
Definition visit_atom (a : atom) : M atom :=
  match a with
  | BooleanConstant _ => ret a
  | SymbolicAtom t => visit_SymbolicAtom t
  | Comparison cmp l r =>
      l' <~ lift (generic_visit l) ;;
      r' <~ lift (generic_visit r) ;;
      ret (Comparison cmp l' r')
  end.

Definition visit_Literal (l : literal) : M literal :=
  let '(Literal sign a) := l in
  s <~ get ;;
  let head := st_head s in
  modify (set_head (head && sign_eqb sign NoSign)) ;;;
  a' <~ visit_atom a ;;
  modify (set_head head) ;;;
  ret (Literal sign a').

Definition visit_ConditionalLiteral (c : conditional_literal)
  : M conditional_literal :=
  let '(ConditionalLiteral l condition) := c in
  l' <~ visit_Literal l ;;
  s <~ get ;;
  let head := st_head s in
  modify (set_head false) ;;;
  condition' <~ mapM visit_Literal condition ;;
  modify (set_head head) ;;;
  ret (ConditionalLiteral l' condition').

Definition visit_head (h : head) : M head :=
  match h with
  | HeadLiteral l => l' <~ visit_Literal l ;; ret (HeadLiteral l')
  | Disjunction elements =>
      elements' <~ mapM visit_ConditionalLiteral elements ;;
      ret (Disjunction elements')
  end.

Definition visit_body_literal (b : body_literal) : M body_literal :=
  match b with
  | BodyLiteral l => l' <~ visit_Literal l ;; ret (BodyLiteral l')
  | BodyConditional c => c' <~ visit_ConditionalLiteral c ;; ret (BodyConditional c')
  end.

Definition visit_body (body : list body_literal) : M (list body_literal) :=
  mapM visit_body_literal body.

(** [self.__part], an attribute only [visit_Program] creates. *)
Definition get_part : M string :=
  s <~ get ;;
  match st_part s with
  | Some p => ret p
  | None => raise (AttributeError "__part")
  end.

(** [d.setdefault(k, []).append(v)] *)
Definition setdefault_append
    (d : list (part_key * list (statement * statement)))
    (k : part_key) (v : statement * statement)
  : list (part_key * list (statement * statement)) :=
  match dict_get part_key_eqb d k with
  | Some vs => dict_set part_key_eqb d k (vs ++ [v])%list
  | None => dict_set part_key_eqb d k [v]
  end.

Definition visit_Rule (h : head) (body : list body_literal) : M statement :=
  modify (enter_rule (is_constraint (Rule h body))
                     (is_disjunction (Rule h body))) ;;;
  h' <~ visit_head h ;;
  modify (set_head false) ;;;
  body' <~ visit_body body ;;
  s <~ get ;;
  rule <~ (if (0 <? st_max_shift s) && negb (st_final s) then
             let last := Rule h' body' in
             let rule := Rule h' (__append_final body' true) in
             part <~ get_part ;;
             pname <~ lift (symbol_name parameter) ;;
             modify (fun s' => set_constraint_parts
                       (setdefault_append (constraint_parts s')
                          (part, pname, st_max_shift s) (rule, last)) s') ;;;
             ret rule
           else ret (Rule h' body')) ;;
  modify leave_rule ;;;
  ret rule.

Definition visit_Program (name : string) (parameters : list string)
  : M statement :=
  let final := String.eqb name "final" in
  let name1 := if final then "static" else name in
  let name2 := if String.eqb name1 "base" then "static" else name1 in
  pname <~ lift (symbol_name parameter) ;;
  modify (enter_program final name2) ;;;
  ret (Program name2 (parameters ++ [pname])).

(** [ProgramTransformer.visit] on a statement: in a final part a node with a
    body first gets the [__final] atom appended, then the visitor of its type
    runs ([External] has none and has its children visited). *)
Definition visit (x : statement) : M statement :=
  s <~ get ;;
  let x :=
    if st_final s then
      match x with
      | Rule h body => Rule h (__append_final body false)
      | External a body => External a (__append_final body false)
      | _ => x
      end
    else x in
  match x with
  | Rule h body => visit_Rule h body
  | Program name parameters => visit_Program name parameters
  | External a body =>
      a' <~ visit_atom a ;;
      body' <~ visit_body body ;;
      ret (External a' body')
  | ShowSignature name arity positive =>
      ret (ShowSignature name (arity + 1)%nat positive)
  | ProjectSignature name arity positive =>
      ret (ProjectSignature name (arity + 1)%nat positive)
  end.

End Transformer.

(** *** [transform] *)

Definition signature : Type := string * nat.

(** An element of [reground_parts]; the source never builds one. *)
Definition reground_part : Type := part_key * list (statement * statement).

Definition initial_state : state :=
  mkState false false false false 0 None [] [].

Section Transform.

(** [clingo.parse_program]: the statements of a text, in order, or an error. *)
Variable parse_program : string -> result (list statement).

Definition time_parameter : symbol := Fun _time_parameter_name [].

(** The first loop: every statement of every input goes through the
    transformer and is appended to [ret]. *)
Fixpoint visit_all (stms : list statement) (ret : list statement)
  : M (list statement) :=
  match stms with
  | [] => Transformers.ret ret
  | s :: stms' =>
      s' <~ visit time_parameter s ;;
      visit_all stms' (ret ++ [s'])
  end.

Fixpoint rewrite_inputs (inputs : list string) (ret : list statement)
  : M (list statement) :=
  match inputs with
  | [] => Transformers.ret ret
  | i :: inputs' =>
      stms <~ lift (parse_program i) ;;
      ret' <~ visit_all stms ret ;;
      rewrite_inputs inputs' ret'
  end.

(** What one pass of the second loop appends to [ret], for one entry of
    [future_predicates]. *)
Definition future_rules (k : key) (disjunctive : bool) : list statement :=
  let '(name, arity, shift) := k in
  let variables :=
    map (fun i => Str (format2 _variable_prefix i)) (seq 0 arity) in
  let t := Symbol (Fun _time_parameter_name []) in
  let s := Symbol (Number shift) in
  let l := fun x => Literal NoSign x in
  let t_shifted := BinaryOperation Plus t s in
  let p_current := SymbolicAtom (Function name (variables ++ [t]) false) in
  let f_current :=
    SymbolicAtom (Function (_future_prefix ++ name) (variables ++ [s; t]) false) in
  (if disjunctive then
     let p_future :=
       SymbolicAtom (Function name (variables ++ [t_shifted]) false) in
     let f_future :=
       SymbolicAtom (Function (_future_prefix ++ name)
                              (variables ++ [s; t_shifted]) false) in
     [External p_future [BodyLiteral (l f_future)];
      Rule (HeadLiteral (l f_future)) [BodyLiteral (l p_future)]]
   else [])
  ++ [Rule (HeadLiteral (l p_current)) [BodyLiteral (l f_current)]].

(** ... and what it appends to [future_sigs]. *)
Definition future_sig (k : key) : signature :=
  let '(name, arity, _) := k in ((_future_prefix ++ name)%string, (arity + 2)%nat).

Fixpoint add_future_rules (items : list (key * bool))
    (ret : list statement) (future_sigs : list signature)
  : list statement * list signature :=
  match items with
  | [] => (ret, future_sigs)
  | (k, disjunctive) :: items' =>
      add_future_rules items' (ret ++ future_rules k disjunctive)
                       (future_sigs ++ [future_sig k])
  end.

Definition transform (inputs : list string)
  : result (list statement * list signature * list reground_part) :=
  r <- rewrite_inputs inputs [] initial_state ;;
  let '(ret, st) := r in
  let '(ret, future_sigs) :=
    if (0 <? List.length (future_predicates st))%nat then
      add_future_rules (future_predicates st)
        (ret ++ [Program "static" [_time_parameter_name]]) []
    else (ret, []) in
  let reground_parts : list reground_part := [] in
  if (0 <? List.length reground_parts)%nat then Raise AssertionError
  else Ok (ret, future_sigs, reground_parts).

End Transform.

End Transformers.

Import Transformers.

(** ** [telingo/__init__.py] *)

Module Telingo.

(** *** The control object

    The grounder and solver sit behind [prg].  The loop only ever calls it,
    so the object is represented by the calls made on it so far, oldest
    first; what it answers ([symbolic_atoms], the result of [solve]) is a
    function of that history, supplied from outside.  Its calls are taken to
    return normally. *)

Record SolveResult : Type := mkSolveResult {
  satisfiable : bool;
  unsatisfiable : bool;
  unknown : bool
}.

(** An entry of [prg.symbolic_atoms]. *)
Record symbolic_atom : Type := mkAtom {
  atom_symbol : symbol;
  atom_literal : Z
}.

Definition part : Type := string * list Z.

Inductive call : Type :=
| release_external (s : symbol)
| cleanup
| ground (parts : list part)
| assign_external (s : symbol) (truth : bool)
| solve (assumptions : list Z) (step : Z).
    (** [step] is the value the model callback passes on *)

Definition control : Type := list call.

(** [clingo.Function("__final", [step])] *)
Definition __final (step : Z) : symbol := Fun "__final" [Number step].

(** [symbolic_atoms.by_signature(name, arity)]: the atoms over the predicate
    [name/arity], in the order of the atom base. *)
Definition has_signature (name : string) (arity : nat) (a : symbolic_atom) : bool :=
  match atom_symbol a with
  | Fun n args => String.eqb n name && Nat.eqb (List.length args) arity
  | Number _ => false
  end.

Definition by_signature (atoms : list symbolic_atom) (name : string) (arity : nat)
  : list symbolic_atom :=
  filter (has_signature name arity) atoms.

(** [symbol.arguments], [xs[-1]] and [symbol.number] *)
Definition arguments (s : symbol) : result (list symbol) :=
  match s with
  | Fun _ args => Ok args
  | Number _ => Raise (RuntimeError "unexpected")
  end.

Definition last_item (xs : list symbol) : result symbol :=
  match rev xs with
  | x :: _ => Ok x
  | [] => Raise (IndexError "list index out of range")
  end.

Definition number (s : symbol) : result Z :=
  match s with
  | Number n => Ok n
  | Fun _ _ => Raise (RuntimeError "unexpected")
  end.

(** [atom.symbol.arguments[-1].number] *)
Definition time_of (a : symbolic_atom) : result Z :=
  args <- arguments (atom_symbol a) ;;
  x <- last_item args ;;
  number x.

(** *** [imain] *)

Definition part_descriptor : Type := string * string * list Z.

Inductive outcome : Type :=
| Returned
| Raised (e : exn)
| OutOfFuel.

Section Imain.

Variable symbolic_atoms : control -> list symbolic_atom.
Variable solve_result : control -> list Z -> SolveResult.

Variable future_sigs : list signature.
Variable program_parts : list part_descriptor.
Variable imin : Z.
Variable imax : option Z.
Variable istop : string.

(** The test of lines 47-49. *)
Definition selected (step : Z) (root_name : string) (i : Z) : bool :=
  ((step - i >=? 0) && String.eqb root_name "static")
  || ((step - i >? 0) && String.eqb root_name "dynamic")
  || ((step - i =? 0) && String.eqb root_name "initial").

(** [for i in rng: ...] *)
Fixpoint parts_of_range (step : Z) (root_name part_name : string)
    (rng : list Z) (parts : list part) : list part :=
  match rng with
  | [] => parts
  | i :: rng' =>
      parts_of_range step root_name part_name rng'
        (if selected step root_name i
         then parts ++ [(part_name, [step - i; step])]
         else parts)
  end.

(** [for root_name, part_name, rng in program_parts: ...] *)
Fixpoint parts_of (step : Z) (descriptors : list part_descriptor)
    (parts : list part) : list part :=
  match descriptors with
  | [] => parts
  | (root_name, part_name, rng) :: descriptors' =>
      parts_of step descriptors'
        (parts_of_range step root_name part_name rng parts)
  end.

(** [for atom in prg.symbolic_atoms.by_signature(name, arity): ...] *)
Fixpoint assume_atoms (step : Z) (atoms : list symbolic_atom)
    (assumptions : list Z) : result (list Z) :=
  match atoms with
  | [] => Ok assumptions
  | a :: atoms' =>
      t <- time_of a ;;
      assume_atoms step atoms'
        (if t >? step then assumptions ++ [- atom_literal a] else assumptions)
  end.

(** [for name, arity in future_sigs: ...] *)
Fixpoint assume_sigs (step : Z) (base : list symbolic_atom)
    (sigs : list signature) (assumptions : list Z) : result (list Z) :=
  match sigs with
  | [] => Ok assumptions
  | (name, arity) :: sigs' =>
      assumptions' <- assume_atoms step (by_signature base name arity) assumptions ;;
      assume_sigs step base sigs' assumptions'
  end.

(** An attribute of [ret], which is [None] before the first solve. *)
Definition ret_attr (ret : option SolveResult) (name : string)
    (f : SolveResult -> bool) : result bool :=
  match ret with
  | Some r => Ok (f r)
  | None => Raise (AttributeError name)
  end.

(** The condition of the [while], with the short circuits of [and] and [or]. *)
Definition loop_condition (step : Z) (ret : option SolveResult) : result bool :=
  if match imax with None => true | Some m => step <? m end then
    if (step =? 0) || (step <? imin) then Ok true
    else
      c1 <- (if String.eqb istop "SAT"
             then b <- ret_attr ret "satisfiable" satisfiable ;; Ok (negb b)
             else Ok false) ;;
      if c1 : bool then Ok true
      else
        c2 <- (if String.eqb istop "UNSAT"
               then b <- ret_attr ret "unsatisfiable" unsatisfiable ;; Ok (negb b)
               else Ok false) ;;
        if c2 : bool then Ok true
        else
          if String.eqb istop "UNKNOWN"
          then b <- ret_attr ret "unknown" unknown ;; Ok (negb b)
          else Ok false
  else Ok false.

(** The calls of one pass up to and including [assign_external]. *)
Definition prepare (step : Z) (prg : control) : control :=
  let parts := parts_of step program_parts [] in
  let prg :=
    if step >? 0
    then prg ++ [release_external (__final (step - 1)); cleanup]
    else prg in
  let prg := prg ++ [ground parts] in
  prg ++ [assign_external (__final step) true].

(** The [while] loop.  It need not terminate, so it is run for at most
    [fuel] passes; [OutOfFuel] tells a run that was cut from one that ended. *)
Fixpoint imain_loop (fuel : nat) (step : Z) (ret : option SolveResult)
    (prg : control) : outcome * control :=
  match fuel with
  | O => (OutOfFuel, prg)
  | S fuel' =>
      match loop_condition step ret with
      | Raise e => (Raised e, prg)
      | Ok false => (Returned, prg)
      | Ok true =>
          let prg := prepare step prg in
          match assume_sigs step (symbolic_atoms prg) future_sigs [] with
          | Raise e => (Raised e, prg)
          | Ok assumptions =>
              let ret := solve_result prg assumptions in
              imain_loop fuel' (step + 1) (Some ret)
                         (prg ++ [solve assumptions step])
          end
      end
  end.

Definition imain (fuel : nat) (prg : control) : outcome * control :=
  imain_loop fuel 0 None prg.

End Imain.

(** *** [Application.main]

    Python checks the number of arguments when a function is called and the
    number of targets when a tuple is unpacked, so both are part of the
    model: a call passes a list of values, a function returns a value, and a
    tuple is the list of its components. *)

Inductive value : Type :=
| VTexts (texts : list string)
| VBuilderAdd
| VStatements (stms : list statement)
| VSignatures (sigs : list signature)
| VRegroundParts (parts : list reground_part)
| VProgramParts (parts : list part_descriptor)
| VTuple (items : list value).

Section Application.

Variable parse_program : string -> result (list statement).
Variable symbolic_atoms : control -> list symbolic_atom.
Variable solve_result : control -> list Z -> SolveResult.

(** [open(f)] followed by [f.read()]: the text of a file that can be opened. *)
Variable open_file : string -> result string.
Variable stdin : string.

(** Calling the function [def transform(inputs)] with positional arguments. *)
Definition call_transform (args : list value) : result value :=
  match args with
  | [inputs] =>
      match inputs with
      | VTexts texts =>
          r <- transform parse_program texts ;;
          let '(ret, future_sigs, reground_parts) := r in
          Ok (VTuple [VStatements ret; VSignatures future_sigs;
                      VRegroundParts reground_parts])
      | _ => Raise (TypeError "expected a list of strings")
      end
  | _ => Raise (TypeError "transform() takes exactly 1 argument")
  end.

(** [a, b = v] *)
Definition unpack2 (v : value) : result (value * value) :=
  match v with
  | VTuple [a; b] => Ok (a, b)
  | VTuple (_ :: _ :: _ :: _) => Raise (ValueError "too many values to unpack")
  | VTuple _ => Raise (ValueError "need more than 1 value to unpack")
  | _ => Raise (TypeError "object is not iterable")
  end.

(** [imain] iterates over its two list arguments and unpacks their
    elements; with a value of another shape that raises. *)
Definition as_signatures (v : value) : result (list signature) :=
  match v with
  | VSignatures sigs => Ok sigs
  | _ => Raise (TypeError "unexpected type")
  end.

Definition as_program_parts (v : value) : result (list part_descriptor) :=
  match v with
  | VProgramParts parts => Ok parts
  | _ => Raise (TypeError "unexpected type")
  end.

(** The body of the [with] block. *)
Definition load (files : list string) : result (value * value) :=
  files <- rmap open_file files ;;
  let files := if (List.length files =? 0)%nat then files ++ [stdin] else files in
  r <- call_transform [VTexts files; VBuilderAdd] ;;
  unpack2 r.

(** [main]: the options are the fields [__imin], [__imax] and [__istop] of
    the application; [fuel] bounds the passes of the loop. *)
Definition main (imin : Z) (imax : option Z) (istop : string)
    (fuel : nat) (prg : control) (files : list string) : outcome * control :=
  match load files with
  | Raise e => (Raised e, prg)
  | Ok (future_sigs, program_parts) =>
      match as_signatures future_sigs, as_program_parts program_parts with
      | Ok future_sigs, Ok program_parts =>
          imain symbolic_atoms solve_result future_sigs program_parts
                imin imax istop fuel prg
      | Raise e, _ | _, Raise e => (Raised e, prg)
      end
  end.

End Application.

End Telingo.

Import Telingo.

(** ** [imain] on a control object whose calls may raise

    [Telingo.imain_loop] takes every call on [prg] to return.  Here a call
    may also end with an exception, which leaves the loop at once.  For
    [solve] this is also where an exception of the model callback comes out:
    clingo runs [on_model(m, step)] inside [solve]. *)

Module Raising.

Section Imain.

Variable symbolic_atoms : control -> list symbolic_atom.
Variable solve_result : control -> list Z -> SolveResult.

(** [raises prg c]: the exception the call [c] ends with when it is made
    after the calls [prg], if it does not return. *)
Variable raises : control -> call -> option exn.

Variable future_sigs : list signature.
Variable program_parts : list part_descriptor.
Variable imin : Z.
Variable imax : option Z.
Variable istop : string.

(** Calls on [prg] one after the other, up to the first that raises; the
    call that raises is part of the history. *)
Fixpoint perform (calls : list call) (prg : control) : option exn * control :=
  match calls with
  | [] => (None, prg)
  | c :: calls' =>
      match raises prg c with
      | Some e => (Some e, prg ++ [c])
      | None => perform calls' (prg ++ [c])
      end
  end.

Fixpoint imain_loop (fuel : nat) (step : Z) (ret : option SolveResult)
    (prg : control) : outcome * control :=
  match fuel with
  | O => (OutOfFuel, prg)
  | S fuel' =>
      match loop_condition imin imax istop step ret with
      | Raise e => (Raised e, prg)
      | Ok false => (Returned, prg)
      | Ok true =>
          let parts := parts_of step program_parts [] in
          match perform
                  ((if step >? 0
                    then [release_external (__final (step - 1)); cleanup]
                    else [])
                   ++ [ground parts; assign_external (__final step) true])
                  prg with
          | (Some e, prg) => (Raised e, prg)
          | (None, prg) =>
              match assume_sigs step (symbolic_atoms prg) future_sigs [] with
              | Raise e => (Raised e, prg)
              | Ok assumptions =>
                  match perform [solve assumptions step] prg with
                  | (Some e, prg') => (Raised e, prg')
                  | (None, prg') =>
                      imain_loop fuel' (step + 1)
                                 (Some (solve_result prg assumptions)) prg'
                  end
              end
          end
      end
  end.

Definition imain (fuel : nat) (prg : control) : outcome * control :=
  imain_loop fuel 0 None prg.

End Imain.

End Raising.

(** ** [Application.__on_model] *)

Module Application.

(** A symbol of a model.  A function symbol of clingo has a sign besides its
    name and its arguments: [-p(1,0)] is the function symbol [p] with the
    arguments [1] and [0] and [positive = False].  The arguments are handed
    on as they are. *)
Inductive model_symbol : Type :=
| NumberSymbol (n : Z)
| FunctionSymbol (name : string) (arguments : list symbol) (positive : bool).

(** [clingo.Function(name, arguments)]: without a third argument the symbol
    is positive. *)
Definition clingo_Function (name : string) (arguments : list symbol)
  : model_symbol :=
  FunctionSymbol name arguments true.

(** [sym.name] and [sym.arguments] *)
Definition model_name (s : model_symbol) : result string :=
  match s with
  | FunctionSymbol n _ _ => Ok n
  | NumberSymbol _ => Raise (RuntimeError "unexpected")
  end.

Definition model_arguments (s : model_symbol) : result (list symbol) :=
  match s with
  | FunctionSymbol _ args _ => Ok args
  | NumberSymbol _ => Raise (RuntimeError "unexpected")
  end.

(** What [sys.stdout.write(fmt.format(x))] is given: the format string and
    the value that fills its field. *)
Inductive field : Type :=
| no_field
| int_field (n : Z)
| symbol_field (s : model_symbol).

Definition write : Type := string * field.

Definition newline : string := String (ascii_of_nat 10) EmptyString.

(** [xs[:-1]] *)
Definition all_but_last (xs : list symbol) : list symbol := removelast xs.

(** [name.startswith('__')] *)
Definition startswith (p s : string) : bool := String.prefix p s.

(** [table.setdefault(k, []).append(v)] *)
Definition table_append (table : list (Z * list model_symbol)) (k : Z)
    (v : model_symbol) : list (Z * list model_symbol) :=
  match dict_get Z.eqb table k with
  | Some vs => dict_set Z.eqb table k (vs ++ [v])
  | None => dict_set Z.eqb table k [v]
  end.

(** [table.get(k, [])] *)
Definition table_get (table : list (Z * list model_symbol)) (k : Z)
  : list model_symbol :=
  match dict_get Z.eqb table k with
  | Some vs => vs
  | None => []
  end.

(** The first loop: the shown symbols that are functions with arguments go
    into the table under their last argument, rebuilt from their name and
    their other arguments. *)
Fixpoint fill_table (syms : list model_symbol)
    (table : list (Z * list model_symbol))
  : result (list (Z * list model_symbol)) :=
  match syms with
  | [] => Ok table
  | sym :: syms' =>
      match sym with
      | FunctionSymbol name ((_ :: _) as args) _ =>
          x <- last_item args ;;
          t <- number x ;;
          fill_table syms'
            (table_append table t (clingo_Function name (all_but_last args)))
      | _ => fill_table syms' table
      end
  end.

Definition sig_eqb (a b : option (string * nat)) : bool :=
  match a, b with
  | Some (n1, a1), Some (n2, a2) => String.eqb n1 n2 && Nat.eqb a1 a2
  | None, None => true
  | _, _ => false
  end.

(** The innermost loop, over the sorted symbols of one state. *)
Fixpoint write_symbols (syms : list model_symbol) (sig : option (string * nat))
    (out : list write) : result (list write) :=
  match syms with
  | [] => Ok out
  | sym :: syms' =>
      name <- model_name sym ;;
      if negb (startswith "__" name) then
        args <- model_arguments sym ;;
        let this := Some (name, List.length args) in
        let changed := negb (sig_eqb this sig) in
        let out := if changed then out ++ [(newline ++ " ", no_field)%string] else out in
        let sig := if changed then this else sig in
        write_symbols syms' sig (out ++ [(" {}", symbol_field sym)])
      else write_symbols syms' sig out
  end.

Section OnModel.

(** [sorted] on a list of symbols, with the order clingo gives them. *)
Variable sorted : list model_symbol -> list model_symbol.

(** One pass of the loop over the states. *)
Definition write_state (table : list (Z * list model_symbol)) (step : Z)
    (out : list write) : result (list write) :=
  let symbols := table_get table step in
  let out := out ++ [(" State {}:", int_field step)] in
  out <- write_symbols (sorted symbols) None out ;;
  Ok (out ++ [(newline, no_field)]).

Fixpoint write_states (table : list (Z * list model_symbol)) (steps : list Z)
    (out : list write) : result (list write) :=
  match steps with
  | [] => Ok out
  | step :: steps' =>
      out <- write_state table step out ;;
      write_states table steps' out
  end.

(** [range(n)] *)
Definition range (n : Z) : list Z := map Z.of_nat (seq 0 (Z.to_nat n)).

(** [__on_model(model, steps)], with the shown symbols and the number of the
    model for [model]: what is written to standard output, in order. *)
Definition __on_model (shown : list model_symbol) (model_number : Z) (steps : Z)
  : result (list write) :=
  table <- fill_table shown [] ;;
  let out := [("Answer: {}" ++ newline, int_field model_number)%string] in
  write_states table (range (steps + 1)) out.

End OnModel.

End Application.

Import Application.

(** ** Vocabulary of the properties *)

(** [n] prime markers in a row. *)
Fixpoint primes (n : nat) : string :=
  match n with
  | O => EmptyString
  | S n' => String "'"%char (primes n')
  end.

Definition first_is_prime (s : string) : bool :=
  match s with
  | EmptyString => false
  | String c _ => is_prime c
  end.

Fixpoint last_is_prime (s : string) : bool :=
  match s with
  | EmptyString => false
  | String c EmptyString => is_prime c
  | String _ r => last_is_prime r
  end.

(** A core name: what is left of a functor once its markers are taken off,
    so it is not empty and neither starts nor ends with a marker. *)
Definition core_name (s : string) : bool :=
  negb (String.eqb s "") && negb (first_is_prime s) && negb (last_is_prime s).

(** Induction on terms that reaches the terms inside argument lists. *)
Section TermInduction.

Variable P : term -> Prop.
Hypothesis HSymbol : forall s, P (Symbol s).
Hypothesis HVariable : forall n, P (Variable_ n).
Hypothesis HUnary : forall op a, P a -> P (UnaryOperation op a).
Hypothesis HBinary : forall op l r, P l -> P r -> P (BinaryOperation op l r).
Hypothesis HInterval : forall l r, P l -> P r -> P (Interval l r).
Hypothesis HFunction : forall n args e, Forall P args -> P (Function n args e).
Hypothesis HPool : forall args, Forall P args -> P (Pool args).
Hypothesis HStr : forall s, P (Str s).

(** Induction on terms that also covers the terms inside argument lists. *)
Fixpoint term_induction (t : term) : P t :=
  let all := fix all (ts : list term) : Forall P ts :=
    match ts with
    | [] => Forall_nil P
    | x :: xs => Forall_cons x (term_induction x) (all xs)
    end in
  match t with
  | Symbol s => HSymbol s
  | Variable_ n => HVariable n
  | UnaryOperation op a => HUnary op a (term_induction a)
  | BinaryOperation op l r => HBinary op l r (term_induction l) (term_induction r)
  | Interval l r => HInterval l r (term_induction l) (term_induction r)
  | Function n args e => HFunction n args e (all args)
  | Pool args => HPool args (all args)
  | Str s => HStr s
  end.

End TermInduction.

(** [registered d d']: the registry [d'] is [d] after some registrations. *)
Inductive registered (d : list (key * bool)) : list (key * bool) -> Prop :=
| registered_none : registered d d
| registered_more d' k disjunctive :
    registered d d' -> registered d (register k disjunctive d').

(** Everything but the head flag is as before, and the registry has only been
    registered into. *)
Definition frame (st st' : state) : Prop :=
  st_final st' = st_final st /\
  st_constraint st' = st_constraint st /\
  st_disjunction st' = st_disjunction st /\
  st_part st' = st_part st /\
  registered (future_predicates st) (future_predicates st').

(** ... and the head flag is as before too. *)
Definition keeps (st st' : state) : Prop :=
  frame st st' /\ st_head st' = st_head st.

(** All a statement does to the registry is to register into it. *)
Definition registry_grows (st st' : state) : Prop :=
  registered (future_predicates st) (future_predicates st').


(** The literals that stand in a head: the literal itself, or the principal
    literals of the elements of a disjunction. *)
Definition head_literals (h : head) : list literal :=
  match h with
  | HeadLiteral l => [l]
  | Disjunction elements =>
      map (fun c => match c with ConditionalLiteral l _ => l end) elements
  end.

(** A plain literal over the atom [name(arguments)]. *)
Definition atom_literal_of (sign : Sign) (name : string) (arguments : list term)
    (external : bool) : literal :=
  Literal sign (SymbolicAtom (Function name arguments external)).

(** The placeholder atom with the shift as its first argument, in front of
    the arguments the atom had: the reading of "an extra leading argument
    is prepended to its argument list" that the code is compared with. *)
Definition shift_leading_form (parameter : symbol) (name : string)
    (arguments : list term) (external : bool) : term :=
  let s := get_shift name in
  Function (_future_prefix ++ strip name)
    (Symbol (Number s) :: arguments ++
     [BinaryOperation Plus (Symbol parameter) (Symbol (Number s))])
    external.

(** The placeholder atom as the code builds it: the shift follows the
    arguments the atom had and precedes the time argument. *)
Definition shift_before_time_form (parameter : symbol) (name : string)
    (arguments : list term) (external : bool) : term :=
  let s := get_shift name in
  Function (_future_prefix ++ strip name)
    (arguments ++
     [Symbol (Number s);
      BinaryOperation Plus (Symbol parameter) (Symbol (Number s))])
    external.

(** The headless rule [:- body]. *)
Definition constraint_of (body : list body_literal) : statement :=
  Rule (HeadLiteral (Literal NoSign (BooleanConstant false))) body.

(** A stand-in for the parser on a handful of program texts, to run the
    transform on. *)
Definition plain (name : string) : literal :=
  atom_literal_of NoSign name [] false.

Definition sample_parse (text : string) : result (list statement) :=
  if String.eqb text "p :- q'." then
    Ok [Program "base" []; Rule (HeadLiteral (plain "p")) [BodyLiteral (plain "q'")]]
  else if String.eqb text ":- q'." then
    Ok [Program "base" []; constraint_of [BodyLiteral (plain "q'")]]
  else if String.eqb text "'p :- q." then
    Ok [Program "base" []; Rule (HeadLiteral (plain "'p")) [BodyLiteral (plain "q")]]
  else if String.eqb text "a'' :- b." then
    Ok [Program "base" []; Rule (HeadLiteral (plain "a''")) [BodyLiteral (plain "b")]]
  else if String.eqb text "p'(X) ; q :- r." then
    Ok [Program "base" [];
        Rule (Disjunction
                [ConditionalLiteral
                   (atom_literal_of NoSign "p'" [Variable_ "X"] false) [];
                 ConditionalLiteral (plain "q") []])
             [BodyLiteral (plain "r")]]
  else if String.eqb text "p'. p''." then
    Ok [Program "base" [];
        Rule (HeadLiteral (plain "p'")) [];
        Rule (HeadLiteral (plain "p''")) []]
  else if String.eqb text "p :- q." then
    Ok [Program "base" []; Rule (HeadLiteral (plain "p")) [BodyLiteral (plain "q")]]
  else Raise (RuntimeError "parsing failed").

(** A transformer state inside the part [static], outside any rule. *)
Definition in_static : state :=
  mkState false false false false 0 (Some "static") [] [].

(** The statements the second loop of [transform] appends for a registry:
    the blocks of its entries, one after the other. *)
Definition synthesized (registry : list (key * bool)) : list statement :=
  flat_map (fun kd => future_rules (fst kd) (snd kd)) registry.

(** ... preceded by the program directive when there is any entry. *)
Definition auxiliary_part (registry : list (key * bool)) : list statement :=
  match registry with
  | [] => []
  | _ => Program "static" [_time_parameter_name] :: synthesized registry
  end.

Definition is_rule (s : statement) : bool :=
  match s with Rule _ _ => true | _ => false end.

Definition is_external (s : statement) : bool :=
  match s with External _ _ => true | _ => false end.

(** When a part rooted at [root_name] is due at the time point [t]. *)
Definition due (root_name : string) (t : Z) : Prop :=
  (root_name = "static" /\ t >= 0)
  \/ (root_name = "dynamic" /\ t > 0)
  \/ (root_name = "initial" /\ t = 0).

(** What one offset of one descriptor adds to the grounding request. *)
Definition contribution (step : Z) (root_name part_name : string) (i : Z)
  : list part :=
  if selected step root_name i then [(part_name, [step - i; step])] else [].

(** The calls of one pass of the loop, before [solve]. *)
Definition pass_calls (program_parts : list part_descriptor) (step : Z)
  : list call :=
  (if step >? 0 then [release_external (__final (step - 1)); cleanup] else [])
  ++ [ground (parts_of step program_parts []);
      assign_external (__final step) true].

(** [run step prg new]: starting a pass at [step] on the control [prg], the
    loop may issue the calls [new]: none if it stops there, those of a pass
    cut short by an exception, or those of a full pass followed by what it
    may issue from the next step on. *)
Inductive run (symbolic_atoms : control -> list symbolic_atom)
    (future_sigs : list signature) (program_parts : list part_descriptor)
  : Z -> control -> list call -> Prop :=
| run_stop step prg :
    run symbolic_atoms future_sigs program_parts step prg []
| run_raise step prg e :
    assume_sigs step (symbolic_atoms (prg ++ pass_calls program_parts step))
                future_sigs [] = Raise e ->
    run symbolic_atoms future_sigs program_parts step prg
        (pass_calls program_parts step)
| run_pass step prg assumptions new :
    assume_sigs step (symbolic_atoms (prg ++ pass_calls program_parts step))
                future_sigs [] = Ok assumptions ->
    run symbolic_atoms future_sigs program_parts (step + 1)
        (prg ++ pass_calls program_parts step ++ [solve assumptions step]) new ->
    run symbolic_atoms future_sigs program_parts step prg
        (pass_calls program_parts step ++ solve assumptions step :: new).

(** The finality markers that are asserted true after a sequence of calls:
    [assign_external] with [True] asserts one, [release_external] (or an
    assignment of [False]) withdraws it. *)
Definition final_step (s : symbol) : option Z :=
  match s with
  | Fun name [Number k] => if String.eqb name "__final" then Some k else None
  | _ => None
  end.

Definition mark (asserted : list Z) (c : call) : list Z :=
  match c with
  | assign_external s true =>
      match final_step s with
      | Some k => if existsb (Z.eqb k) asserted then asserted else asserted ++ [k]
      | None => asserted
      end
  | assign_external s false | release_external s =>
      match final_step s with
      | Some k => filter (fun j => negb (Z.eqb j k)) asserted
      | None => asserted
      end
  | cleanup | ground _ | solve _ _ => asserted
  end.

Definition asserted_finals (prg : control) : list Z := fold_left mark prg [].

(** The steps of the [solve] calls and of the markers asserted, in order. *)
Definition solve_steps (calls : list call) : list Z :=
  flat_map (fun c => match c with solve _ step => [step] | _ => [] end) calls.

Definition asserted_steps (calls : list call) : list Z :=
  flat_map (fun c => match c with
                     | assign_external s true =>
                         match final_step s with Some k => [k] | None => [] end
                     | _ => []
                     end) calls.

(** [start, start + 1, ..., start + n - 1] *)
Fixpoint zseq (start : Z) (n : nat) : list Z :=
  match n with
  | O => []
  | S n' => start :: zseq (start + 1) n'
  end.

(** The atoms [assume_sigs] appends an assumption for, in order: for each
    signature in turn, the atoms over it whose time lies after [step]. *)
Definition is_future (step : Z) (a : symbolic_atom) : bool :=
  match time_of a with
  | Ok t => t >? step
  | Raise _ => false
  end.

Definition assumed_atoms (step : Z) (base : list symbolic_atom)
    (sigs : list signature) : list symbolic_atom :=
  flat_map (fun sg => filter (is_future step) (by_signature base (fst sg) (snd sg)))
           sigs.

(** Every atom over a future signature carries a number as last argument. *)
Definition timed (base : list symbolic_atom) (sigs : list signature) : Prop :=
  forall name arity a,
    In (name, arity) sigs -> In a (by_signature base name arity) ->
    exists t, time_of a = Ok t.

(** The asserted markers after each call of [new], starting from [asserted]. *)
Fixpoint asserted_after_each (asserted : list Z) (new : list call)
  : list (list Z) :=
  asserted ::
  match new with
  | [] => []
  | c :: new' => asserted_after_each (mark asserted c) new'
  end.

Definition is_solve (c : call) : Prop :=
  match c with solve _ _ => True | _ => False end.

Definition is_assign (c : call) : Prop :=
  match c with assign_external _ _ => True | _ => False end.

(** A stand-in for the grounder and solver: an atom base with two
    placeholder atoms for the time points 1 and 2, and a solver that finds a
    model as soon as nothing is assumed. *)
Definition sample_atoms (prg : control) : list symbolic_atom :=
  [mkAtom (Fun "__future_p" [Number 1; Number 1]) 5;
   mkAtom (Fun "__future_p" [Number 2; Number 2]) 6;
   mkAtom (Fun "p" [Number 0]) 7].

Definition sample_result (prg : control) (assumptions : list Z) : SolveResult :=
  match assumptions with
  | [] => mkSolveResult true false false
  | _ => mkSolveResult false true false
  end.

(** The calls of the run of the loop on the stand-in control, with the one
    future signature [__future_p/2], no part descriptor and the default
    options: three passes, the last of which finds a model. *)
Definition sample_history : control :=
  [ground []; assign_external (__final 0) true; solve [-5; -6] 0;
   release_external (__final 0); cleanup;
   ground []; assign_external (__final 1) true; solve [-6] 1;
   release_external (__final 1); cleanup;
   ground []; assign_external (__final 2) true; solve [] 2].



(** ** Vocabulary of the further properties *)

(** A bare host string somewhere in a term. *)
Fixpoint has_str (t : term) : bool :=
  match t with
  | Symbol _ | Variable_ _ => false
  | UnaryOperation _ a => has_str a
  | BinaryOperation _ l r | Interval l r => has_str l || has_str r
  | Function _ arguments _ | Pool arguments =>
      (fix any (ts : list term) : bool :=
         match ts with
         | [] => false
         | x :: xs => has_str x || any xs
         end) arguments
  | Str _ => true
  end.

(** The time argument an atom with the given shift gets. *)
Definition time_argument (parameter : symbol) (shift : Z) : term :=
  if shift =? 0 then Symbol parameter
  else BinaryOperation Plus (Symbol parameter) (Symbol (Number shift)).

(** [registered_by d d']: the registry [d'] is [d] after registrations of the
    kind [__get_param] makes: under the stripped name of an atom, with its
    arity and its shift, which is positive. *)
Inductive registered_by (d : list (key * bool)) : list (key * bool) -> Prop :=
| registered_by_none : registered_by d d
| registered_by_more d' name arity disjunctive :
    registered_by d d' -> 0 < get_shift name ->
    registered_by d (register (strip name, arity, get_shift name) disjunctive d').

(** What a visit below the level of statements does: it registers, it moves
    the recorded maximal shift only inside a constraint, and it records
    nothing for regrounding. *)
Definition effect (st st' : state) : Prop :=
  registered_by (future_predicates st) (future_predicates st')
  /\ (st_constraint st = false -> st_max_shift st' = st_max_shift st)
  /\ constraint_parts st' = constraint_parts st.

(** The flags as they are between two statements. *)
Definition neutral (st : state) : Prop :=
  st_head st = false /\ st_constraint st = false
  /\ st_disjunction st = false /\ st_max_shift st = 0.

(** A key as [__get_param] makes them. *)
Definition clean_key (k : key) : Prop :=
  let '(name, _, shift) := k in
  0 < shift /\ first_is_prime name = false /\ last_is_prime name = false.

(** The name a program directive gets. *)
Definition part_name (name : string) : string :=
  if String.eqb name "final" then "static"
  else if String.eqb name "base" then "static"
  else name.

(** [rewritten x x']: [x'] is a statement of the kind of [x]; a signature
    keeps its name and sign and has its arity raised by one, a directive has
    the name of its part and one more parameter, a rule or an external
    declaration keeps the length of its body but for a guard at its end. *)
Definition rewritten (x x' : statement) : Prop :=
  match x, x' with
  | Rule _ body, Rule _ body' | External _ body, External _ body' =>
      (List.length body <= List.length body' <= List.length body + 1)%nat
  | Program name ps, Program name' ps' =>
      name' = part_name name /\ List.length ps' = (List.length ps + 1)%nat
  | ShowSignature n a p, ShowSignature n' a' p'
  | ProjectSignature n a p, ProjectSignature n' a' p' =>
      n' = n /\ a' = (a + 1)%nat /\ p' = p
  | _, _ => False
  end.

(** [passes step ret prg out new]: entered at [step] with the last result
    [ret] on the control [prg], the loop ends with the outcome [out] after
    the calls [new] (or is cut there, when [out] is [OutOfFuel]). *)
Inductive passes (symbolic_atoms : control -> list symbolic_atom)
    (solve_result : control -> list Z -> SolveResult)
    (future_sigs : list signature) (program_parts : list part_descriptor)
    (imin : Z) (imax : option Z) (istop : string)
  : Z -> option SolveResult -> control -> outcome -> list call -> Prop :=
| passes_cut step ret prg :
    passes symbolic_atoms solve_result future_sigs program_parts imin imax istop
           step ret prg OutOfFuel []
| passes_condition_raises step ret prg e :
    loop_condition imin imax istop step ret = Raise e ->
    passes symbolic_atoms solve_result future_sigs program_parts imin imax istop
           step ret prg (Raised e) []
| passes_stop step ret prg :
    loop_condition imin imax istop step ret = Ok false ->
    passes symbolic_atoms solve_result future_sigs program_parts imin imax istop
           step ret prg Returned []
| passes_assumptions_raise step ret prg e :
    loop_condition imin imax istop step ret = Ok true ->
    assume_sigs step (symbolic_atoms (prg ++ pass_calls program_parts step))
                future_sigs [] = Raise e ->
    passes symbolic_atoms solve_result future_sigs program_parts imin imax istop
           step ret prg (Raised e) (pass_calls program_parts step)
| passes_more step ret prg assumptions out new :
    loop_condition imin imax istop step ret = Ok true ->
    assume_sigs step (symbolic_atoms (prg ++ pass_calls program_parts step))
                future_sigs [] = Ok assumptions ->
    passes symbolic_atoms solve_result future_sigs program_parts imin imax istop
           (step + 1)
           (Some (solve_result (prg ++ pass_calls program_parts step) assumptions))
           (prg ++ pass_calls program_parts step ++ [solve assumptions step])
           out new ->
    passes symbolic_atoms solve_result future_sigs program_parts imin imax istop
           step ret prg out
           (pass_calls program_parts step ++ solve assumptions step :: new).

(** The stop criterion is met by a result. *)
Definition criterion_met (istop : string) (r : SolveResult) : Prop :=
  (istop = "SAT" -> satisfiable r = true)
  /\ (istop = "UNSAT" -> unsatisfiable r = true)
  /\ (istop = "UNKNOWN" -> unknown r = true).

Definition recognised (istop : string) : bool :=
  String.eqb istop "SAT" || String.eqb istop "UNSAT" || String.eqb istop "UNKNOWN".

(** The stop criterion is one the loop knows and the result does not meet
    it. *)
Definition criterion_unmet (istop : string) (r : SolveResult) : Prop :=
  (istop = "SAT" /\ satisfiable r = false)
  \/ (istop = "UNSAT" /\ unsatisfiable r = false)
  \/ (istop = "UNKNOWN" /\ unknown r = false).

(** ** Vocabulary for the printer *)

(** The symbols and the numbered headers among the things written. *)
Definition written_symbols (out : list write) : list model_symbol :=
  flat_map (fun w => match snd w with symbol_field s => [s] | _ => [] end) out.

Definition numbered (out : list write) : list write :=
  filter (fun w => match snd w with int_field _ => true | _ => false end) out.

(** A symbol the printer shows: a function whose name does not start with two
    underscores. *)
Definition visible (s : model_symbol) : bool :=
  match s with
  | FunctionSymbol name _ _ => negb (startswith "__" name)
  | NumberSymbol _ => false
  end.

(** A shown atom [name(x1, ..., xn, t)], with or without a sign, read as the
    positive atom [name(x1, ..., xn)] at state [t]. *)
Definition at_state (sym : model_symbol) : option (Z * model_symbol) :=
  match sym with
  | FunctionSymbol name args _ =>
      match rev args with
      | Number t :: before => Some (t, FunctionSymbol name (rev before) true)
      | _ => None
      end
  | NumberSymbol _ => None
  end.

Definition state_atoms (t : Z) (shown : list model_symbol) : list model_symbol :=
  flat_map (fun sym => match at_state sym with
                       | Some (t', s) => if t' =? t then [s] else []
                       | None => []
                       end) shown.

(** A positive function symbol. *)
Definition positive_function (s : model_symbol) : Prop :=
  exists name args, s = FunctionSymbol name args true.

(** A function symbol with arguments has a number as its last one. *)
Definition well_timed (sym : model_symbol) : Prop :=
  match sym with
  | FunctionSymbol _ (x :: args) _ =>
      exists t, last_item (x :: args) = Ok (Number t)
  | _ => True
  end.

Definition state_header (t : Z) : write := (" State {}:", int_field t).

(** A model with two states, a classically negated atom, an atom of a later
    state, a placeholder of a future atom, a number and a symbol without
    arguments; and what the printer writes for it when sorting leaves the
    order as it is. *)
Definition sample_shown : list model_symbol :=
  [FunctionSymbol "p" [Number 1; Number 0] true;
   FunctionSymbol "__future_a" [Number 2; Number 1] true;
   FunctionSymbol "q" [Number 1] true;
   NumberSymbol 3;
   FunctionSymbol "r" [] true;
   FunctionSymbol "p" [Number 2; Number 0] false;
   FunctionSymbol "s" [Number 7] true].

Definition sample_output : list write :=
  Eval cbv in
    match __on_model (fun l => l) sample_shown 1 1 with
    | Ok out => out
    | Raise _ => []
    end.

(** A control object on which [solve] raises at step 1, as it does when the
    model callback raises there. *)
Definition sample_raises (prg : control) (c : call) : option exn :=
  match c with
  | solve _ 1 => Some (RuntimeError "unexpected")
  | _ => None
  end.

(** ** The shift of a name *)

Section Shift.

Lemma length_append (a b : string) :
  String.length (a ++ b)%string = (String.length a + String.length b)%nat.
Proof. induction a as [|c a IH]; simpl; [reflexivity | now rewrite IH]. Qed.

Lemma length_primes (n : nat) : String.length (primes n) = n.
Proof. induction n; simpl; congruence. Qed.

Lemma append_assoc (a b c : string) :
  ((a ++ b) ++ c)%string = (a ++ (b ++ c))%string.
Proof. induction a as [|x a IH]; simpl; [reflexivity | now rewrite IH]. Qed.

Lemma rstrip_primes (n : nat) : rstrip (primes n) = EmptyString.
Proof. induction n as [|n IH]; simpl; [reflexivity | now rewrite IH]. Qed.






Lemma count_leading_primes_app (n : nat) (s : string) (acc : Z) :
  first_is_prime s = false ->
  count_leading (primes n ++ s) acc = acc - Z.of_nat n.
Proof.
  intros Hs. revert acc. induction n as [|n IH]; intros acc.
  - simpl. destruct s as [|c s]; simpl in *; [lia | rewrite Hs; lia].
  - change (count_leading (primes n ++ s) (acc - 1) = acc - Z.of_nat (S n)).
    rewrite IH. lia.
Qed.





End Shift.

(** ** The term rewriter *)

Section TermRewriter.

Variable parameter : symbol.

Lemma key_eqb_eq (a b : key) : key_eqb a b = true <-> a = b.
Proof.
  destruct a as [[n1 a1] s1], b as [[n2 a2] s2]. unfold key_eqb.
  rewrite !andb_true_iff, String.eqb_eq, Nat.eqb_eq, Z.eqb_eq.
  split; [intros [[-> ->] ->]; reflexivity | intros [= -> -> ->]; auto].
Qed.

Lemma key_eqb_refl (k : key) : key_eqb k k = true.
Proof. now apply key_eqb_eq. Qed.

Lemma dict_get_set_same {V} (d : list (key * V)) (k : key) (v : V) :
  dict_get key_eqb (dict_set key_eqb d k v) k = Some v.
Proof.
  induction d as [|[k' v'] d IH]; simpl.
  - now rewrite key_eqb_refl.
  - destruct (key_eqb k' k) eqn:E; simpl; rewrite E; [reflexivity | exact IH].
Qed.

(** After [register] the key is in the registry; its flag is [true] for a
    disjunctive occurrence and is otherwise what it was ([false] if new). *)
Lemma register_get (k : key) (disjunctive : bool) (d : list (key * bool)) :
  dict_get key_eqb (register k disjunctive d) k =
  Some (if disjunctive then true
        else match dict_get key_eqb d k with Some b => b | None => false end).
Proof.
  unfold register, dict_setdefault. destruct disjunctive.
  - apply dict_get_set_same.
  - destruct (dict_get key_eqb d k) eqn:E; [exact E | apply dict_get_set_same].
Qed.

Ltac shift_cases name :=
  unfold __get_param;
  destruct (Z.eqb_spec (get_shift name) 0);
  destruct (Z.ltb_spec 0 (get_shift name));
  destruct (Z.ltb_spec (get_shift name) 0);
  try lia.

(** The four ways [__get_param] treats a name whose shift is not zero. *)
Lemma get_param_redirect name arity fail_past disjunctive st :
  0 < get_shift name ->
  __get_param parameter name arity true false fail_past disjunctive st =
  Ok ((_future_prefix ++ strip name,
       [Symbol (Number (get_shift name));
        BinaryOperation Plus (Symbol parameter) (Symbol (Number (get_shift name)))])%string,
      set_future_predicates
        (register (strip name, arity, get_shift name) disjunctive
                  (future_predicates st)) st).
Proof.
  intros H. shift_cases name. now destruct fail_past.
Qed.

Lemma get_param_fail_future name arity replace_future fail_past disjunctive st :
  0 < get_shift name ->
  __get_param parameter name arity replace_future true fail_past disjunctive st =
  Raise future_error.
Proof.
  intros H. shift_cases name. reflexivity.
Qed.

Lemma get_param_fail_past name arity replace_future fail_future disjunctive st :
  get_shift name < 0 ->
  __get_param parameter name arity replace_future fail_future true disjunctive st =
  Raise past_error.
Proof.
  intros H. shift_cases name. now destruct fail_future.
Qed.

Lemma get_param_keep name arity fail_past disjunctive st :
  0 < get_shift name ->
  __get_param parameter name arity false false fail_past disjunctive st =
  Ok ((strip name,
       [BinaryOperation Plus (Symbol parameter) (Symbol (Number (get_shift name)))]),
      set_max_shift (Z.max (st_max_shift st) (get_shift name)) st).
Proof.
  intros H. shift_cases name. now destruct fail_past.
Qed.

(** The flags [visit_SymbolicAtom] derives from the state. *)
Lemma visit_SymbolicAtom_unfold name arguments external st :
  visit_SymbolicAtom parameter (Function name arguments external) st =
  match __get_param parameter name (List.length arguments)
          (st_head st) (negb (st_head st) && negb (st_constraint st))
          (st_head st) (st_head st && st_disjunction st) st with
  | Ok (np, st') =>
      Ok (SymbolicAtom (Function (fst np) (arguments ++ snd np) external), st')
  | Raise e => Raise e
  end.
Proof.
  unfold visit_SymbolicAtom, bind, get. simpl. unfold visit_Function, bind.
  destruct (__get_param _ _ _ _ _ _ _ st) as [[np st']|e]; reflexivity.
Qed.

(** What [visit_SymbolicAtom] does with an atom whose shift is not zero, by
    the flags of the state it is met in. *)
Lemma visit_SymbolicAtom_cases name arguments external st :
  (st_head st = false -> st_constraint st = false -> 0 < get_shift name ->
   visit_SymbolicAtom parameter (Function name arguments external) st =
   Raise future_error)
  /\
  (st_head st = false -> st_constraint st = true -> 0 < get_shift name ->
   visit_SymbolicAtom parameter (Function name arguments external) st =
   Ok (SymbolicAtom
         (Function (strip name)
            (arguments ++
             [BinaryOperation Plus (Symbol parameter)
                              (Symbol (Number (get_shift name)))])
            external),
       set_max_shift (Z.max (st_max_shift st) (get_shift name)) st))
  /\
  (st_head st = true -> get_shift name < 0 ->
   visit_SymbolicAtom parameter (Function name arguments external) st =
   Raise past_error)
  /\
  (st_head st = true -> 0 < get_shift name ->
   visit_SymbolicAtom parameter (Function name arguments external) st =
   Ok (SymbolicAtom
         (Function (_future_prefix ++ strip name)
            (arguments ++
             [Symbol (Number (get_shift name));
              BinaryOperation Plus (Symbol parameter)
                              (Symbol (Number (get_shift name)))])
            external),
       set_future_predicates
         (register (strip name, List.length arguments, get_shift name)
                   (st_disjunction st) (future_predicates st)) st)).
Proof.
  repeat split; intros; rewrite visit_SymbolicAtom_unfold.
  - rewrite H, H0. simpl. now rewrite get_param_fail_future.
  - rewrite H, H0. simpl. now rewrite get_param_keep.
  - rewrite H. simpl. now rewrite get_param_fail_past.
  - rewrite H. simpl. now rewrite get_param_redirect.
Qed.

End TermRewriter.

(** ** The state-and-exception computations *)

Lemma bind_ok {A B} (m : M A) (k : A -> M B) st b st' :
  bind m k st = Ok (b, st') ->
  exists a st1, m st = Ok (a, st1) /\ k a st1 = Ok (b, st').
Proof.
  unfold bind. destruct (m st) as [[a st1]|e]; [|discriminate].
  intros H. now exists a, st1.
Qed.


Lemma bind_step {A B} (m : M A) (k : A -> M B) st a st1 :
  m st = Ok (a, st1) -> bind m k st = k a st1.
Proof. unfold bind. now intros ->. Qed.

Lemma lift_ok {A} (r : result A) st a st' :
  lift r st = Ok (a, st') -> r = Ok a /\ st' = st.
Proof. unfold lift. destruct r; [intros [= -> ->]; auto | discriminate]. Qed.

Ltac bind_inv H :=
  let a := fresh "a" in
  let st1 := fresh "st" in
  let H1 := fresh "Hm" in
  apply bind_ok in H; destruct H as (a & st1 & H1 & H).

(** ** What a visit leaves unchanged *)

Section Frame.

Variable parameter : symbol.

Lemma registered_trans d1 d2 d3 :
  registered d1 d2 -> registered d2 d3 -> registered d1 d3.
Proof.
  intros H12 H23. induction H23; [assumption | now constructor].
Qed.

Lemma frame_refl st : frame st st.
Proof. unfold frame; repeat split; constructor. Qed.

Lemma frame_trans st1 st2 st3 : frame st1 st2 -> frame st2 st3 -> frame st1 st3.
Proof.
  unfold frame. intros (A1 & A2 & A3 & A4 & A5) (B1 & B2 & B3 & B4 & B5).
  repeat split; try congruence. eapply registered_trans; eauto.
Qed.

Lemma frame_set_head b st : frame st (set_head b st).
Proof. unfold frame; simpl; repeat split; constructor. Qed.

Lemma dict_set_length {V} (d : list (key * V)) k v :
  (List.length d <= List.length (dict_set key_eqb d k v))%nat.
Proof.
  induction d as [|[k' v'] d IH]; simpl; [lia|].
  destruct (key_eqb k' k); simpl; lia.
Qed.

Lemma register_length k disjunctive d :
  (List.length d <= List.length (register k disjunctive d))%nat.
Proof.
  unfold register, dict_setdefault. destruct disjunctive.
  - apply dict_set_length.
  - destruct (dict_get key_eqb d k); [lia | apply dict_set_length].
Qed.

Lemma get_param_frame name arity rf ff fp dj st np st' :
  __get_param parameter name arity rf ff fp dj st = Ok (np, st') ->
  frame st st' /\ st_head st' = st_head st.
Proof.
  unfold __get_param.
  destruct (get_shift name =? 0).
  { intros [= <- <-]. split; [apply frame_refl | reflexivity]. }
  destruct (ff && (0 <? get_shift name)); [discriminate|].
  destruct (fp && (get_shift name <? 0)); [discriminate|].
  destruct (0 <? get_shift name); [destruct rf|];
    unfold bind, modify, ret; simpl; intros [= <- <-];
    (split; [|reflexivity]); unfold frame; simpl; repeat split;
    repeat constructor.
Qed.

Lemma term_visit_frame rf ff fp dj t :
  forall st t' st',
    term_visit parameter rf ff fp dj t st = Ok (t', st') ->
    frame st st' /\ st_head st' = st_head st.
Proof.
  induction t using term_induction; intros st t' st' Hv; simpl in Hv.
  - discriminate.
  - injection Hv as <- <-. split; [apply frame_refl | reflexivity].
  - bind_inv Hv. injection Hv as <- <-. eauto.
  - bind_inv Hv. bind_inv Hv. injection Hv as <- <-.
    destruct (IHt1 _ _ _ Hm) as [F1 E1], (IHt2 _ _ _ Hm0) as [F2 E2].
    split; [eapply frame_trans; eauto | congruence].
  - bind_inv Hv. bind_inv Hv. injection Hv as <- <-.
    destruct (IHt1 _ _ _ Hm) as [F1 E1], (IHt2 _ _ _ Hm0) as [F2 E2].
    split; [eapply frame_trans; eauto | congruence].
  - unfold visit_Function in Hv. bind_inv Hv. injection Hv as <- <-.
    eapply get_param_frame; eauto.
  - bind_inv Hv. injection Hv as <- <-.
    match goal with
    | Hgo : _ st = Ok (?a, ?s) |- _ => revert st a s Hgo
    end.
    induction H as [|x xs Hx Hxs IH]; intros st a st' Hm.
    + injection Hm as <- <-. split; [apply frame_refl | reflexivity].
    + bind_inv Hm. bind_inv Hm. injection Hm as <- <-.
      destruct (Hx _ _ _ Hm0) as [F1 E1], (IH _ _ _ Hm1) as [F2 E2].
      split; [eapply frame_trans; eauto | congruence].
  - discriminate.
Qed.

Lemma keeps_refl st : keeps st st.
Proof. split; [apply frame_refl | reflexivity]. Qed.

Lemma keeps_trans st1 st2 st3 : keeps st1 st2 -> keeps st2 st3 -> keeps st1 st3.
Proof.
  intros [F1 E1] [F2 E2]. split; [eapply frame_trans; eauto | congruence].
Qed.

Lemma visit_atom_keeps a st a' st' :
  visit_atom parameter a st = Ok (a', st') -> keeps st st'.
Proof.
  destruct a as [v|t|cmp l r]; simpl; intros Hv.
  - injection Hv as <- <-. apply keeps_refl.
  - unfold visit_SymbolicAtom in Hv. bind_inv Hv.
    injection Hm as <- <-. bind_inv Hv. injection Hv as <- <-.
    eapply term_visit_frame; eauto.
  - bind_inv Hv. bind_inv Hv. injection Hv as <- <-.
    apply lift_ok in Hm, Hm0. destruct Hm as [_ ->], Hm0 as [_ ->].
    apply keeps_refl.
Qed.

(** A literal leaves the head flag as it found it. *)
Lemma visit_Literal_keeps l st l' st' :
  visit_Literal parameter l st = Ok (l', st') -> keeps st st'.
Proof.
  destruct l as [sign a]. unfold visit_Literal. intros Hv.
  bind_inv Hv. injection Hm as <- <-.
  bind_inv Hv. injection Hm as <- <-.
  bind_inv Hv. bind_inv Hv. injection Hm0 as <- <-. injection Hv as <- <-.
  apply visit_atom_keeps in Hm. destruct Hm as [F _].
  split; [|reflexivity].
  eapply frame_trans; [apply frame_set_head|].
  eapply frame_trans; [exact F | apply frame_set_head].
Qed.

Lemma mapM_keeps {A B} (f : A -> M B) (xs : list A) :
  (forall x st y st', In x xs -> f x st = Ok (y, st') -> keeps st st') ->
  forall st ys st', mapM f xs st = Ok (ys, st') -> keeps st st'.
Proof.
  induction xs as [|x xs IH]; intros Hf st ys st' Hv; simpl in Hv.
  - injection Hv as <- <-. apply keeps_refl.
  - bind_inv Hv. bind_inv Hv. injection Hv as <- <-.
    eapply keeps_trans.
    + eapply Hf; [left; reflexivity | eauto].
    + eapply IH; [|eauto]. intros; eapply Hf; [right|]; eauto.
Qed.

Lemma visit_ConditionalLiteral_keeps c st c' st' :
  visit_ConditionalLiteral parameter c st = Ok (c', st') -> keeps st st'.
Proof.
  destruct c as [l cond]. unfold visit_ConditionalLiteral. intros Hv.
  bind_inv Hv. bind_inv Hv. injection Hm0 as <- <-.
  bind_inv Hv. injection Hm0 as <- <-.
  bind_inv Hv. bind_inv Hv. injection Hm1 as <- <-. injection Hv as <- <-.
  apply visit_Literal_keeps in Hm. destruct Hm as [F1 E1].
  apply mapM_keeps in Hm0;
    [|intros; eapply visit_Literal_keeps; eauto].
  destruct Hm0 as [F2 _].
  split; [|simpl; congruence].
  eapply frame_trans; [exact F1|].
  eapply frame_trans; [apply frame_set_head|].
  eapply frame_trans; [exact F2 | apply frame_set_head].
Qed.

Lemma visit_body_literal_keeps b st b' st' :
  visit_body_literal parameter b st = Ok (b', st') -> keeps st st'.
Proof.
  destruct b as [l|c]; simpl; intros Hv; bind_inv Hv; injection Hv as <- <-.
  - eapply visit_Literal_keeps; eauto.
  - eapply visit_ConditionalLiteral_keeps; eauto.
Qed.

Lemma visit_body_keeps body st body' st' :
  visit_body parameter body st = Ok (body', st') -> keeps st st'.
Proof.
  apply mapM_keeps. intros; eapply visit_body_literal_keeps; eauto.
Qed.

Lemma visit_head_keeps h st h' st' :
  visit_head parameter h st = Ok (h', st') -> keeps st st'.
Proof.
  destruct h as [l|els]; simpl; intros Hv; bind_inv Hv; injection Hv as <- <-.
  - eapply visit_Literal_keeps; eauto.
  - eapply mapM_keeps; [|eauto].
    intros; eapply visit_ConditionalLiteral_keeps; eauto.
Qed.

(** Recording a rule for regrounding does not touch the registry. *)
Lemma record_constraint_registry (c : bool) h' body' m st r st' :
  (if c then
     part <~ get_part ;;
     pname <~ lift (symbol_name parameter) ;;
     modify (fun s' => set_constraint_parts
               (setdefault_append (constraint_parts s')
                  (part, pname, m)
                  (Rule h' (__append_final parameter body' true), Rule h' body'))
               s') ;;;
     ret (Rule h' (__append_final parameter body' true))
   else ret (Rule h' body')) st = Ok (r, st') ->
  future_predicates st' = future_predicates st.
Proof.
  destruct c; intros H.
  - bind_inv H. bind_inv H. bind_inv H. injection H as <- <-.
    injection Hm1 as <- <-. apply lift_ok in Hm0. destruct Hm0 as [_ ->].
    unfold get_part in Hm. bind_inv Hm. injection Hm0 as <- <-.
    destruct (st_part st); [|discriminate]. now injection Hm as <- <-.
  - now injection H as <- <-.
Qed.

Lemma frame_registry st st' : frame st st' -> registry_grows st st'.
Proof. unfold frame, registry_grows. tauto. Qed.

Lemma visit_registry x st x' st' :
  visit parameter x st = Ok (x', st') -> registry_grows st st'.
Proof.
  unfold visit. intros Hv. bind_inv Hv. injection Hm as <- <-.
  set (y := if st_final st then _ else x) in Hv.
  clearbody y. destruct y as [h body|name ps|a body|n ar p|n ar p].
  - unfold visit_Rule in Hv.
    bind_inv Hv. injection Hm as <- <-.
    bind_inv Hv. apply visit_head_keeps in Hm. destruct Hm as [F1 _].
    bind_inv Hv. injection Hm as <- <-.
    bind_inv Hv. apply visit_body_keeps in Hm. destruct Hm as [F2 _].
    bind_inv Hv. injection Hm as <- <-.
    bind_inv Hv. bind_inv Hv. injection Hm0 as <- <-. injection Hv as <- <-.
    apply frame_registry in F1, F2. unfold registry_grows in *. simpl in *.
    eapply registered_trans; [exact F1|].
    apply record_constraint_registry in Hm. rewrite Hm. exact F2.
  - unfold visit_Program in Hv. bind_inv Hv. bind_inv Hv.
    injection Hm0 as <- <-. injection Hv as <- <-.
    apply lift_ok in Hm. destruct Hm as [_ ->].
    unfold registry_grows. simpl. constructor.
  - bind_inv Hv. bind_inv Hv. injection Hv as <- <-.
    apply visit_atom_keeps in Hm. apply visit_body_keeps in Hm0.
    destruct Hm as [F1 _], Hm0 as [F2 _].
    apply frame_registry in F1, F2. unfold registry_grows in *.
    eapply registered_trans; eauto.
  - injection Hv as <- <-. constructor.
  - injection Hv as <- <-. constructor.
Qed.

End Frame.

(** ** Where references to the past and to the future are refused *)

Section Policy.

Variable parameter : symbol.









End Policy.

Section TransformFails.

Variable parse_program : string -> result (list statement).




End TransformFails.

(** ** Where they are accepted *)

Section Accepted.

Variable parameter : symbol.



End Accepted.


(** ** A head atom that looks ahead *)

(** C8, as the code has it: under future redirection a head atom with a
    positive shift [s] comes back under the placeholder name, with the
    literal [s] and then the time argument [t + s] appended after the
    arguments it had (so the shift is the argument just before the time
    argument, not the first one), the key (stripped name, original arity, s)
    is in the registry afterwards, raised to [true] by a disjunctive
    occurrence, and the atom has its original arity plus two arguments. *)
Theorem future_head_atom_rewrite
    (parameter : symbol) (name : string) (arguments : list term)
    (external fail_past disjunctive : bool) (st : state) :
  0 < get_shift name ->
  let s := get_shift name in
  let k := (strip name, List.length arguments, s) in
  let st' :=
    set_future_predicates (register k disjunctive (future_predicates st)) st in
  visit_Function parameter name arguments external
                 true false fail_past disjunctive st =
  Ok (shift_before_time_form parameter name arguments external, st')
  /\ (exists flag,
        dict_get key_eqb (future_predicates st') k = Some flag
        /\ (disjunctive = true -> flag = true))
  /\ match shift_before_time_form parameter name arguments external with
     | Function n args _ =>
         n = (_future_prefix ++ strip name)%string
         /\ List.length args = (List.length arguments + 2)%nat
         /\ nth_error args (List.length arguments) = Some (Symbol (Number s))
         /\ nth_error args (List.length arguments + 1) =
            Some (BinaryOperation Plus (Symbol parameter) (Symbol (Number s)))
     | _ => False
     end.
Proof.
  intros Hs s k st'. repeat apply conj.
  - unfold visit_Function. unfold bind.
    rewrite (get_param_redirect parameter name _ fail_past disjunctive st Hs).
    reflexivity.
  - simpl. rewrite register_get. eexists. split; [reflexivity|].
    now intros ->.
  - reflexivity.
  - simpl. rewrite length_app. reflexivity.
  - simpl. rewrite nth_error_app2 by lia. now rewrite Nat.sub_diag.
  - simpl. rewrite nth_error_app2 by lia.
    now replace (List.length arguments + 1 - List.length arguments)%nat
      with 1%nat by lia.
Qed.

Lemma future_head_atom_rewrite_witness :
  0 < get_shift "p'" /\
  visit_Function time_parameter "p'" [Variable_ "X"] false
                 true false true false in_static =
  Ok (Function "__future_p"
        [Variable_ "X"; Symbol (Number 1);
         BinaryOperation Plus (Symbol time_parameter) (Symbol (Number 1))]
        false,
      set_future_predicates [(("p", 1%nat, 1), false)] in_static).
Proof.
  split; [vm_compute; reflexivity|].
  apply (future_head_atom_rewrite time_parameter "p'" [Variable_ "X"]
           false true false in_static).
  vm_compute; reflexivity.
Defined.

(** C8 as it is worded fails: the atom [p'(X)] in a head becomes
    [__future_p(X,1,__t+1)]; the shift is its second argument, and the atom is
    not the one with the shift in front. *)
Lemma future_head_atom_shift_not_leading :
  exists t st',
    visit_Function time_parameter "p'" [Variable_ "X"] false
                   true false true false in_static = Ok (t, st')
    /\ t <> shift_leading_form time_parameter "p'" [Variable_ "X"] false.
Proof.
  eexists. eexists. split; [vm_compute; reflexivity|].
  vm_compute. discriminate.
Qed.

(** ** The registry and the auxiliary rules *)

Section Registry.

Lemma dict_set_keys {V} (d : list (key * V)) k v :
  map fst (dict_set key_eqb d k v) =
  match dict_get key_eqb d k with
  | Some _ => map fst d
  | None => map fst d ++ [k]
  end.
Proof.
  induction d as [|[k' v'] d IH]; simpl; [reflexivity|].
  destruct (key_eqb k' k) eqn:E; simpl; [reflexivity|].
  rewrite IH. now destruct (dict_get key_eqb d k).
Qed.

Lemma dict_get_none_not_in {V} (d : list (key * V)) k :
  dict_get key_eqb d k = None -> ~ In k (map fst d).
Proof.
  induction d as [|[k' v'] d IH]; simpl; [tauto|].
  destruct (key_eqb k' k) eqn:E; [discriminate|].
  intros H [->|Hin]; [|now apply IH].
  now rewrite key_eqb_refl in E.
Qed.

Lemma register_keys k disjunctive d :
  map fst (register k disjunctive d) =
  match dict_get key_eqb d k with
  | Some _ => map fst d
  | None => map fst d ++ [k]
  end.
Proof.
  unfold register, dict_setdefault. destruct disjunctive.
  - apply dict_set_keys.
  - destruct (dict_get key_eqb d k) eqn:E; [reflexivity|].
    rewrite dict_set_keys. now rewrite E.
Qed.

(** A dictionary holds a key once. *)
Lemma registered_nodup d d' :
  registered d d' -> NoDup (map fst d) -> NoDup (map fst d').
Proof.
  induction 1 as [|d' k dj H IH]; intros Hd; [assumption|].
  rewrite register_keys. destruct (dict_get key_eqb d' k) eqn:E; [auto|].
  apply NoDup_app; [auto | repeat constructor; easy |].
  intros x Hx [Ex|[]]. subst x. now apply (dict_get_none_not_in d' k).
Qed.

Lemma register_not_empty k disjunctive d : register k disjunctive d <> [].
Proof.
  intros H. apply (f_equal (map fst)) in H. rewrite register_keys in H.
  destruct (dict_get key_eqb d k) eqn:E.
  - destruct d as [|[k' v'] d]; simpl in *; discriminate.
  - simpl in H. now destruct (map fst d).
Qed.

(** If the registry is empty in the end, nothing was ever registered. *)
Lemma registered_empty d : registered d [] -> d = [].
Proof.
  intros H. inversion H as [E|d' k dj H' E]; [congruence|].
  now apply register_not_empty in E.
Qed.

Variable parse_program : string -> result (list statement).

Lemma visit_all_registry stms :
  forall ret st ret' st',
    visit_all stms ret st = Ok (ret', st') -> registry_grows st st'.
Proof.
  induction stms as [|s stms IH]; intros ret st ret' st' Hv; simpl in Hv.
  - injection Hv as <- <-. constructor.
  - bind_inv Hv. apply visit_registry in Hm. apply IH in Hv.
    eapply registered_trans; eauto.
Qed.

Lemma rewrite_inputs_registry inputs :
  forall ret st ret' st',
    rewrite_inputs parse_program inputs ret st = Ok (ret', st') ->
    registry_grows st st'.
Proof.
  induction inputs as [|i inputs IH]; intros ret st ret' st' Hv; simpl in Hv.
  - injection Hv as <- <-. constructor.
  - bind_inv Hv. apply lift_ok in Hm. destruct Hm as [_ ->].
    bind_inv Hv. apply visit_all_registry in Hm. apply IH in Hv.
    eapply registered_trans; eauto.
Qed.

Lemma add_future_rules_eq items :
  forall ret future_sigs,
    add_future_rules items ret future_sigs =
    (ret ++ synthesized items,
     future_sigs ++ map (fun kd => future_sig (fst kd)) items).
Proof.
  induction items as [|[k d] items IH]; intros ret sigs; simpl.
  - now rewrite !app_nil_r.
  - rewrite IH. unfold synthesized. simpl. now rewrite <- !app_assoc.
Qed.

(** [transform] returns exactly when the rewriting does, and then hands
    back the rewritten statements followed by the auxiliary part, the
    signatures of the placeholders, and no part to reground. *)
Lemma transform_eq inputs :
  transform parse_program inputs =
  match rewrite_inputs parse_program inputs [] initial_state with
  | Ok (stms, st) =>
      Ok (stms ++ auxiliary_part (future_predicates st),
          map (fun kd => future_sig (fst kd)) (future_predicates st),
          [])
  | Raise e => Raise e
  end.
Proof.
  unfold transform.
  destruct (rewrite_inputs parse_program inputs [] initial_state)
    as [[stms st]|e]; [|reflexivity].
  simpl. destruct (future_predicates st) as [|kd reg] eqn:E.
  - simpl. now rewrite app_nil_r.
  - change (0 <? List.length (kd :: reg))%nat with true. cbv iota.
    rewrite add_future_rules_eq. simpl. unfold auxiliary_part.
    rewrite <- app_assoc. reflexivity.
Qed.

(** The block of one entry: three statements for a disjunctive key (the
    external declaration, one linking rule, the restoration rule), one
    otherwise. *)
Lemma future_rules_shape k disjunctive :
  map is_external (future_rules k disjunctive) =
    (if disjunctive then [true; false; false] else [false])
  /\ map is_rule (future_rules k disjunctive) =
    (if disjunctive then [false; true; true] else [true]).
Proof. destruct k as [[n a] s], disjunctive; split; reflexivity. Qed.

End Registry.

(** ** The policy on references to the past and to the future *)

Section FirstFailure.

Variable parse_program : string -> result (list statement).





End FirstFailure.

Section ExactErrors.

Variable parameter : symbol.







End ExactErrors.

Section TemporalReferences.

Variable parse_program : string -> result (list statement).


End TemporalReferences.



(** ** A head atom that looks ahead is registered *)

Section Registers.

Variable parameter : symbol.

Lemma registered_not_empty d d' : registered d d' -> d <> [] -> d' <> [].
Proof.
  induction 1 as [|d' k dj H IH]; intros Hd; [assumption|].
  apply register_not_empty.
Qed.

Lemma visit_Literal_registers name arguments external st l' st' :
  st_head st = true -> 0 < get_shift name ->
  visit_Literal parameter (atom_literal_of NoSign name arguments external) st =
  Ok (l', st') ->
  future_predicates st' <> [].
Proof.
  intros Hh Hs Hv. unfold visit_Literal, atom_literal_of in Hv.
  bind_inv Hv. injection Hm as <- <-.
  bind_inv Hv. injection Hm as <- <-.
  bind_inv Hv. bind_inv Hv. injection Hm0 as <- <-. injection Hv as <- <-.
  simpl in Hm.
  destruct (visit_SymbolicAtom_cases parameter name arguments external
              (set_head (st_head st && true) st)) as (_ & _ & _ & H4).
  rewrite H4 in Hm by (simpl; now rewrite ?Hh).
  injection Hm as <- <-. simpl. apply register_not_empty.
Qed.

Lemma mapM_registers {A B} (f : A -> M B) (x : A) :
  (forall y st z st', f y st = Ok (z, st') -> keeps st st') ->
  (forall st z st',
     st_head st = true -> f x st = Ok (z, st') -> future_predicates st' <> []) ->
  forall xs st ys st',
    In x xs -> st_head st = true -> mapM f xs st = Ok (ys, st') ->
    future_predicates st' <> [].
Proof.
  intros Hk Hx xs. induction xs as [|y xs IH]; intros st ys st' Hin Hh Hv; [easy|].
  simpl in Hv. bind_inv Hv. bind_inv Hv. injection Hv as <- <-.
  destruct Hin as [->|Hin].
  - apply (Hx _ _ _ Hh) in Hm.
    apply mapM_keeps in Hm0; [|intros; eapply Hk; eauto].
    destruct Hm0 as [(_ & _ & _ & _ & Hr) _].
    now apply (registered_not_empty _ _ Hr).
  - apply Hk in Hm. destruct Hm as [_ Hh']. apply (IH _ _ _ Hin) in Hm0; congruence.
Qed.

Lemma visit_head_registers h name arguments external st h' st' :
  In (atom_literal_of NoSign name arguments external) (head_literals h) ->
  0 < get_shift name -> st_head st = true ->
  visit_head parameter h st = Ok (h', st') ->
  future_predicates st' <> [].
Proof.
  intros Hin Hs Hh Hv. destruct h as [l|elements]; simpl in *.
  - destruct Hin as [->|[]]. bind_inv Hv. injection Hv as <- <-.
    eapply visit_Literal_registers; eauto.
  - bind_inv Hv. injection Hv as <- <-.
    apply in_map_iff in Hin. destruct Hin as ([l cond] & -> & Hin).
    eapply (mapM_registers (visit_ConditionalLiteral parameter)); eauto.
    + intros; eapply visit_ConditionalLiteral_keeps; eauto.
    + intros s z s' Hhs Hc. unfold visit_ConditionalLiteral in Hc.
      bind_inv Hc. bind_inv Hc. injection Hm1 as <- <-.
      bind_inv Hc. injection Hm1 as <- <-.
      bind_inv Hc. bind_inv Hc. injection Hm2 as <- <-. injection Hc as <- <-.
      apply (visit_Literal_registers _ _ _ _ _ _ Hhs Hs) in Hm0.
      apply mapM_keeps in Hm1; [|intros; eapply visit_Literal_keeps; eauto].
      destruct Hm1 as [(_ & _ & _ & _ & Hr) _]. simpl in Hr.
      simpl. now apply (registered_not_empty _ _ Hr).
Qed.

Lemma visit_registers h body name arguments external st r st' :
  In (atom_literal_of NoSign name arguments external) (head_literals h) ->
  0 < get_shift name ->
  visit parameter (Rule h body) st = Ok (r, st') ->
  future_predicates st' <> [].
Proof.
  intros Hin Hs Hv. unfold visit in Hv. bind_inv Hv. injection Hm as <- <-.
  set (b := if st_final st then Rule h (__append_final parameter body false)
            else Rule h body) in Hv.
  assert (exists body', b = Rule h body') as [body' Eb]
    by (unfold b; destruct (st_final st); eauto).
  rewrite Eb in Hv. clear b Eb. unfold visit_Rule in Hv.
  bind_inv Hv. injection Hm as <- <-.
  bind_inv Hv.
  apply (visit_head_registers h name arguments external) in Hm; auto.
  bind_inv Hv. injection Hm0 as <- <-.
  bind_inv Hv. apply visit_body_keeps in Hm0.
  destruct Hm0 as [(_ & _ & _ & _ & Hr) _]. simpl in Hr.
  apply (registered_not_empty _ _ Hr) in Hm.
  bind_inv Hv. injection Hm0 as <- <-.
  bind_inv Hv. bind_inv Hv. injection Hm1 as <- <-. injection Hv as <- <-.
  simpl.
  match goal with
  | Hc : _ = Ok (_, ?s2) |- future_predicates ?s2 <> [] =>
      apply record_constraint_registry in Hc; rewrite Hc
  end.
  assumption.
Qed.

End Registers.

Section RegisteredInputs.

Variable parse_program : string -> result (list statement).

Lemma visit_all_registers x stms :
  In x stms ->
  (forall st r st',
     visit time_parameter x st = Ok (r, st') -> future_predicates st' <> []) ->
  forall ret st ret' st',
    visit_all stms ret st = Ok (ret', st') -> future_predicates st' <> [].
Proof.
  intros Hin Hx. induction stms as [|s stms IH]; intros ret st ret' st' Hv; [easy|].
  simpl in Hv. bind_inv Hv. destruct Hin as [->|Hin].
  - apply Hx in Hm. apply visit_all_registry in Hv.
    now apply (registered_not_empty _ _ Hv).
  - eapply IH; eauto.
Qed.

(** A rule with a plain head atom that looks ahead, in an input that is
    rewritten, leaves the registry with an entry. *)
Lemma rewrite_inputs_registers x stms i inputs :
  In i inputs -> parse_program i = Ok stms -> In x stms ->
  (forall st r st',
     visit time_parameter x st = Ok (r, st') -> future_predicates st' <> []) ->
  forall ret st ret' st',
    rewrite_inputs parse_program inputs ret st = Ok (ret', st') ->
    future_predicates st' <> [].
Proof.
  intros Hin Hp Hx Hr. induction inputs as [|j inputs IH];
    intros ret st ret' st' Hv; [easy|].
  simpl in Hv. bind_inv Hv. apply lift_ok in Hm. destruct Hm as [Hj ->].
  bind_inv Hv. destruct Hin as [->|Hin].
  - rewrite Hp in Hj. injection Hj as <-.
    apply (visit_all_registers x stms Hx Hr) in Hm.
    apply rewrite_inputs_registry in Hv.
    now apply (registered_not_empty _ _ Hv).
  - eapply IH; eauto.
Qed.

End RegisteredInputs.

Section AuxiliaryRules.

Variable parse_program : string -> result (list statement).

Lemma synthesized_app r1 r2 :
  synthesized (r1 ++ r2) = synthesized r1 ++ synthesized r2.
Proof. unfold synthesized. apply flat_map_app. Qed.

(** C1, as the code has it: when [transform] returns, its statements are the
    rewritten input followed by the auxiliary part; every key of the registry
    is there once and contributes one block of statements to that part:
    three statements when its flag is [true] (an external declaration, one
    linking rule and the restoration rule, in this order), one statement (the
    restoration rule) when it is [false]. *)
Theorem auxiliary_rules_per_key inputs ret future_sigs reground_parts :
  transform parse_program inputs = Ok (ret, future_sigs, reground_parts) ->
  exists stms st,
    rewrite_inputs parse_program inputs [] initial_state = Ok (stms, st)
    /\ ret = stms ++ auxiliary_part (future_predicates st)
    /\ NoDup (map fst (future_predicates st))
    /\ forall k disjunctive,
         In (k, disjunctive) (future_predicates st) ->
         (exists before after,
            auxiliary_part (future_predicates st) =
            Program "static" [_time_parameter_name]
              :: before ++ future_rules k disjunctive ++ after)
         /\ List.length (future_rules k disjunctive) =
            (if disjunctive then 3 else 1)%nat
         /\ map is_external (future_rules k disjunctive) =
            (if disjunctive then [true; false; false] else [false])
         /\ map is_rule (future_rules k disjunctive) =
            (if disjunctive then [false; true; true] else [true]).
Proof.
  rewrite transform_eq.
  destruct (rewrite_inputs parse_program inputs [] initial_state)
    as [[stms st]|e] eqn:Er; [|discriminate].
  intros [= <- <- <-]. exists stms, st. repeat apply conj; try reflexivity.
  - apply rewrite_inputs_registry in Er.
    apply (registered_nodup _ _ Er). constructor.
  - intros k d Hin. repeat apply conj.
    + destruct (in_split _ _ Hin) as (r1 & r2 & E). rewrite E.
      exists (synthesized r1), (synthesized r2).
      replace (auxiliary_part (r1 ++ (k, d) :: r2))
        with (Program "static" [_time_parameter_name]
                :: synthesized (r1 ++ (k, d) :: r2))
        by (destruct r1; reflexivity).
      rewrite synthesized_app. reflexivity.
    + destruct k as [[n a] s], d; reflexivity.
    + apply future_rules_shape.
    + apply future_rules_shape.
Qed.

End AuxiliaryRules.

Lemma auxiliary_rules_per_key_witness :
  transform sample_parse ["a'' :- b."] =
    Ok ([Program "static" ["__t"];
         Rule (HeadLiteral
                 (atom_literal_of NoSign "__future_a"
                    [Symbol (Number 2);
                     BinaryOperation Plus (Symbol time_parameter)
                                     (Symbol (Number 2))] false))
              [BodyLiteral (atom_literal_of NoSign "b" [Symbol time_parameter] false)]]
        ++ Program "static" ["__t"] :: future_rules ("a", 0%nat, 2) false,
        [("__future_a", 2%nat)], [])
  /\ exists stms st,
       rewrite_inputs sample_parse ["a'' :- b."] [] initial_state = Ok (stms, st)
       /\ In (("a", 0%nat, 2), false) (future_predicates st).
Proof.
  split; [vm_compute; reflexivity|].
  destruct (auxiliary_rules_per_key sample_parse ["a'' :- b."] _ _ _ eq_refl)
    as (stms & st & Er & _).
  exists stms, st. split; [exact Er|].
  vm_compute in Er. injection Er as <- <-. left. reflexivity.
Defined.


(** C1 as it is worded fails: the rule [p'(X) ; q :- r.] registers
    [(p, 1, 1)] as disjunctive, and the block of that key has three
    statements, not four. *)
Lemma disjunctive_key_three_statements :
  exists stms st,
    rewrite_inputs sample_parse ["p'(X) ; q :- r."] [] initial_state = Ok (stms, st)
    /\ future_predicates st = [(("p", 1%nat, 1), true)]
    /\ transform sample_parse ["p'(X) ; q :- r."] =
       Ok (stms ++ Program "static" ["__t"] :: future_rules ("p", 1%nat, 1) true,
           [("__future_p", 3%nat)], [])
    /\ List.length (future_rules ("p", 1%nat, 1) true) <> 4%nat.
Proof.
  eexists. eexists. split; [vm_compute; reflexivity|].
  split; [reflexivity|]. split; [vm_compute; reflexivity|].
  vm_compute. discriminate.
Qed.

Section NoFuturePredicates.

Variable parse_program : string -> result (list statement).

(** C10: the registry is only ever registered into, starting from the empty
    one, and a rule of the input with a plain head atom of positive shift
    leaves an entry in it; when the rewriting leaves it empty, so when
    nothing was registered, [transform] hands back the rewritten statements
    and nothing more, with no future signature; and whatever the input, the
    list of parts to reground it returns is empty. *)
Theorem transform_without_future_predicates inputs :
  (forall stms st,
     rewrite_inputs parse_program inputs [] initial_state = Ok (stms, st) ->
     registered [] (future_predicates st))
  /\
  (forall stms st i stms_i h body name arguments external,
     rewrite_inputs parse_program inputs [] initial_state = Ok (stms, st) ->
     In i inputs -> parse_program i = Ok stms_i -> In (Rule h body) stms_i ->
     In (atom_literal_of NoSign name arguments external) (head_literals h) ->
     0 < get_shift name ->
     future_predicates st <> [])
  /\
  (forall stms st,
     rewrite_inputs parse_program inputs [] initial_state = Ok (stms, st) ->
     future_predicates st = [] ->
     transform parse_program inputs = Ok (stms, [], []))
  /\
  (forall ret future_sigs reground_parts,
     transform parse_program inputs = Ok (ret, future_sigs, reground_parts) ->
     reground_parts = []).
Proof.
  split; [|split; [|split]].
  - intros stms st Er.
    apply (rewrite_inputs_registry parse_program inputs [] initial_state stms st Er).
  - intros stms st i stms_i h body name arguments external Er Hi Hp Hr Hh Hs.
    apply (rewrite_inputs_registers parse_program (Rule h body) stms_i i inputs
             Hi Hp Hr) with (ret := []) (st := initial_state) (ret' := stms);
      [|exact Er].
    intros s r s'.
    now apply (visit_registers time_parameter h body name arguments external).
  - intros stms st Er E. rewrite transform_eq, Er, E. simpl.
    now rewrite app_nil_r.
  - intros ret sigs rg. rewrite transform_eq.
    destruct (rewrite_inputs parse_program inputs [] initial_state)
      as [[stms st]|e]; [|discriminate].
    now intros [= _ _ <-].
Qed.

End NoFuturePredicates.

Lemma transform_without_future_predicates_witness :
  transform sample_parse ["p :- q."] =
  Ok ([Program "static" ["__t"];
       Rule (HeadLiteral (atom_literal_of NoSign "p" [Symbol time_parameter] false))
            [BodyLiteral (atom_literal_of NoSign "q" [Symbol time_parameter] false)]],
      [], []).
Proof.
  destruct (transform_without_future_predicates sample_parse ["p :- q."])
    as (_ & _ & H & _).
  apply (H _ in_static); vm_compute; reflexivity.
Defined.

(** ** The parts to ground *)

Section Parts.

Lemma selected_due step root_name i :
  selected step root_name i = true <-> due root_name (step - i).
Proof.
  unfold selected, due.
  rewrite !orb_true_iff, !andb_true_iff, !String.eqb_eq.
  rewrite Z.geb_le, Z.gtb_lt, Z.eqb_eq. intuition lia.
Qed.

Lemma parts_of_range_eq step root_name part_name rng :
  forall parts,
    parts_of_range step root_name part_name rng parts =
    parts ++ flat_map (contribution step root_name part_name) rng.
Proof.
  induction rng as [|i rng IH]; intros parts; simpl.
  - now rewrite app_nil_r.
  - rewrite IH. unfold contribution at 2.
    destruct (selected step root_name i); simpl.
    + now rewrite <- app_assoc.
    + reflexivity.
Qed.

Lemma parts_of_eq step descriptors :
  forall parts,
    parts_of step descriptors parts =
    parts ++ flat_map (fun d => match d with
                                | (root_name, part_name, rng) =>
                                    flat_map (contribution step root_name part_name) rng
                                end) descriptors.
Proof.
  induction descriptors as [|[[r n] rng] ds IH]; intros parts; simpl.
  - now rewrite app_nil_r.
  - rewrite IH, parts_of_range_eq. now rewrite <- app_assoc.
Qed.

(** C7: at a step, the offset [i] of a descriptor (root, name, range) puts
    the pair (name, [step - i, step]) into the grounding request exactly when
    the root is static and [step - i >= 0], or dynamic and [step - i > 0], or
    initial and [step - i = 0]; the request is made of these pairs, in the
    order of the descriptors and of their ranges, and of nothing else. *)
Theorem grounding_request (step : Z) (program_parts : list part_descriptor)
    (prg : control) :
  let parts := parts_of step program_parts [] in
  In (ground parts) (prepare program_parts step prg)
  /\ (forall root_name part_name i,
        (due root_name (step - i) ->
         contribution step root_name part_name i = [(part_name, [step - i; step])])
        /\ (~ due root_name (step - i) ->
            contribution step root_name part_name i = []))
  /\ parts =
     flat_map (fun d => match d with
                        | (root_name, part_name, rng) =>
                            flat_map (contribution step root_name part_name) rng
                        end) program_parts
  /\ (forall root_name part_name rng i,
        In (root_name, part_name, rng) program_parts -> In i rng ->
        due root_name (step - i) ->
        In (part_name, [step - i; step]) parts)
  /\ (forall p,
        In p parts ->
        exists root_name part_name rng i,
          In (root_name, part_name, rng) program_parts /\ In i rng
          /\ due root_name (step - i) /\ p = (part_name, [step - i; step])).
Proof.
  intros parts.
  assert (parts =
          flat_map (fun d => match d with
                             | (root_name, part_name, rng) =>
                                 flat_map (contribution step root_name part_name) rng
                             end) program_parts) as E
    by (unfold parts; now rewrite parts_of_eq).
  split; [|split; [|split; [|split]]].
  - unfold prepare. fold parts. apply in_or_app. left.
    apply in_or_app. right. now left.
  - intros root_name part_name i. split; intros H; unfold contribution.
    + apply selected_due in H. now rewrite H.
    + destruct (selected step root_name i) eqn:S; [|reflexivity].
      now apply selected_due in S.
  - exact E.
  - intros r n rng i Hd Hi Hdue. rewrite E. apply in_flat_map.
    exists (r, n, rng). split; [assumption|]. apply in_flat_map.
    exists i. split; [assumption|].
    apply selected_due in Hdue. unfold contribution. rewrite Hdue. now left.
  - intros p Hp. rewrite E in Hp. apply in_flat_map in Hp.
    destruct Hp as ([[r n] rng] & Hd & Hp). apply in_flat_map in Hp.
    destruct Hp as (i & Hi & Hp). unfold contribution in Hp.
    destruct (selected step r i) eqn:S; [|contradiction].
    destruct Hp as [<-|[]]. exists r, n, rng, i.
    repeat split; auto. now apply selected_due.
Qed.

Lemma grounding_request_witness :
  In ("always", [2; 3])
     (parts_of 3 [("static", "always", [0; 1]); ("initial", "first", [0; 3])] [])
  /\ parts_of 3 [("static", "always", [0; 1]); ("initial", "first", [0; 3])] [] =
     [("always", [3; 3]); ("always", [2; 3]); ("first", [0; 3])].
Proof.
  split; [|reflexivity].
  destruct (grounding_request 3
              [("static", "always", [0; 1]); ("initial", "first", [0; 3])] [])
    as (_ & _ & _ & H & _).
  apply (H "static" "always" [0; 1] 1).
  - left. reflexivity.
  - right. left. reflexivity.
  - left. split; [reflexivity | vm_compute; discriminate].
Defined.

End Parts.

(** ** The assumptions *)

Section Assumptions.

Lemma assume_atoms_eq step atoms :
  forall acc assumptions,
    assume_atoms step atoms acc = Ok assumptions ->
    assumptions =
    acc ++ map (fun a => - atom_literal a) (filter (is_future step) atoms).
Proof.
  induction atoms as [|a atoms IH]; intros acc asm H; simpl in H.
  - injection H as <-. simpl. now rewrite app_nil_r.
  - simpl. unfold is_future at 1.
    destruct (time_of a) as [t|e] eqn:E; simpl in H; [|discriminate].
    apply IH in H. subst asm.
    destruct (t >? step); simpl; now rewrite <- ?app_assoc.
Qed.

Lemma assume_atoms_total step atoms :
  (forall a, In a atoms -> exists t, time_of a = Ok t) ->
  forall acc, exists assumptions, assume_atoms step atoms acc = Ok assumptions.
Proof.
  induction atoms as [|a atoms IH]; intros Ht acc; simpl.
  - now exists acc.
  - destruct (Ht a (or_introl eq_refl)) as [t ->]. simpl.
    apply IH. intros b Hb. apply Ht. now right.
Qed.

Lemma assume_sigs_eq step base sigs :
  forall acc assumptions,
    assume_sigs step base sigs acc = Ok assumptions ->
    assumptions =
    acc ++ map (fun a => - atom_literal a) (assumed_atoms step base sigs).
Proof.
  induction sigs as [|[name arity] sigs IH]; intros acc asm H; simpl in H.
  - injection H as <-. simpl. now rewrite app_nil_r.
  - destruct (assume_atoms step (by_signature base name arity) acc)
      as [asm'|e] eqn:E; simpl in H; [|discriminate].
    apply assume_atoms_eq in E. apply IH in H. subst asm asm'.
    unfold assumed_atoms. simpl. now rewrite map_app, <- app_assoc.
Qed.

(** When the atoms over the future signatures are timed, the assumptions can
    be built. *)
Lemma assume_sigs_total step base sigs :
  timed base sigs ->
  forall acc, exists assumptions, assume_sigs step base sigs acc = Ok assumptions.
Proof.
  induction sigs as [|[name arity] sigs IH]; intros Ht acc; simpl.
  - now exists acc.
  - destruct (assume_atoms_total step (by_signature base name arity)) with (acc := acc)
      as [asm' ->].
    + intros a Ha. apply (Ht name arity a); [now left | assumption].
    + simpl. apply IH. intros n ar a Hs Ha. apply (Ht n ar a); [now right | assumption].
Qed.

Lemma has_signature_unique n1 a1 n2 a2 a :
  has_signature n1 a1 a = true -> has_signature n2 a2 a = true ->
  (n1, a1) = (n2, a2).
Proof.
  unfold has_signature. destruct (atom_symbol a) as [k|n args]; [discriminate|].
  rewrite !andb_true_iff, !String.eqb_eq, !Nat.eqb_eq.
  intros [<- <-] [<- <-]. reflexivity.
Qed.

Lemma assumed_atoms_in step base sigs a :
  In a (assumed_atoms step base sigs) <->
  In a base
  /\ (exists name arity, In (name, arity) sigs /\ has_signature name arity a = true)
  /\ (exists t, time_of a = Ok t /\ t > step).
Proof.
  unfold assumed_atoms, by_signature. rewrite in_flat_map. split.
  - intros ([name arity] & Hs & Ha). simpl in Ha.
    apply filter_In in Ha. destruct Ha as [Ha Hf].
    apply filter_In in Ha. destruct Ha as [Ha Hsig].
    split; [assumption|]. split; [now exists name, arity|].
    unfold is_future in Hf. destruct (time_of a) as [t|e]; [|discriminate].
    exists t. split; [reflexivity | lia].
  - intros (Ha & (name & arity & Hs & Hsig) & (t & Ht & Hgt)).
    exists (name, arity). split; [assumption|]. simpl.
    apply filter_In. split; [apply filter_In; now split|].
    unfold is_future. rewrite Ht. lia.
Qed.

Lemma assumed_atoms_nodup step base sigs :
  NoDup sigs -> NoDup base -> NoDup (assumed_atoms step base sigs).
Proof.
  intros Hs Hb. induction sigs as [|[name arity] sigs IH].
  - constructor.
  - inversion Hs as [|? ? Hn Hs']; subst.
    change (assumed_atoms step base ((name, arity) :: sigs))
      with (filter (is_future step) (by_signature base name arity)
            ++ assumed_atoms step base sigs).
    apply NoDup_app.
    + apply NoDup_filter. now apply NoDup_filter.
    + now apply IH.
    + intros a Ha Ha'. apply filter_In in Ha. destruct Ha as [Ha _].
      apply filter_In in Ha. destruct Ha as [_ Hsig].
      apply assumed_atoms_in in Ha'.
      destruct Ha' as (_ & (n & ar & Hin & Hsig') & _).
      rewrite (has_signature_unique _ _ _ _ _ Hsig Hsig') in Hn. contradiction.
Qed.

End Assumptions.

(** ** The incremental loop *)

Section Loop.

Variable symbolic_atoms : control -> list symbolic_atom.
Variable solve_result : control -> list Z -> SolveResult.
Variable future_sigs : list signature.
Variable program_parts : list part_descriptor.
Variable imin : Z.
Variable imax : option Z.
Variable istop : string.

Local Notation "'loop'" :=
  (imain_loop symbolic_atoms solve_result future_sigs program_parts imin imax istop).
Local Notation "'runs'" := (run symbolic_atoms future_sigs program_parts).

Lemma prepare_eq step prg :
  prepare program_parts step prg = prg ++ pass_calls program_parts step.
Proof.
  unfold prepare, pass_calls. destruct (step >? 0); simpl.
  - now rewrite <- !app_assoc.
  - now rewrite <- app_assoc.
Qed.

(** Whatever the loop does within its fuel is a run. *)
Lemma imain_loop_run fuel :
  forall step ret prg out history,
    loop fuel step ret prg = (out, history) ->
    exists new, history = prg ++ new /\ runs step prg new.
Proof.
  induction fuel as [|fuel IH]; intros step ret prg out history H; simpl in H.
  - injection H as <- <-. exists []. split; [now rewrite app_nil_r | constructor].
  - destruct (loop_condition imin imax istop step ret) as [[|]|e].
    + rewrite prepare_eq in H.
      destruct (assume_sigs step _ future_sigs []) as [asm|e] eqn:Ea.
      * apply IH in H. destruct H as (new & -> & Hr).
        exists (pass_calls program_parts step ++ solve asm step :: new). split.
        -- rewrite <- !app_assoc. reflexivity.
        -- apply run_pass; [exact Ea|]. now rewrite <- app_assoc in Hr.
      * injection H as <- <-. eexists. split; [reflexivity|].
        eapply run_raise; eauto.
    + injection H as <- <-. exists []. split; [now rewrite app_nil_r | constructor].
    + injection H as <- <-. exists []. split; [now rewrite app_nil_r | constructor].
Qed.

Lemma pass_calls_no_solve step c :
  In c (pass_calls program_parts step) -> ~ is_solve c.
Proof.
  unfold pass_calls. destruct (step >? 0); simpl; intuition (subst; auto).
Qed.

(** Where an element with a property sits in [pre ++ x :: post] when nothing
    in [pre] has the property. *)
Lemma split_after {A} (P : A -> Prop) (pre : list A) x post :
  (forall z, In z pre -> ~ P z) ->
  forall l1 y l2,
    P y -> pre ++ x :: post = l1 ++ y :: l2 ->
    (l1 = pre /\ y = x /\ l2 = post)
    \/ (exists l1', l1 = pre ++ x :: l1' /\ post = l1' ++ y :: l2).
Proof.
  induction pre as [|p pre IH]; intros Hpre l1 y l2 Hy E.
  - destruct l1 as [|z l1]; simpl in E; injection E as -> ->.
    + now left.
    + right. now exists l1.
  - destruct l1 as [|z l1]; simpl in E; injection E as -> E.
    + exfalso. apply (Hpre y); [now left | assumption].
    + destruct (IH (fun z Hz => Hpre z (or_intror Hz)) l1 y l2 Hy E)
        as [(-> & -> & ->)|(l1' & -> & ->)].
      * now left.
      * right. now exists l1'.
Qed.

(** The assumptions of a [solve] call of a run are those built from the
    atom base as it is after the calls before it, and these end with the
    pass of the same step. *)
Lemma run_solve step prg new :
  runs step prg new ->
  forall l1 assumptions k l2,
    new = l1 ++ solve assumptions k :: l2 ->
    assume_sigs k (symbolic_atoms (prg ++ l1)) future_sigs [] = Ok assumptions
    /\ exists l0, l1 = l0 ++ pass_calls program_parts k.
Proof.
  induction 1 as [step prg|step prg e He|step prg asm new Ha Hr IH];
    intros l1 asm' k l2 E.
  - now destruct l1.
  - exfalso. apply (pass_calls_no_solve step (solve asm' k)); [|exact I].
    rewrite E. apply in_or_app. right. now left.
  - destruct (split_after is_solve _ _ _ (pass_calls_no_solve step)
                l1 (solve asm' k) l2 I E)
      as [(-> & [= -> ->] & ->)|(l1' & -> & E')].
    + split; [assumption | now exists []].
    + destruct (IH _ _ _ _ E') as (Hs & l0 & ->). split.
      * rewrite <- Hs. f_equal. f_equal.
        rewrite <- !app_assoc. reflexivity.
      * exists (pass_calls program_parts step ++ solve asm step :: l0).
        rewrite <- app_assoc. reflexivity.
Qed.

(** C6, as the code has it: the assumptions passed to [solve] at step [k],
    after the grounding of that step, are the negated literals of the atoms
    of the base that are over a future signature and have a last argument
    greater than [k], and of no other atom; they come signature by signature,
    so an atom has one assumption for each time its signature is listed, and
    exactly one when no signature is listed twice. *)
Theorem assumptions_of_solve fuel prg out history l1 assumptions k l2 :
  imain symbolic_atoms solve_result future_sigs program_parts imin imax istop
        fuel prg = (out, history) ->
  history = prg ++ l1 ++ solve assumptions k :: l2 ->
  let base := symbolic_atoms (prg ++ l1) in
  let assumed := assumed_atoms k base future_sigs in
  (exists l0, l1 = l0 ++ [ground (parts_of k program_parts []);
                          assign_external (__final k) true])
  /\ assumptions = map (fun a => - atom_literal a) assumed
  /\ (forall a,
        In a assumed <->
        In a base
        /\ (exists name arity,
              In (name, arity) future_sigs /\ has_signature name arity a = true)
        /\ (exists t, time_of a = Ok t /\ t > k))
  /\ (NoDup future_sigs -> NoDup base -> NoDup assumed).
Proof.
  intros Hrun Hh base assumed. unfold imain in Hrun.
  apply imain_loop_run in Hrun. destruct Hrun as (new & -> & Hr).
  apply app_inv_head in Hh. subst new.
  destruct (run_solve _ _ _ Hr _ _ _ _ eq_refl) as (Hs & l0 & ->).
  split; [|split; [|split]].
  - unfold pass_calls. exists (l0 ++ if k >? 0
                                   then [release_external (__final (k - 1)); cleanup]
                                   else []).
    now rewrite <- app_assoc.
  - apply assume_sigs_eq in Hs. exact Hs.
  - apply assumed_atoms_in.
  - apply assumed_atoms_nodup.
Qed.


Lemma pass_calls_steps step :
  solve_steps (pass_calls program_parts step) = []
  /\ asserted_steps (pass_calls program_parts step) = [step].
Proof. unfold pass_calls. destruct (step >? 0); split; reflexivity. Qed.

Lemma solve_steps_app l1 l2 :
  solve_steps (l1 ++ l2) = solve_steps l1 ++ solve_steps l2.
Proof. apply flat_map_app. Qed.

Lemma asserted_steps_app l1 l2 :
  asserted_steps (l1 ++ l2) = asserted_steps l1 ++ asserted_steps l2.
Proof. apply flat_map_app. Qed.

(** The passes of a run are numbered from its first step on, one by one. *)
Lemma run_steps step prg new :
  runs step prg new ->
  (exists n, solve_steps new = zseq step n)
  /\ (exists n, asserted_steps new = zseq step n).
Proof.
  induction 1 as [step prg|step prg e He|step prg asm new Ha Hr [[n IH1] [m IH2]]].
  - split; now exists 0%nat.
  - destruct (pass_calls_steps step) as [-> ->].
    split; [now exists 0%nat | now exists 1%nat].
  - rewrite solve_steps_app, asserted_steps_app.
    destruct (pass_calls_steps step) as [-> ->]. simpl.
    rewrite IH1, IH2. split; [now exists (S n) | now exists (S m)].
Qed.

Lemma pass_calls_assign step :
  pass_calls program_parts step =
  ((if step >? 0 then [release_external (__final (step - 1)); cleanup] else [])
   ++ [ground (parts_of step program_parts [])])
  ++ [assign_external (__final step) true].
Proof. unfold pass_calls. now rewrite <- app_assoc. Qed.

(** Before the marker of a step after the first is asserted, the marker of
    the step before has been released. *)
Lemma run_release step prg new :
  runs step prg new ->
  forall l1 k l2,
    new = l1 ++ assign_external (__final k) true :: l2 ->
    0 < k ->
    step <= k /\ In (release_external (__final (k - 1))) l1.
Proof.
  assert (forall step z,
            In z ((if step >? 0
                   then [release_external (__final (step - 1)); cleanup]
                   else []) ++ [ground (parts_of step program_parts [])]) ->
            ~ is_assign z) as Hpre.
  { intros s z. destruct (s >? 0); simpl; intuition (subst; auto). }
  assert (forall step k l1,
            0 < k -> k = step ->
            l1 = (if step >? 0
                  then [release_external (__final (step - 1)); cleanup]
                  else []) ++ [ground (parts_of step program_parts [])] ->
            step <= k /\ In (release_external (__final (k - 1))) l1) as Hhere.
  { intros s k l1 Hk -> ->. split; [lia|].
    destruct (Z.gtb_spec s 0); [now left | lia]. }
  induction 1 as [step prg|step prg e He|step prg asm new Ha Hr IH];
    intros l1 k l2 E Hk.
  - now destruct l1.
  - rewrite pass_calls_assign in E.
    replace ([assign_external (__final step) true])
      with (assign_external (__final step) true :: []) in E by reflexivity.
    destruct (split_after is_assign _ _ _ (Hpre step)
                l1 (assign_external (__final k) true) l2 I E)
      as [(-> & [= ->] & ->)|(l1' & -> & E')].
    + now apply Hhere.
    + now destruct l1'.
  - rewrite pass_calls_assign, <- app_assoc in E. simpl in E.
    destruct (split_after is_assign _ _ _ (Hpre step)
                l1 (assign_external (__final k) true) l2 I E)
      as [(-> & [= ->] & ->)|(l1' & -> & E')].
    + now apply Hhere.
    + destruct l1' as [|c l1']; [discriminate|].
      injection E' as <- E'. destruct (IH _ _ _ E' Hk) as [Hle Hin].
      split; [lia|]. apply in_or_app. right. right. now right.
Qed.

Lemma asserted_after_each_app (P : list Z -> Prop) l1 :
  forall asserted l2,
    Forall P (asserted_after_each asserted l1) ->
    Forall P (asserted_after_each (fold_left mark l1 asserted) l2) ->
    Forall P (asserted_after_each asserted (l1 ++ l2)).
Proof.
  induction l1 as [|c l1 IH]; intros asserted l2 H1 H2; simpl in *.
  - exact H2.
  - inversion H1; subst. constructor; [assumption|]. now apply IH.
Qed.

Lemma asserted_finals_app prg new :
  asserted_finals (prg ++ new) = fold_left mark new (asserted_finals prg).
Proof. unfold asserted_finals. apply fold_left_app. Qed.

(** One pass, entered with the marker of the step before as the only one
    asserted: at most one marker is asserted after each of its calls, and the
    marker of the step is the only one asserted at its end. *)
Lemma pass_markers step asserted :
  0 <= step ->
  asserted = (if step =? 0 then [] else [step - 1]) ->
  Forall (fun s => (List.length s <= 1)%nat)
         (asserted_after_each asserted (pass_calls program_parts step))
  /\ fold_left mark (pass_calls program_parts step) asserted = [step].
Proof.
  intros Hs ->. unfold pass_calls.
  destruct (Z.eqb_spec step 0) as [->|Hne].
  - simpl. split; [repeat constructor; simpl; lia | reflexivity].
  - destruct (Z.gtb_spec step 0); [|lia].
    simpl. rewrite Z.eqb_refl. simpl.
    split; [repeat constructor; simpl; lia | reflexivity].
Qed.

Lemma run_markers step prg new :
  runs step prg new ->
  0 <= step ->
  asserted_finals prg = (if step =? 0 then [] else [step - 1]) ->
  Forall (fun s => (List.length s <= 1)%nat)
         (asserted_after_each (asserted_finals prg) new).
Proof.
  induction 1 as [step prg|step prg e He|step prg asm new Ha Hr IH];
    intros Hs Hp.
  - simpl. constructor; [|constructor].
    rewrite Hp. destruct (step =? 0); simpl; lia.
  - now apply pass_markers.
  - destruct (pass_markers step _ Hs Hp) as [Hall Hend].
    apply asserted_after_each_app; [assumption|]. rewrite Hend.
    simpl. constructor; [simpl; lia|].
    assert (asserted_finals
              (prg ++ pass_calls program_parts step ++ [solve asm step]) =
            [step]) as E.
    { rewrite app_assoc, !asserted_finals_app. simpl. exact Hend. }
    rewrite E in IH. apply IH; [lia|].
    destruct (Z.eqb_spec (step + 1) 0); [lia | f_equal; lia].
Qed.

(** C9: in a run of the loop on a control with no marker asserted, the steps
    of the [solve] calls and of the markers asserted are 0, 1, 2, ... in this
    order; before [__final(k+1)] is asserted [__final(k)] has been released;
    and after each call of the run at most one marker is asserted. *)
Theorem finality_discipline fuel prg out history :
  asserted_finals prg = [] ->
  imain symbolic_atoms solve_result future_sigs program_parts imin imax istop
        fuel prg = (out, history) ->
  exists new,
    history = prg ++ new
    /\ (exists n, solve_steps new = zseq 0 n)
    /\ (exists n, asserted_steps new = zseq 0 n)
    /\ (forall l1 k l2,
          new = l1 ++ assign_external (__final (k + 1)) true :: l2 ->
          0 <= k ->
          In (release_external (__final k)) l1)
    /\ Forall (fun s => (List.length s <= 1)%nat)
              (asserted_after_each (asserted_finals prg) new).
Proof.
  intros Hp Hrun. unfold imain in Hrun.
  apply imain_loop_run in Hrun. destruct Hrun as (new & -> & Hr).
  exists new. split; [reflexivity|].
  destruct (run_steps _ _ _ Hr) as [H1 H2].
  split; [assumption|]. split; [assumption|]. split.
  - intros l1 k l2 E Hk.
    destruct (run_release _ _ _ Hr _ _ _ E) as [_ Hin]; [lia|].
    now replace (k + 1 - 1) with k in Hin by lia.
  - apply (run_markers _ _ _ Hr); [lia | exact Hp].
Qed.

End Loop.

(** ** The loop on the stand-in control *)

Lemma sample_run :
  imain sample_atoms sample_result [("__future_p", 2%nat)] [] 0 None "SAT"
        10 [] = (Returned, sample_history).
Proof. vm_compute. reflexivity. Qed.

Lemma sample_timed prg sigs : timed (sample_atoms prg) sigs.
Proof.
  intros name arity a _ Ha. unfold by_signature in Ha.
  apply filter_In in Ha. destruct Ha as [Ha _].
  destruct Ha as [<-|[<-|[<-|[]]]]; eexists; reflexivity.
Qed.

Lemma assumptions_of_solve_witness :
  [-6] = map (fun a => - atom_literal a)
             (assumed_atoms 1 (sample_atoms []) [("__future_p", 2%nat)])
  /\ NoDup (assumed_atoms 1 (sample_atoms []) [("__future_p", 2%nat)]).
Proof.
  destruct (assumptions_of_solve sample_atoms sample_result
              [("__future_p", 2%nat)] [] 0 None "SAT" 10 [] Returned
              sample_history
              [ground []; assign_external (__final 0) true; solve [-5; -6] 0;
               release_external (__final 0); cleanup;
               ground []; assign_external (__final 1) true]
              [-6] 1
              [release_external (__final 1); cleanup;
               ground []; assign_external (__final 2) true; solve [] 2]
              sample_run eq_refl)
    as (_ & Hasm & _ & Hnodup).
  split; [exact Hasm|].
  apply Hnodup.
  - repeat constructor. simpl. tauto.
  - repeat constructor; simpl; intuition discriminate.
Defined.

(** C6 as it is worded fails: the heads [p'] and [p''] give the signature
    [__future_p/2] twice, and with it twice the assumption of every atom over
    it: at step 0 the atom [__future_p(1,1)], whose literal is 5, is assumed
    false two times. *)
Lemma repeated_signature_repeats_assumptions :
  (exists stms,
     transform sample_parse ["p'. p''."] =
     Ok (stms, [("__future_p", 2%nat); ("__future_p", 2%nat)], []))
  /\ exists assumptions,
       imain sample_atoms sample_result
             [("__future_p", 2%nat); ("__future_p", 2%nat)] []
             0 (Some 1) "SAT" 10 [] =
       (Returned,
        [ground []; assign_external (__final 0) true; solve assumptions 0])
       /\ count_occ Z.eq_dec assumptions (- 5) = 2%nat.
Proof.
  split.
  - eexists. vm_compute. reflexivity.
  - exists [-5; -6; -5; -6]. split; vm_compute; reflexivity.
Qed.



Lemma finality_discipline_witness :
  exists new,
    sample_history = [] ++ new
    /\ (exists n, solve_steps new = zseq 0 n)
    /\ (exists n, asserted_steps new = zseq 0 n)
    /\ (forall l1 k l2,
          new = l1 ++ assign_external (__final (k + 1)) true :: l2 ->
          0 <= k ->
          In (release_external (__final k)) l1)
    /\ Forall (fun s => (List.length s <= 1)%nat)
              (asserted_after_each (asserted_finals []) new).
Proof.
  apply (finality_discipline sample_atoms sample_result [("__future_p", 2%nat)]
           [] 0 None "SAT" 10 [] Returned sample_history).
  - reflexivity.
  - exact sample_run.
Defined.

(** ** [Application.main] *)

Section Main.

Variable parse_program : string -> result (list statement).
Variable symbolic_atoms : control -> list symbolic_atom.
Variable solve_result : control -> list Z -> SolveResult.
Variable open_file : string -> result string.
Variable stdin : string.

(** C2: whatever the files, [main] raises before a call is made on the
    control, so before any grounding or solving: [transform] is called with
    two arguments and takes one, which is a [TypeError] as soon as the files
    could be opened; and what [transform] returns when called with its one
    argument is a tuple of three components, which cannot be unpacked into
    the two targets of the assignment. *)
Theorem main_always_raises imin imax istop fuel prg files :
  (exists e,
     main parse_program symbolic_atoms solve_result open_file stdin
          imin imax istop fuel prg files = (Raised e, prg))
  /\ (forall texts,
        rmap open_file files = Ok texts ->
        main parse_program symbolic_atoms solve_result open_file stdin
             imin imax istop fuel prg files =
        (Raised (TypeError "transform() takes exactly 1 argument"), prg))
  /\ (forall a b, exists e, call_transform parse_program [a; b] = Raise e)
  /\ (forall inputs r,
        call_transform parse_program [inputs] = Ok r ->
        (exists x y z, r = VTuple [x; y; z])
        /\ exists e, unpack2 r = Raise e).
Proof.
  assert (forall texts,
            rmap open_file files = Ok texts ->
            load parse_program open_file stdin files =
            Raise (TypeError "transform() takes exactly 1 argument")) as Hload.
  { intros texts E. unfold load. rewrite E. reflexivity. }
  split; [|split; [|split]].
  - unfold main. destruct (rmap open_file files) as [texts|e] eqn:E.
    + rewrite (Hload texts eq_refl). eauto.
    + unfold load. rewrite E. simpl. eauto.
  - intros texts E. unfold main. now rewrite (Hload texts E).
  - intros a b. eexists. reflexivity.
  - intros inputs r H. unfold call_transform in H.
    destruct inputs; try discriminate.
    destruct (transform parse_program texts) as [[[ret sigs] rg]|e];
      [|discriminate].
    simpl in H. injection H as <-. split; [eauto|].
    eexists. reflexivity.
Qed.

End Main.

(** [main] on a file system with the one file [prog.lp]. *)
Lemma main_always_raises_witness :
  main sample_parse sample_atoms sample_result
       (fun f => if String.eqb f "prog.lp" then Ok "p :- q."
                 else Raise (IOError "No such file or directory"))
       "" 0 None "SAT" 10 [] ["prog.lp"] =
  (Raised (TypeError "transform() takes exactly 1 argument"), []).
Proof.
  apply (main_always_raises sample_parse sample_atoms sample_result
           (fun f => if String.eqb f "prog.lp" then Ok "p :- q."
                     else Raise (IOError "No such file or directory"))
           "" 0 None "SAT" 10 [] ["prog.lp"])
    with (texts := ["p :- q."]).
  reflexivity.
Defined.

(** * Further properties *)

(** ** Names and their markers *)

Section Names.

Lemma rstrip_split (s : string) :
  exists T, s = (rstrip s ++ primes T)%string /\ last_is_prime (rstrip s) = false.
Proof.
  induction s as [|c s (T & E & Hl)].
  - now exists 0%nat.
  - simpl. destruct (rstrip s) as [|c' r] eqn:Er.
    + simpl in E. destruct (is_prime c) eqn:Ec.
      * exists (S T). split; [|reflexivity].
        unfold is_prime in Ec. apply Ascii.eqb_eq in Ec.
        simpl. congruence.
      * exists T. split; [simpl; congruence | simpl; exact Ec].
    + exists T. split; [simpl in *; congruence|].
      exact Hl.
Qed.

Lemma lstrip_split (s : string) :
  exists L, s = (primes L ++ lstrip s)%string /\ first_is_prime (lstrip s) = false.
Proof.
  induction s as [|c s (L & E & Hf)].
  - now exists 0%nat.
  - simpl. destruct (is_prime c) eqn:Ec.
    + exists (S L). split; [|exact Hf].
      unfold is_prime in Ec. apply Ascii.eqb_eq in Ec.
      simpl. congruence.
    + exists 0%nat. split; [reflexivity | simpl; exact Ec].
Qed.

Lemma last_is_prime_lstrip (s : string) :
  last_is_prime s = false -> last_is_prime (lstrip s) = false.
Proof.
  induction s as [|c s IH]; [reflexivity|].
  intros H. simpl. destruct (is_prime c) eqn:Ec; [|exact H].
  apply IH. destruct s as [|c' s']; [reflexivity | exact H].
Qed.

Lemma count_leading_all_primes (n : nat) (acc : Z) :
  count_leading (primes n) acc = acc - Z.of_nat n.
Proof.
  revert acc. induction n as [|n IH]; intros acc; [simpl; lia|].
  change (count_leading (primes n) (acc - 1) = acc - Z.of_nat (S n)).
  rewrite IH. lia.
Qed.

Lemma lstrip_all_primes (n : nat) : lstrip (primes n) = EmptyString.
Proof. induction n; [reflexivity | exact IHn]. Qed.

(** X1: every name is its stripped form between a run of leading and a run
    of trailing primes; the stripped form neither starts nor ends with a
    prime, and unless it is empty the shift is the number of trailing primes
    minus the number of leading ones. *)
Theorem name_decomposition (name : string) :
  exists L T,
    name = (primes L ++ strip name ++ primes T)%string
    /\ first_is_prime (strip name) = false
    /\ last_is_prime (strip name) = false
    /\ (strip name <> EmptyString -> get_shift name = Z.of_nat T - Z.of_nat L).
Proof.
  destruct (rstrip_split name) as (T & ET & Hl).
  destruct (lstrip_split (rstrip name)) as (L & EL & Hf).
  exists L, T. fold (strip name) in EL, Hf.
  assert (last_is_prime (strip name) = false) as Hl'
    by (now apply last_is_prime_lstrip).
  assert (name = (primes L ++ strip name ++ primes T)%string) as E.
  { rewrite ET at 1. rewrite EL at 1. apply append_assoc. }
  repeat split; try assumption.
  intros Hne.
  assert (core_name (strip name) = true) as Hc.
  { unfold core_name. rewrite Hf, Hl'.
    destruct (String.eqb_spec (strip name) ""); [contradiction | reflexivity]. }
  remember (strip name) as core eqn:Ecore.
  unfold get_shift, len. rewrite <- Ecore.
  rewrite E.
  rewrite count_leading_primes_app.
  - rewrite !length_append, !length_primes. lia.
  - destruct core; [contradiction | exact Hf].
Qed.

(** X2: a name made of primes only has the empty name as stripped form, and
    all its primes count as leading ones: its shift is minus their number. *)
Theorem shift_of_primes_only (n : nat) :
  strip (primes n) = EmptyString /\ get_shift (primes n) = - Z.of_nat n.
Proof.
  assert (strip (primes n) = EmptyString) as E.
  { unfold strip. now rewrite rstrip_primes. }
  split; [exact E|].
  unfold get_shift, len. rewrite E, count_leading_all_primes, length_primes.
  simpl. lia.
Qed.

End Names.

Lemma name_decomposition_witness :
  exists L T,
    "'p''" = (primes L ++ strip "'p''" ++ primes T)%string
    /\ get_shift "'p''" = Z.of_nat T - Z.of_nat L.
Proof.
  destruct (name_decomposition "'p''") as (L & T & E & _ & _ & H).
  exists L, T. split; [exact E|].
  apply H. vm_compute. discriminate.
Defined.

(** ** The rewriting of one atom *)

Section AtomRewriting.

Variable parameter : symbol.

Lemma get_param_zero name arity rf ff fp dj st :
  get_shift name = 0 ->
  __get_param parameter name arity rf ff fp dj st =
  Ok ((strip name, [Symbol parameter]), st).
Proof. intros H. unfold __get_param. now rewrite H. Qed.

(** X3: an atom whose markers cancel out (shift 0) is accepted wherever it
    stands: it gets the stripped name and the bare time parameter as an extra
    last argument, and the transformer state is left as it was. *)
Theorem zero_shift_atom name arguments external st :
  get_shift name = 0 ->
  visit_SymbolicAtom parameter (Function name arguments external) st =
  Ok (SymbolicAtom
        (Function (strip name) (arguments ++ [Symbol parameter]) external),
      st).
Proof.
  intros H. rewrite visit_SymbolicAtom_unfold.
  now rewrite (get_param_zero name _ _ _ _ _ st H).
Qed.

(** X4: whenever the rewriting of a function term succeeds, the term keeps
    its arguments and its external flag and gets one or two more arguments:
    the literal shift, only under future redirection of a positive shift
    (together with the placeholder name), and then the time argument, which
    is the bare parameter for shift 0 and [parameter + shift] otherwise. *)
Theorem rewritten_function_shape name arguments external rf ff fp dj st t' st' :
  visit_Function parameter name arguments external rf ff fp dj st = Ok (t', st') ->
  let shift := get_shift name in
  let redirected := rf && (0 <? shift) in
  t' = Function
         (if redirected then (_future_prefix ++ strip name)%string else strip name)
         (arguments
          ++ (if redirected then [Symbol (Number shift)] else [])
          ++ [time_argument parameter shift])
         external
  /\ (future_predicates st' <> future_predicates st -> redirected = true)
  /\ (st_max_shift st' <> st_max_shift st -> rf = false /\ 0 < shift).
Proof.
  intros Hv shift redirected. unfold visit_Function in Hv.
  bind_inv Hv. injection Hv as <- <-. revert Hm.
  unfold redirected, shift, time_argument, __get_param.
  destruct (Z.eqb_spec (get_shift name) 0) as [E|E].
  { intros [= <- <-]. rewrite E. rewrite andb_false_r. simpl.
    split; [reflexivity | split; intros Hneq; now contradiction Hneq]. }
  destruct (ff && (0 <? get_shift name)); [discriminate|].
  destruct (fp && (get_shift name <? 0)); [discriminate|].
  destruct (Z.ltb_spec 0 (get_shift name)) as [Hp|Hp]; [destruct rf|];
    unfold bind, modify, ret; simpl; intros [= <- <-];
    rewrite ?andb_false_r; simpl;
    (split; [reflexivity | split; intros Hneq;
             try (now contradiction Hneq); try reflexivity;
             try (split; [reflexivity | lia])]).
Qed.

(** X5: an atom that looks back is accepted in every position that is not a
    head position, constraint or not: it gets the stripped name and the time
    argument [parameter + shift] (with its negative shift), and neither the
    registry nor the recorded maximal shift changes. *)
Theorem past_atom_outside_head name arguments external st :
  st_head st = false -> get_shift name < 0 ->
  visit_SymbolicAtom parameter (Function name arguments external) st =
  Ok (SymbolicAtom
        (Function (strip name)
           (arguments ++
            [BinaryOperation Plus (Symbol parameter)
                             (Symbol (Number (get_shift name)))])
           external),
      st).
Proof.
  intros Hh Hs. rewrite visit_SymbolicAtom_unfold. rewrite Hh. simpl.
  unfold __get_param.
  destruct (Z.eqb_spec (get_shift name) 0); [lia|].
  destruct (Z.ltb_spec 0 (get_shift name)); [lia|].
  rewrite andb_false_r. simpl. reflexivity.
Qed.

End AtomRewriting.

Lemma rewritten_function_shape_witness :
  visit_Function (Fun "__t" []) "'q" [Variable_ "X"] false
                 false true false false in_static =
  Ok (Function "q"
        [Variable_ "X";
         BinaryOperation Plus (Symbol (Fun "__t" [])) (Symbol (Number (-1)))]
        false, in_static)
  /\ forall t' st',
       visit_Function (Fun "__t" []) "'q" [Variable_ "X"] false
                      false true false false in_static = Ok (t', st') ->
       t' = Function "q"
              [Variable_ "X";
               BinaryOperation Plus (Symbol (Fun "__t" [])) (Symbol (Number (-1)))]
              false.
Proof.
  split; [vm_compute; reflexivity|].
  intros t' st' H.
  apply (rewritten_function_shape (Fun "__t" []) "'q" [Variable_ "X"] false
           false true false false in_static t' st') in H.
  destruct H as [H _]. exact H.
Defined.

Lemma past_atom_outside_head_witness :
  visit_SymbolicAtom (Fun "__t" []) (Function "''q" [] false) in_static =
  Ok (SymbolicAtom
        (Function "q"
           [BinaryOperation Plus (Symbol (Fun "__t" [])) (Symbol (Number (-2)))]
           false),
      in_static).
Proof.
  apply (past_atom_outside_head (Fun "__t" []) "''q" [] false in_static).
  - reflexivity.
  - vm_compute. reflexivity.
Defined.

Lemma zero_shift_atom_witness :
  visit_SymbolicAtom (Fun "__t" []) (Function "'p'" [] false) in_static =
  Ok (SymbolicAtom (Function "p" [Symbol (Fun "__t" [])] false), in_static).
Proof.
  apply (zero_shift_atom (Fun "__t" []) "'p'" [] false in_static).
  vm_compute. reflexivity.
Defined.

(** ** The generic visitor *)

Section Generic.

Lemma generic_visit_spec (t : term) :
  generic_visit t =
  if has_str t then Raise (TypeError "unexpected type") else Ok t.
Proof.
  assert (forall args,
            Forall (fun t => generic_visit t =
                             if has_str t then Raise (TypeError "unexpected type")
                             else Ok t) args ->
            (fix go (ts : list term) : result (list term) :=
               match ts with
               | [] => Ok []
               | x :: xs => x' <- generic_visit x ;; xs' <- go xs ;; Ok (x' :: xs')
               end) args =
            if (fix any (ts : list term) : bool :=
                  match ts with
                  | [] => false
                  | x :: xs => has_str x || any xs
                  end) args
            then Raise (TypeError "unexpected type") else Ok args) as Hargs.
  { induction 1 as [|x xs Hx Hxs IH]; [reflexivity|].
    rewrite Hx. destruct (has_str x); [reflexivity|]. simpl.
    rewrite IH. now destruct ((fix any ts := match ts with
                                             | [] => false
                                             | x :: xs => has_str x || any xs
                                             end) xs). }
  induction t using term_induction; simpl; try reflexivity.
  - rewrite IHt. now destruct (has_str t).
  - rewrite IHt1, IHt2. now destruct (has_str t1), (has_str t2).
  - rewrite IHt1, IHt2. now destruct (has_str t1), (has_str t2).
  - rewrite (Hargs _ H). now destruct ((fix any ts := match ts with
                                                    | [] => false
                                                    | x :: xs => has_str x || any xs
                                                    end) args).
  - rewrite (Hargs _ H). now destruct ((fix any ts := match ts with
                                                    | [] => false
                                                    | x :: xs => has_str x || any xs
                                                    end) args).
Qed.

(** X6: the visitor without a specialised method hands a term back exactly
    as it was, and raises the "unexpected type" error exactly when something
    that is not a node sits somewhere in the term; so the rewriting leaves a
    comparison and the transformer state untouched. *)
Theorem generic_visit_identity :
  (forall t t', generic_visit t = Ok t' -> t' = t /\ has_str t = false)
  /\ (forall t, has_str t = true ->
                generic_visit t = Raise (TypeError "unexpected type"))
  /\ (forall parameter cmp l r st,
        has_str l = false -> has_str r = false ->
        visit_atom parameter (Comparison cmp l r) st = Ok (Comparison cmp l r, st)).
Proof.
  split; [|split].
  - intros t t'. rewrite generic_visit_spec.
    destruct (has_str t); [discriminate|]. now intros [= <-].
  - intros t H. now rewrite generic_visit_spec, H.
  - intros parameter cmp l r st Hl Hr. simpl.
    unfold bind, lift. rewrite !generic_visit_spec, Hl, Hr. reflexivity.
Qed.

End Generic.

Lemma generic_visit_identity_witness :
  generic_visit (Function "f" [Variable_ "X"; Str "X0"] false) =
  Raise (TypeError "unexpected type")
  /\ visit_atom time_parameter
       (Comparison LessThan (Variable_ "X") (Symbol (Number 3))) in_static =
     Ok (Comparison LessThan (Variable_ "X") (Symbol (Number 3)), in_static).
Proof.
  destruct generic_visit_identity as (_ & H2 & H3).
  split; [apply H2 | apply H3]; reflexivity.
Defined.

(** ** The registry during the rewriting *)

Section Effects.

Variable parameter : symbol.

Lemma registered_by_trans d1 d2 d3 :
  registered_by d1 d2 -> registered_by d2 d3 -> registered_by d1 d3.
Proof. intros H12 H23. induction H23; [assumption | now constructor]. Qed.

Lemma effect_refl st : effect st st.
Proof. split; [constructor | split; reflexivity]. Qed.

Lemma effect_trans st1 st2 st3 :
  effect st1 st2 -> st_constraint st2 = st_constraint st1 -> effect st2 st3 ->
  effect st1 st3.
Proof.
  intros (R1 & M1 & C1) Hc (R2 & M2 & C2). split; [|split].
  - eapply registered_by_trans; eauto.
  - intros H. rewrite M2 by congruence. auto.
  - congruence.
Qed.

Lemma effect_set_head_l b st st' : effect (set_head b st) st' -> effect st st'.
Proof. intros (R & M & C). split; [|split]; assumption. Qed.

Lemma effect_set_head_r b st st' : effect st st' -> effect st (set_head b st').
Proof. intros (R & M & C). split; [|split]; assumption. Qed.

Lemma get_param_effect name arity rf ff fp dj st np st' :
  __get_param parameter name arity rf ff fp dj st = Ok (np, st') ->
  registered_by (future_predicates st) (future_predicates st')
  /\ (rf = true \/ ff = true -> st_max_shift st' = st_max_shift st)
  /\ constraint_parts st' = constraint_parts st.
Proof.
  unfold __get_param.
  destruct (get_shift name =? 0).
  { intros [= <- <-]. split; [constructor | split; reflexivity]. }
  destruct (Z.ltb_spec 0 (get_shift name)) as [Hp|Hp].
  - destruct ff; [discriminate|]. simpl.
    destruct (fp && (get_shift name <? 0)); [discriminate|].
    destruct rf; unfold bind, modify, ret; simpl; intros [= <- <-]; simpl.
    + split; [|split; reflexivity]. constructor; [constructor | assumption].
    + split; [constructor|]. split; [|reflexivity]. intros [H|H]; discriminate.
  - rewrite andb_false_r.
    destruct (fp && (get_shift name <? 0)); [discriminate|].
    unfold bind, ret. intros [= <- <-].
    split; [constructor | split; reflexivity].
Qed.

Lemma term_visit_effect rf ff fp dj t :
  forall st t' st',
    term_visit parameter rf ff fp dj t st = Ok (t', st') ->
    registered_by (future_predicates st) (future_predicates st')
    /\ (rf = true \/ ff = true -> st_max_shift st' = st_max_shift st)
    /\ constraint_parts st' = constraint_parts st.
Proof.
  assert (forall st1 st2 st3,
            registered_by (future_predicates st1) (future_predicates st2)
            /\ (rf = true \/ ff = true -> st_max_shift st2 = st_max_shift st1)
            /\ constraint_parts st2 = constraint_parts st1 ->
            registered_by (future_predicates st2) (future_predicates st3)
            /\ (rf = true \/ ff = true -> st_max_shift st3 = st_max_shift st2)
            /\ constraint_parts st3 = constraint_parts st2 ->
            registered_by (future_predicates st1) (future_predicates st3)
            /\ (rf = true \/ ff = true -> st_max_shift st3 = st_max_shift st1)
            /\ constraint_parts st3 = constraint_parts st1)
    as Htrans.
  { intros st1 st2 st3 (R1 & M1 & C1) (R2 & M2 & C2). split; [|split].
    - eapply registered_by_trans; eauto.
    - intros H. rewrite M2, M1; auto.
    - congruence. }
  induction t using term_induction; intros st t' st' Hv; simpl in Hv.
  - discriminate.
  - injection Hv as <- <-. split; [constructor | split; reflexivity].
  - bind_inv Hv. injection Hv as <- <-. eauto.
  - bind_inv Hv. bind_inv Hv. injection Hv as <- <-. eauto.
  - bind_inv Hv. bind_inv Hv. injection Hv as <- <-. eauto.
  - unfold visit_Function in Hv. bind_inv Hv. injection Hv as <- <-.
    eapply get_param_effect; eauto.
  - bind_inv Hv. injection Hv as <- <-.
    match goal with
    | Hgo : _ st = Ok (?a, ?s) |- _ => revert st a s Hgo
    end.
    induction H as [|x xs Hx Hxs IH]; intros st a st' Hm.
    + injection Hm as <- <-. split; [constructor | split; reflexivity].
    + bind_inv Hm. bind_inv Hm. injection Hm as <- <-. eauto.
  - discriminate.
Qed.

Lemma visit_atom_effect a st a' st' :
  visit_atom parameter a st = Ok (a', st') -> effect st st'.
Proof.
  destruct a as [v|t|cmp l r]; simpl; intros Hv.
  - injection Hv as <- <-. apply effect_refl.
  - unfold visit_SymbolicAtom in Hv. bind_inv Hv.
    injection Hm as <- <-. bind_inv Hv. injection Hv as <- <-.
    apply term_visit_effect in Hm. destruct Hm as (R & M & C).
    split; [assumption|]. split; [|assumption]. intros Hc. apply M. rewrite Hc.
    destruct (st_head st); [now left | now right].
  - bind_inv Hv. bind_inv Hv. injection Hv as <- <-.
    apply lift_ok in Hm, Hm0. destruct Hm as [_ ->], Hm0 as [_ ->].
    apply effect_refl.
Qed.

Lemma visit_Literal_effect l st l' st' :
  visit_Literal parameter l st = Ok (l', st') -> effect st st'.
Proof.
  destruct l as [sign a]. unfold visit_Literal. intros Hv.
  bind_inv Hv. injection Hm as <- <-.
  bind_inv Hv. injection Hm as <- <-.
  bind_inv Hv. bind_inv Hv. injection Hm0 as <- <-. injection Hv as <- <-.
  apply visit_atom_effect in Hm.
  apply effect_set_head_r. eapply effect_set_head_l. exact Hm.
Qed.

Lemma mapM_effect {A B} (f : A -> M B) (xs : list A) :
  (forall x st y st', f x st = Ok (y, st') -> keeps st st') ->
  (forall x st y st', f x st = Ok (y, st') -> effect st st') ->
  forall st ys st', mapM f xs st = Ok (ys, st') -> effect st st'.
Proof.
  intros Hk He. induction xs as [|x xs IH]; intros st ys st' Hv; simpl in Hv.
  - injection Hv as <- <-. apply effect_refl.
  - bind_inv Hv. bind_inv Hv. injection Hv as <- <-.
    eapply effect_trans; [eapply He; eauto | | eapply IH; eauto].
    apply Hk in Hm. destruct Hm as [(_ & Hc & _) _]. exact Hc.
Qed.

Lemma visit_ConditionalLiteral_effect c st c' st' :
  visit_ConditionalLiteral parameter c st = Ok (c', st') -> effect st st'.
Proof.
  destruct c as [l cond]. unfold visit_ConditionalLiteral. intros Hv.
  bind_inv Hv. bind_inv Hv. injection Hm0 as <- <-.
  bind_inv Hv. injection Hm0 as <- <-.
  bind_inv Hv. bind_inv Hv. injection Hm1 as <- <-. injection Hv as <- <-.
  pose proof (visit_Literal_keeps _ _ _ _ _ Hm) as [(_ & Hc & _) _].
  apply visit_Literal_effect in Hm.
  apply (mapM_effect (visit_Literal parameter)) in Hm0;
    [| intros; eapply visit_Literal_keeps; eauto
     | intros; eapply visit_Literal_effect; eauto].
  apply effect_set_head_r.
  eapply effect_trans; [exact Hm | exact Hc |].
  eapply effect_set_head_l. exact Hm0.
Qed.

Lemma visit_body_effect body st body' st' :
  visit_body parameter body st = Ok (body', st') -> effect st st'.
Proof.
  apply mapM_effect.
  - intros; eapply visit_body_literal_keeps; eauto.
  - intros [l|c] s y s' Hv; simpl in Hv; bind_inv Hv; injection Hv as <- <-.
    + eapply visit_Literal_effect; eauto.
    + eapply visit_ConditionalLiteral_effect; eauto.
Qed.

Lemma visit_head_effect h st h' st' :
  visit_head parameter h st = Ok (h', st') -> effect st st'.
Proof.
  destruct h as [l|els]; simpl; intros Hv; bind_inv Hv; injection Hv as <- <-.
  - eapply visit_Literal_effect; eauto.
  - eapply mapM_effect; [| |eauto].
    + intros; eapply visit_ConditionalLiteral_keeps; eauto.
    + intros; eapply visit_ConditionalLiteral_effect; eauto.
Qed.

(** A statement: the registry is registered into, a rule always leaves the
    flags reset, and any other statement leaves reset flags reset. *)
Lemma visit_statement_effect x st x' st' :
  visit parameter x st = Ok (x', st') ->
  registered_by (future_predicates st) (future_predicates st')
  /\ (neutral st -> neutral st')
  /\ (is_rule x = true -> neutral st').
Proof.
  unfold visit. intros Hv. bind_inv Hv. injection Hm as <- <-.
  destruct x as [h body|name ps|a body|n ar p|n ar p].
  - assert (exists b, visit_Rule parameter h b st = Ok (x', st')) as [b Hr]
      by (destruct (st_final st); eauto).
    clear Hv. unfold visit_Rule in Hr.
    bind_inv Hr. injection Hm as <- <-.
    bind_inv Hr. apply visit_head_effect in Hm. destruct Hm as (R1 & _).
    bind_inv Hr. injection Hm as <- <-.
    bind_inv Hr. apply visit_body_effect in Hm. destruct Hm as (R2 & _).
    bind_inv Hr. injection Hm as <- <-.
    bind_inv Hr. bind_inv Hr. injection Hm0 as <- <-. injection Hr as <- <-.
    apply record_constraint_registry in Hm. simpl in *.
    assert (neutral (leave_rule st2)) as Hn by (repeat split).
    split; [|split; intros; exact Hn].
    rewrite Hm. eapply registered_by_trans; eauto.
  - assert (visit_Program parameter name ps st = Ok (x', st')) as Hp
      by (destruct (st_final st); exact Hv).
    clear Hv. unfold visit_Program in Hp. bind_inv Hp. bind_inv Hp.
    injection Hm0 as <- <-. injection Hp as <- <-.
    apply lift_ok in Hm. destruct Hm as [_ ->].
    split; [constructor|]. split; [|discriminate].
    intros (H1 & H2 & H3 & H4). repeat split; assumption.
  - assert (exists b,
              (a' <~ visit_atom parameter a ;;
               body' <~ visit_body parameter b ;;
               ret (External a' body')) st = Ok (x', st')) as [b He]
      by (destruct (st_final st); eauto).
    clear Hv. bind_inv He. bind_inv He. injection He as <- <-.
    pose proof (visit_atom_keeps _ _ _ _ _ Hm) as [(_ & C1 & D1 & _) H1].
    pose proof (visit_body_keeps _ _ _ _ _ Hm0) as [(_ & C2 & D2 & _) H2].
    apply visit_atom_effect in Hm. apply visit_body_effect in Hm0.
    destruct Hm as (R1 & M1 & _), Hm0 as (R2 & M2 & _).
    split; [eapply registered_by_trans; eauto|]. split; [|discriminate].
    intros (N1 & N2 & N3 & N4). repeat split; try congruence.
    rewrite M2, M1; congruence.
  - assert (x' = ShowSignature n (ar + 1) p /\ st' = st) as [-> ->]
      by (destruct (st_final st); now injection Hv as <- <-).
    split; [constructor|]. split; [auto | discriminate].
  - assert (x' = ProjectSignature n (ar + 1) p /\ st' = st) as [-> ->]
      by (destruct (st_final st); now injection Hv as <- <-).
    split; [constructor|]. split; [auto | discriminate].
Qed.

End Effects.

Section RegistryInvariants.

Lemma strip_clean (name : string) :
  first_is_prime (strip name) = false /\ last_is_prime (strip name) = false.
Proof.
  destruct (rstrip_split name) as (T & _ & Hl).
  destruct (lstrip_split (rstrip name)) as (L & _ & Hf).
  split; [exact Hf | now apply last_is_prime_lstrip].
Qed.

Lemma registered_by_registered d d' : registered_by d d' -> registered d d'.
Proof. induction 1; now constructor. Qed.

Lemma registered_by_clean d d' :
  registered_by d d' ->
  Forall clean_key (map fst d) -> Forall clean_key (map fst d').
Proof.
  induction 1 as [|d' name arity dj H IH Hs]; intros Hd; [assumption|].
  rewrite register_keys. destruct (dict_get key_eqb d' _); [auto|].
  apply Forall_app. split; [auto|]. constructor; [|constructor].
  destruct (strip_clean name) as [Hf Hl]. repeat split; assumption.
Qed.

Lemma dict_get_set_other {V} (d : list (key * V)) k k' v :
  key_eqb k' k = false ->
  dict_get key_eqb (dict_set key_eqb d k' v) k = dict_get key_eqb d k.
Proof.
  intros Hk. induction d as [|[k0 v0] d IH]; simpl.
  - now rewrite Hk.
  - destruct (key_eqb k0 k') eqn:E0; simpl.
    + apply key_eqb_eq in E0. subst k0. now rewrite Hk.
    + destruct (key_eqb k0 k); [reflexivity | exact IH].
Qed.

(** Registering keeps the keys that are there, and a flag that is [true]. *)
Lemma register_keeps k' disjunctive d k b :
  dict_get key_eqb d k = Some b ->
  exists b', dict_get key_eqb (register k' disjunctive d) k = Some b'
             /\ (b = true -> b' = true).
Proof.
  intros Hg. destruct (key_eqb k' k) eqn:E.
  - apply key_eqb_eq in E. subst k'. rewrite register_get, Hg.
    eexists. split; [reflexivity|]. intros ->. now destruct disjunctive.
  - exists b. split; [|auto]. unfold register, dict_setdefault.
    destruct disjunctive; [now rewrite dict_get_set_other|].
    destruct (dict_get key_eqb d k'); [assumption|].
    now rewrite dict_get_set_other.
Qed.

Lemma registered_keeps d d' k b :
  registered d d' ->
  dict_get key_eqb d k = Some b ->
  exists b', dict_get key_eqb d' k = Some b' /\ (b = true -> b' = true).
Proof.
  induction 1 as [|d' k' dj H IH]; intros Hg; [eauto|].
  destruct (IH Hg) as (b1 & Hg1 & Hb1).
  destruct (register_keeps k' dj d' k b1 Hg1) as (b2 & Hg2 & Hb2).
  exists b2. split; [assumption | auto].
Qed.

Variable parse_program : string -> result (list statement).

Lemma visit_all_effect stms :
  forall ret st ret' st',
    visit_all stms ret st = Ok (ret', st') ->
    registered_by (future_predicates st) (future_predicates st')
    /\ (neutral st -> neutral st').
Proof.
  induction stms as [|s stms IH]; intros ret st ret' st' Hv; simpl in Hv.
  - injection Hv as <- <-. split; [constructor | auto].
  - bind_inv Hv. apply visit_statement_effect in Hm.
    destruct Hm as (R1 & N1 & _). destruct (IH _ _ _ _ Hv) as [R2 N2].
    split; [eapply registered_by_trans; eauto | auto].
Qed.

Lemma rewrite_inputs_effect inputs :
  forall ret st ret' st',
    rewrite_inputs parse_program inputs ret st = Ok (ret', st') ->
    registered_by (future_predicates st) (future_predicates st')
    /\ (neutral st -> neutral st').
Proof.
  induction inputs as [|i inputs IH]; intros ret st ret' st' Hv; simpl in Hv.
  - injection Hv as <- <-. split; [constructor | auto].
  - bind_inv Hv. apply lift_ok in Hm. destruct Hm as [_ ->].
    bind_inv Hv. apply visit_all_effect in Hm.
    destruct Hm as [R1 N1]. destruct (IH _ _ _ _ Hv) as [R2 N2].
    split; [eapply registered_by_trans; eauto | auto].
Qed.

(** X7: after the rewriting of all inputs every key of the registry has a
    positive shift and a name that neither starts nor ends with a prime, no
    key is there twice, and the future signatures [transform] returns are
    those of the keys, in the order of the registry. *)
Theorem registry_invariant inputs ret future_sigs reground_parts :
  transform parse_program inputs = Ok (ret, future_sigs, reground_parts) ->
  exists stms st,
    rewrite_inputs parse_program inputs [] initial_state = Ok (stms, st)
    /\ Forall clean_key (map fst (future_predicates st))
    /\ NoDup (map fst (future_predicates st))
    /\ future_sigs = map future_sig (map fst (future_predicates st)).
Proof.
  rewrite transform_eq.
  destruct (rewrite_inputs parse_program inputs [] initial_state)
    as [[stms st]|e] eqn:Er; [|discriminate].
  intros [= <- <- <-]. exists stms, st.
  destruct (rewrite_inputs_effect _ _ _ _ _ Er) as [R _].
  split; [reflexivity|]. split; [|split].
  - apply (registered_by_clean _ _ R). constructor.
  - apply (registered_nodup _ _ (registered_by_registered _ _ R)). constructor.
  - now rewrite map_map.
Qed.

(** X8: a statement never takes a key out of the registry and never turns a
    flag that is [true] back to [false]; the same holds over the rewriting of
    any number of inputs. *)
Theorem registry_only_grows :
  (forall parameter x st x' st' k b,
     visit parameter x st = Ok (x', st') ->
     dict_get key_eqb (future_predicates st) k = Some b ->
     exists b',
       dict_get key_eqb (future_predicates st') k = Some b'
       /\ (b = true -> b' = true))
  /\
  (forall inputs ret st ret' st' k b,
     rewrite_inputs parse_program inputs ret st = Ok (ret', st') ->
     dict_get key_eqb (future_predicates st) k = Some b ->
     exists b',
       dict_get key_eqb (future_predicates st') k = Some b'
       /\ (b = true -> b' = true)).
Proof.
  split.
  - intros parameter x st x' st' k b Hv Hg.
    apply visit_registry in Hv. eapply registered_keeps; eauto.
  - intros inputs ret st ret' st' k b Hv Hg.
    apply rewrite_inputs_registry in Hv. eapply registered_keeps; eauto.
Qed.

(** X9: a rule leaves the head, constraint and disjunction flags cleared and
    the recorded maximal shift at 0 whatever they were; any other statement
    leaves them so when it finds them so; hence they are so after the
    rewriting of all inputs, and no statement sees the flags of another. *)
Theorem flags_reset_between_statements :
  (forall parameter x st x' st',
     visit parameter x st = Ok (x', st') ->
     (is_rule x = true -> neutral st') /\ (neutral st -> neutral st'))
  /\
  (forall inputs stms st,
     rewrite_inputs parse_program inputs [] initial_state = Ok (stms, st) ->
     neutral st).
Proof.
  split.
  - intros parameter x st x' st' Hv.
    apply visit_statement_effect in Hv. tauto.
  - intros inputs stms st Hv. apply rewrite_inputs_effect in Hv.
    apply Hv. repeat split.
Qed.

End RegistryInvariants.

Lemma registry_invariant_witness :
  exists stms st,
    rewrite_inputs sample_parse ["p'. p''."] [] initial_state = Ok (stms, st)
    /\ Forall clean_key (map fst (future_predicates st))
    /\ NoDup (map fst (future_predicates st))
    /\ [("__future_p", 2%nat); ("__future_p", 2%nat)] =
       map future_sig (map fst (future_predicates st)).
Proof.
  eapply (registry_invariant sample_parse ["p'. p''."]).
  vm_compute. reflexivity.
Defined.

Lemma registry_only_grows_witness :
  exists b',
    dict_get key_eqb
      (future_predicates
         (set_future_predicates
            (register ("p", 1%nat, 1) true [(("p", 1%nat, 1), true)]) in_static))
      ("p", 1%nat, 1) = Some b'
    /\ (true = true -> b' = true).
Proof.
  destruct (registry_only_grows sample_parse) as [H _].
  eapply (H time_parameter
            (Rule (HeadLiteral (atom_literal_of NoSign "p'" [Variable_ "X"] false)) [])
            (set_future_predicates [(("p", 1%nat, 1), true)] in_static)).
  - vm_compute. reflexivity.
  - reflexivity.
Defined.

Lemma flags_reset_between_statements_witness :
  neutral (leave_rule in_static).
Proof.
  destruct (flags_reset_between_statements sample_parse) as [H _].
  destruct (H time_parameter
              (Rule (HeadLiteral (plain "p")) [BodyLiteral (plain "q")])
              (set_head true in_static)
              (Rule (HeadLiteral (atom_literal_of NoSign "p" [Symbol time_parameter] false))
                    [BodyLiteral (atom_literal_of NoSign "q" [Symbol time_parameter] false)])
              (leave_rule in_static)) as [Hr _].
  - vm_compute. reflexivity.
  - apply Hr. reflexivity.
Defined.

(** ** The rewriting of statements *)

Section Statements.

Variable parameter : symbol.

Lemma mapM_length {A B} (f : A -> M B) (xs : list A) :
  forall st ys st', mapM f xs st = Ok (ys, st') -> List.length ys = List.length xs.
Proof.
  induction xs as [|x xs IH]; intros st ys st' Hv; simpl in Hv.
  - now injection Hv as <- <-.
  - bind_inv Hv. bind_inv Hv. injection Hv as <- <-. simpl.
    f_equal. eauto.
Qed.

Lemma mapM_snoc {A B} (f : A -> M B) (xs : list A) (x : A) :
  forall st ys st',
    mapM f (xs ++ [x]) st = Ok (ys, st') ->
    exists ys1 st1 y,
      mapM f xs st = Ok (ys1, st1) /\ f x st1 = Ok (y, st') /\ ys = ys1 ++ [y].
Proof.
  induction xs as [|x0 xs IH]; intros st ys st' Hv; simpl in Hv.
  - bind_inv Hv. injection Hv as <- <-. exists [], st, a. now split.
  - bind_inv Hv. bind_inv Hv. injection Hv as <- <-.
    destruct (IH _ _ _ Hm0) as (zs & s1 & z & H1 & H2 & ->).
    exists (a :: zs), s1, z. split; [|now split].
    simpl. rewrite (bind_step _ _ _ _ _ Hm), (bind_step _ _ _ _ _ H1).
    reflexivity.
Qed.

(** The guard of a final part, once visited, is the guard with the time
    parameter. *)
Lemma visit_final_literal st y st' :
  visit_body_literal parameter (final_literal parameter false) st = Ok (y, st') ->
  y = final_literal parameter true.
Proof.
  unfold final_literal. simpl. intros Hv.
  bind_inv Hv. injection Hv as <- <-.
  unfold visit_Literal in Hm.
  bind_inv Hm. injection Hm0 as <- <-.
  bind_inv Hm. injection Hm0 as <- <-.
  bind_inv Hm. bind_inv Hm. injection Hm as <- <-. injection Hm1 as <- <-.
  simpl in Hm0. rewrite visit_SymbolicAtom_unfold in Hm0.
  rewrite get_param_zero in Hm0 by (vm_compute; reflexivity).
  injection Hm0 as <- <-. reflexivity.
Qed.

(** X10: a program directive comes back named [static] when it was [base]
    or [final] and under its own name otherwise, so never as [base] or
    [final], with the name of the time parameter as one more parameter; the
    guard of final parts is switched on by [final] and off by any other
    directive, and the part is noted. *)
Theorem program_directive pname name ps st :
  symbol_name parameter = Ok pname ->
  visit parameter (Program name ps) st =
  Ok (Program (part_name name) (ps ++ [pname]),
      enter_program (String.eqb name "final") (part_name name) st)
  /\ part_name name <> "base" /\ part_name name <> "final".
Proof.
  intros Hn. split; [|split].
  - unfold visit. unfold bind at 1, get.
    replace (if st_final st then Program name ps else Program name ps)
      with (Program name ps) by (now destruct (st_final st)).
    unfold visit_Program, bind, lift, modify, ret. rewrite Hn. simpl.
    unfold part_name. now destruct (String.eqb name "final").
  - unfold part_name. destruct (String.eqb_spec name "final"); [discriminate|].
    destruct (String.eqb_spec name "base"); [discriminate | assumption].
  - unfold part_name. destruct (String.eqb_spec name "final"); [discriminate|].
    destruct (String.eqb_spec name "base"); [discriminate | assumption].
Qed.

Lemma visit_rule_shape h body st x' st' :
  visit parameter (Rule h body) st = Ok (x', st') ->
  exists h' body' guard,
    x' = Rule h' (body' ++ guard)
    /\ List.length body' = List.length body
    /\ (guard = [] \/ guard = [final_literal parameter true])
    /\ (st_final st = true ->
        guard = [final_literal parameter true]
        /\ constraint_parts st' = constraint_parts st).
Proof.
  unfold visit. intros Hv. bind_inv Hv. injection Hm as <- <-.
  destruct (st_final st) eqn:Hf; unfold visit_Rule in Hv.
  - bind_inv Hv. injection Hm as <- <-.
    bind_inv Hv. pose proof (visit_head_keeps _ _ _ _ _ Hm) as [(F1 & _) _].
    pose proof (visit_head_effect _ _ _ _ _ Hm) as (_ & _ & C1).
    bind_inv Hv. injection Hm0 as <- <-.
    bind_inv Hv. unfold visit_body, __append_final in Hm0.
    apply mapM_snoc in Hm0. destruct Hm0 as (b & s1 & y & Hb & Hy & ->).
    pose proof (visit_body_keeps _ _ _ _ _ Hb) as [(F2 & _) _].
    pose proof (visit_body_effect _ _ _ _ _ Hb) as (_ & _ & C2).
    pose proof (visit_body_literal_keeps _ _ _ _ _ Hy) as [(F3 & _) _].
    assert (constraint_parts st1 = constraint_parts s1) as C3.
    { destruct (visit_body_effect parameter [final_literal parameter false] s1
                  [y] st1) as (_ & _ & C3); [|exact C3].
      unfold visit_body. simpl. now rewrite (bind_step _ _ _ _ _ Hy). }
    apply visit_final_literal in Hy. subst y.
    apply mapM_length in Hb.
    bind_inv Hv. injection Hm0 as <- <-.
    simpl in F1, F2. rewrite F3, F2, F1, Hf, andb_false_r in Hv.
    bind_inv Hv. injection Hm0 as <- <-.
    bind_inv Hv. injection Hm0 as <- <-. injection Hv as <- <-.
    exists a, b, [final_literal parameter true].
    repeat split; auto. simpl in *. congruence.
  - bind_inv Hv. injection Hm as <- <-.
    bind_inv Hv. bind_inv Hv. injection Hm0 as <- <-.
    bind_inv Hv. apply mapM_length in Hm0.
    bind_inv Hv. injection Hm1 as <- <-.
    bind_inv Hv. bind_inv Hv. injection Hm2 as <- <-. injection Hv as <- <-.
    match goal with
    | Hc : (if ?c then _ else _) _ = Ok _ |- _ =>
        destruct c; rename Hc into Hcond
    end.
    + bind_inv Hcond. bind_inv Hcond. bind_inv Hcond. injection Hcond as <- <-.
      match goal with
      | |- exists h' body' guard, Rule ?h (__append_final _ ?b true) = _ /\ _ =>
          exists h, b, [final_literal parameter true]
      end.
      repeat split; auto; discriminate.
    + injection Hcond as <- <-.
      match goal with
      | |- exists h' body' guard, Rule ?h ?b = _ /\ _ => exists h, b, []
      end.
      rewrite app_nil_r. repeat split; auto; discriminate.
Qed.

(** X11: a rule comes back as a rule whose body has one literal for each
    literal it had, followed by at most one finality guard; in a final part
    the guard is always there and nothing is recorded for regrounding. *)
Theorem rule_body_and_guard h body st x' st' :
  visit parameter (Rule h body) st = Ok (x', st') ->
  exists h' body' guard,
    x' = Rule h' (body' ++ guard)
    /\ List.length body' = List.length body
    /\ (guard = [] \/ guard = [final_literal parameter true])
    /\ (st_final st = true ->
        guard = [final_literal parameter true]
        /\ constraint_parts st' = constraint_parts st).
Proof. apply visit_rule_shape. Qed.

Lemma visit_rewritten x st x' st' :
  visit parameter x st = Ok (x', st') -> rewritten x x'.
Proof.
  intros Hv. destruct x as [h body|name ps|a body|n ar p|n ar p].
  - apply visit_rule_shape in Hv.
    destruct Hv as (h' & body' & guard & -> & Hl & [-> | ->] & _); simpl;
      rewrite length_app, Hl; simpl; lia.
  - unfold visit in Hv. bind_inv Hv. injection Hm as <- <-.
    assert (visit_Program parameter name ps st = Ok (x', st')) as Hp
      by (destruct (st_final st); exact Hv).
    unfold visit_Program in Hp. bind_inv Hp. bind_inv Hp.
    injection Hp as <- <-. simpl. rewrite length_app. simpl.
    split; [|reflexivity]. unfold part_name.
    now destruct (String.eqb name "final").
  - unfold visit in Hv. bind_inv Hv. injection Hm as <- <-.
    destruct (st_final st);
      bind_inv Hv; bind_inv Hv; injection Hv as <- <-;
      apply mapM_length in Hm0; simpl; rewrite Hm0;
      unfold __append_final; rewrite ?length_app; simpl; lia.
  - unfold visit in Hv. bind_inv Hv. injection Hm as <- <-.
    destruct (st_final st); injection Hv as <- <-; simpl; auto.
  - unfold visit in Hv. bind_inv Hv. injection Hm as <- <-.
    destruct (st_final st); injection Hv as <- <-; simpl; auto.
Qed.

End Statements.

Lemma program_directive_witness :
  visit time_parameter (Program "final" []) in_static =
  Ok (Program "static" ["__t"], enter_program true "static" in_static).
Proof.
  apply (program_directive time_parameter "__t" "final" [] in_static).
  reflexivity.
Defined.

Lemma rule_body_and_guard_witness :
  exists h' body' guard,
    Rule (HeadLiteral (atom_literal_of NoSign "p" [Symbol time_parameter] false))
         [BodyLiteral (atom_literal_of NoSign "q" [Symbol time_parameter] false);
          final_literal time_parameter true] = Rule h' (body' ++ guard)
    /\ List.length body' = 1%nat
    /\ (guard = [] \/ guard = [final_literal time_parameter true])
    /\ (true = true ->
        guard = [final_literal time_parameter true]
        /\ @nil (part_key * list (statement * statement)) = []).
Proof.
  apply (rule_body_and_guard time_parameter (HeadLiteral (plain "p"))
           [BodyLiteral (plain "q")]
           (enter_program true "static" in_static) _
           (enter_program true "static" in_static)).
  vm_compute. reflexivity.
Defined.

Section Inputs.

Variable parse_program : string -> result (list statement).

Lemma visit_all_rewritten stms :
  forall ret st ret' st',
    visit_all stms ret st = Ok (ret', st') ->
    exists new, ret' = ret ++ new /\ Forall2 rewritten stms new.
Proof.
  induction stms as [|s stms IH]; intros ret st ret' st' Hv; simpl in Hv.
  - injection Hv as <- <-. exists []. split; [now rewrite app_nil_r | constructor].
  - bind_inv Hv. apply visit_rewritten in Hm.
    destruct (IH _ _ _ _ Hv) as (new & -> & Hn).
    exists (a :: new). split; [now rewrite <- app_assoc | now constructor].
Qed.

Lemma rewrite_inputs_rewritten inputs :
  forall ret st ret' st',
    rewrite_inputs parse_program inputs ret st = Ok (ret', st') ->
    exists parsed new,
      rmap parse_program inputs = Ok parsed
      /\ ret' = ret ++ new /\ Forall2 rewritten (concat parsed) new.
Proof.
  induction inputs as [|i inputs IH]; intros ret st ret' st' Hv; simpl in Hv.
  - injection Hv as <- <-. exists [], [].
    split; [reflexivity|]. split; [now rewrite app_nil_r | constructor].
  - bind_inv Hv. apply lift_ok in Hm. destruct Hm as [Hp ->].
    bind_inv Hv. apply visit_all_rewritten in Hm.
    destruct Hm as (new1 & -> & H1).
    destruct (IH _ _ _ _ Hv) as (parsed & new2 & Hr & -> & H2).
    exists (a :: parsed), (new1 ++ new2). split; [|split].
    + simpl. now rewrite Hp, Hr.
    + now rewrite app_assoc.
    + simpl. now apply Forall2_app.
Qed.

(** X12: when [transform] returns, every input could be parsed, and its
    statements start with one statement for each statement of the inputs, in
    their order and of the same kind (a rule for a rule, a signature with the
    same name and one more argument for a signature, ...); what follows is
    the auxiliary part.  No statement is dropped, added in between or moved. *)
Theorem statements_are_kept inputs ret future_sigs reground_parts :
  transform parse_program inputs = Ok (ret, future_sigs, reground_parts) ->
  exists parsed stms st,
    rmap parse_program inputs = Ok parsed
    /\ Forall2 rewritten (concat parsed) stms
    /\ ret = stms ++ auxiliary_part (future_predicates st).
Proof.
  rewrite transform_eq.
  destruct (rewrite_inputs parse_program inputs [] initial_state)
    as [[stms st]|e] eqn:Er; [|discriminate].
  intros [= <- <- <-].
  destruct (rewrite_inputs_rewritten _ _ _ _ _ Er) as (parsed & new & Hp & E & H).
  simpl in E. subst new. now exists parsed, stms, st.
Qed.

End Inputs.

Lemma statements_are_kept_witness :
  exists parsed stms st,
    rmap sample_parse ["a'' :- b."; "p :- q."] = Ok parsed
    /\ Forall2 rewritten (concat parsed) stms
    /\ fst (fst (match transform sample_parse ["a'' :- b."; "p :- q."] with
                 | Ok r => r
                 | Raise _ => ([], [], [])
                 end)) = stms ++ auxiliary_part (future_predicates st).
Proof.
  destruct (transform sample_parse ["a'' :- b."; "p :- q."])
    as [[[ret sigs] rg]|e] eqn:E; [|vm_compute in E; discriminate].
  apply (statements_are_kept sample_parse ["a'' :- b."; "p :- q."] ret sigs rg).
  exact E.
Defined.

(** ** Positions inside a rule *)

Section Positions.

Variable parameter : symbol.

(** X13: the condition of a conditional literal is a body position even
    when the literal stands in a head: an atom that looks back is accepted
    there (as principal literal of the head it would be refused), and an atom
    that looks ahead is refused there unless the rule is a constraint. *)
Theorem condition_is_body_position
    hname hargs hext csign cname cargs cext st :
  st_head st = true -> get_shift hname = 0 ->
  let c := ConditionalLiteral (atom_literal_of NoSign hname hargs hext)
                              [atom_literal_of csign cname cargs cext] in
  (get_shift cname < 0 ->
   exists st',
     visit_ConditionalLiteral parameter c st =
     Ok (ConditionalLiteral
           (atom_literal_of NoSign (strip hname) (hargs ++ [Symbol parameter]) hext)
           [atom_literal_of csign (strip cname)
              (cargs ++ [BinaryOperation Plus (Symbol parameter)
                                         (Symbol (Number (get_shift cname)))])
              cext],
         st')
     /\ st_head st' = true
     /\ future_predicates st' = future_predicates st)
  /\ (0 < get_shift cname -> st_constraint st = false ->
      visit_ConditionalLiteral parameter c st = Raise future_error).
Proof.
  intros Hh Hz c. unfold c, visit_ConditionalLiteral.
  assert (forall s,
            visit_Literal parameter (atom_literal_of NoSign hname hargs hext) s =
            Ok (atom_literal_of NoSign (strip hname) (hargs ++ [Symbol parameter]) hext,
                set_head (st_head s) (set_head (st_head s && true) s))) as Hprincipal.
  { intros s. unfold visit_Literal, atom_literal_of.
    cbv [bind get modify ret visit_atom]. cbn [sign_eqb].
    rewrite visit_SymbolicAtom_unfold.
    rewrite get_param_zero by assumption. reflexivity. }
  split.
  - intros Hs. rewrite (bind_step _ _ _ _ _ (Hprincipal st)).
    cbv [bind get modify ret mapM visit_Literal visit_atom atom_literal_of].
    cbn [st_head set_head andb].
    rewrite visit_SymbolicAtom_unfold. cbn [st_head set_head andb negb].
    unfold __get_param.
    destruct (Z.eqb_spec (get_shift cname) 0); [lia|].
    destruct (Z.ltb_spec 0 (get_shift cname)); [lia|].
    rewrite andb_false_r. cbn.
    eexists. split; [reflexivity|]. rewrite Hh. split; reflexivity.
  - intros Hs Hc. rewrite (bind_step _ _ _ _ _ (Hprincipal st)).
    cbv [bind get modify ret mapM visit_Literal visit_atom atom_literal_of].
    cbn [st_head set_head andb].
    destruct (visit_SymbolicAtom_cases parameter cname cargs cext
                (set_head false
                   (set_head false
                      (set_head (st_head st) (set_head (st_head st && true) st)))))
      as (H1 & _).
    rewrite H1; auto.
Qed.

End Positions.

Lemma condition_is_body_position_witness :
  (exists st',
     visit_ConditionalLiteral time_parameter
       (ConditionalLiteral (plain "p") [plain "'q"]) (set_head true in_static) =
     Ok (ConditionalLiteral
           (atom_literal_of NoSign "p" [Symbol time_parameter] false)
           [atom_literal_of NoSign "q"
              [BinaryOperation Plus (Symbol time_parameter) (Symbol (Number (-1)))]
              false],
         st')
     /\ st_head st' = true
     /\ future_predicates st' = [])
  /\ visit_ConditionalLiteral time_parameter
       (ConditionalLiteral (plain "p") [plain "q'"]) (set_head true in_static) =
     Raise future_error.
Proof.
  split.
  - apply (condition_is_body_position time_parameter "p" [] false NoSign "'q" []
             false (set_head true in_static) eq_refl eq_refl).
    vm_compute. reflexivity.
  - apply (condition_is_body_position time_parameter "p" [] false NoSign "q'" []
             false (set_head true in_static) eq_refl eq_refl).
    + vm_compute. reflexivity.
    + reflexivity.
Defined.

Section Constraints.

Variable parameter : symbol.

(** X14: a head literal with a sign makes its rule a constraint and is
    itself treated as a body literal: an atom in it that looks ahead is
    neither redirected to a placeholder nor registered, it gets the time
    argument [parameter + shift], and outside a final part the rule gets the
    finality guard; an atom in it that looks back is accepted. *)
Theorem signed_head_literal sign name arguments external st p pname :
  sign <> NoSign ->
  st_final st = false -> st_part st = Some p ->
  symbol_name parameter = Ok pname ->
  let x := Rule (HeadLiteral (atom_literal_of sign name arguments external)) [] in
  let head' :=
    HeadLiteral
      (atom_literal_of sign (strip name)
         (arguments ++ [BinaryOperation Plus (Symbol parameter)
                                        (Symbol (Number (get_shift name)))])
         external) in
  is_constraint x = true
  /\ (0 < get_shift name ->
      exists st',
        visit parameter x st = Ok (Rule head' [final_literal parameter true], st')
        /\ future_predicates st' = future_predicates st)
  /\ (get_shift name < 0 ->
      exists st',
        visit parameter x st = Ok (Rule head' [], st')
        /\ future_predicates st' = future_predicates st).
Proof.
  intros Hsign Hf Hp Hn x head'.
  assert (sign_eqb sign NoSign = false) as Es by (now destruct sign).
  assert (is_constraint x = true) as Hc.
  { unfold x, atom_literal_of. simpl. now rewrite Es. }
  split; [exact Hc|]. split; intros Hs.
  - unfold x, visit. unfold bind at 1, get. rewrite Hf.
    unfold visit_Rule. fold x. rewrite Hc.
    cbv [bind get modify ret visit_head visit_body mapM visit_Literal
         visit_atom atom_literal_of x].
    cbn [st_head enter_rule set_head andb]. rewrite Es. cbn [andb].
    match goal with
    | |- context [visit_SymbolicAtom parameter ?t ?s] =>
        destruct (visit_SymbolicAtom_cases parameter name arguments external s)
          as (_ & H2 & _);
        rewrite H2 by auto
    end.
    cbn [st_max_shift st_final set_head set_max_shift enter_rule].
    rewrite Hf.
    replace (0 <? Z.max 0 (get_shift name)) with true by lia.
    cbn [andb negb]. unfold get_part. cbv [bind get ret lift].
    cbn [st_part set_head set_max_shift enter_rule]. rewrite Hp, Hn.
    eexists. split; reflexivity.
  - unfold x, visit. unfold bind at 1, get. rewrite Hf.
    unfold visit_Rule. fold x. rewrite Hc.
    cbv [bind get modify ret visit_head visit_body mapM visit_Literal
         visit_atom atom_literal_of x].
    cbn [st_head enter_rule set_head andb]. rewrite Es. cbn [andb].
    rewrite visit_SymbolicAtom_unfold. cbn [st_head st_constraint set_head enter_rule andb negb].
    unfold __get_param.
    destruct (Z.eqb_spec (get_shift name) 0); [lia|].
    destruct (Z.ltb_spec 0 (get_shift name)); [lia|].
    cbn.
    eexists. split; reflexivity.
Qed.

(** X15: a constraint whose body is one atom that looks ahead, outside a
    final part, is recorded for regrounding under the key made of the part,
    the name of the time parameter and the shift, as the pair of the rule
    with its finality guard (the one handed back) and a copy without it. *)
Theorem future_constraint_is_recorded sign name arguments external st p pname :
  st_final st = false -> st_part st = Some p ->
  symbol_name parameter = Ok pname ->
  0 < get_shift name ->
  let body' :=
    [BodyLiteral
       (atom_literal_of sign (strip name)
          (arguments ++ [BinaryOperation Plus (Symbol parameter)
                                         (Symbol (Number (get_shift name)))])
          external)] in
  exists st',
    visit parameter
      (constraint_of [BodyLiteral (atom_literal_of sign name arguments external)])
      st =
    Ok (constraint_of (body' ++ [final_literal parameter true]), st')
    /\ constraint_parts st' =
       setdefault_append (constraint_parts st) (p, pname, get_shift name)
         (constraint_of (body' ++ [final_literal parameter true]),
          constraint_of body')
    /\ neutral st'.
Proof.
  intros Hf Hp Hn Hs body'.
  unfold visit, constraint_of. unfold bind at 1, get. rewrite Hf.
  unfold visit_Rule.
  cbv [bind get modify ret visit_head visit_body mapM visit_body_literal
       visit_Literal visit_atom atom_literal_of].
  cbn [st_head enter_rule set_head andb sign_eqb].
  match goal with
  | |- context [visit_SymbolicAtom parameter ?t ?s] =>
      destruct (visit_SymbolicAtom_cases parameter name arguments external s)
        as (_ & H2 & _);
      rewrite H2 by auto
  end.
  cbn [st_max_shift st_final set_head set_max_shift enter_rule].
  rewrite Hf.
  replace (Z.max 0 (get_shift name)) with (get_shift name) by lia.
  replace (0 <? get_shift name) with true by lia.
  cbn [andb negb]. unfold get_part. cbv [bind get ret lift].
  cbn [st_part set_head set_max_shift enter_rule]. rewrite Hp, Hn.
  eexists. split; [reflexivity|]. split; [reflexivity | repeat split].
Qed.

End Constraints.

Lemma signed_head_literal_witness :
  exists st',
    visit time_parameter
      (Rule (HeadLiteral (atom_literal_of Negation "p'" [] false)) []) in_static =
    Ok (Rule (HeadLiteral
                (atom_literal_of Negation "p"
                   [BinaryOperation Plus (Symbol time_parameter) (Symbol (Number 1))]
                   false))
             [final_literal time_parameter true], st')
    /\ future_predicates st' = [].
Proof.
  destruct (signed_head_literal time_parameter Negation "p'" [] false in_static
              "static" "__t" ltac:(discriminate) eq_refl eq_refl eq_refl)
    as (_ & H & _).
  apply H. vm_compute. reflexivity.
Defined.

Lemma future_constraint_is_recorded_witness :
  exists st',
    visit time_parameter (constraint_of [BodyLiteral (plain "q''")]) in_static =
    Ok (constraint_of
          ([BodyLiteral
              (atom_literal_of NoSign "q"
                 [BinaryOperation Plus (Symbol time_parameter) (Symbol (Number 2))]
                 false)] ++ [final_literal time_parameter true]), st')
    /\ constraint_parts st' =
       setdefault_append [] ("static", "__t", 2)
         (constraint_of
            ([BodyLiteral
                (atom_literal_of NoSign "q"
                   [BinaryOperation Plus (Symbol time_parameter) (Symbol (Number 2))]
                   false)] ++ [final_literal time_parameter true]),
          constraint_of
            [BodyLiteral
               (atom_literal_of NoSign "q"
                  [BinaryOperation Plus (Symbol time_parameter) (Symbol (Number 2))]
                  false)])
    /\ neutral st'.
Proof.
  apply (future_constraint_is_recorded time_parameter NoSign "q''" [] false
           in_static "static" "__t"); reflexivity.
Defined.

(** ** When the loop stops *)

Section Stopping.

Variable symbolic_atoms : control -> list symbolic_atom.
Variable solve_result : control -> list Z -> SolveResult.
Variable future_sigs : list signature.
Variable program_parts : list part_descriptor.
Variable imin : Z.
Variable imax : option Z.
Variable istop : string.

Local Notation "'loop'" :=
  (imain_loop symbolic_atoms solve_result future_sigs program_parts imin imax istop).
Local Notation "'trace'" :=
  (passes symbolic_atoms solve_result future_sigs program_parts imin imax istop).

Lemma imain_loop_passes fuel :
  forall step ret prg out history,
    loop fuel step ret prg = (out, history) ->
    exists new, history = prg ++ new /\ trace step ret prg out new.
Proof.
  induction fuel as [|fuel IH]; intros step ret prg out history H; simpl in H.
  - injection H as <- <-. exists []. split; [now rewrite app_nil_r | constructor].
  - destruct (loop_condition imin imax istop step ret) as [[|]|e] eqn:Ec.
    + rewrite prepare_eq in H.
      destruct (assume_sigs step _ future_sigs []) as [asm|e] eqn:Ea.
      * apply IH in H. destruct H as (new & -> & Hr).
        exists (pass_calls program_parts step ++ solve asm step :: new). split.
        -- rewrite <- !app_assoc. reflexivity.
        -- apply passes_more; [exact Ec | exact Ea|].
           now rewrite <- app_assoc in Hr.
      * injection H as <- <-. eexists. split; [reflexivity|].
        now apply passes_assumptions_raise.
    + injection H as <- <-. exists [].
      split; [now rewrite app_nil_r | now constructor].
    + injection H as <- <-. exists [].
      split; [now rewrite app_nil_r | now constructor].
Qed.

(** Every way the loop can end is reached with enough fuel. *)
Lemma passes_imain_loop step ret prg out new :
  trace step ret prg out new -> out <> OutOfFuel ->
  exists fuel, loop fuel step ret prg = (out, prg ++ new).
Proof.
  induction 1 as [step ret prg|step ret prg e He|step ret prg Hc
                 |step ret prg e Hc Ha|step ret prg asm out new Hc Ha Hr IH];
    intros Hout.
  - contradiction.
  - exists 1%nat. simpl. now rewrite He, app_nil_r.
  - exists 1%nat. simpl. now rewrite Hc, app_nil_r.
  - exists 1%nat. simpl. now rewrite Hc, prepare_eq, Ha.
  - destruct (IH Hout) as [fuel Hf]. exists (S fuel). simpl.
    rewrite Hc, prepare_eq, Ha. rewrite <- app_assoc. rewrite Hf.
    now rewrite <- !app_assoc.
Qed.

Lemma trace_solve_steps step ret prg out new :
  trace step ret prg out new ->
  exists n, solve_steps new = zseq step n.
Proof.
  induction 1 as [| | | |step ret prg asm out new Hc Ha Hr [n IH]];
    try (now exists 0%nat).
  - exists 0%nat. now destruct (pass_calls_steps program_parts step).
  - exists (S n). rewrite solve_steps_app.
    destruct (pass_calls_steps program_parts step) as [-> _]. simpl.
    now rewrite IH.
Qed.

Lemma loop_bound fuel m :
  imax = Some m ->
  forall step ret prg out history,
    loop fuel step ret prg = (out, history) ->
    exists new,
      history = prg ++ new
      /\ (List.length (solve_steps new) <= Z.to_nat (m - step))%nat
      /\ ((Z.to_nat (m - step) < fuel)%nat -> out <> OutOfFuel).
Proof.
  intros Hm. induction fuel as [|fuel IH]; intros step ret prg out history H;
    simpl in H.
  - injection H as <- <-. exists []. rewrite app_nil_r.
    split; [reflexivity|]. split; [simpl; lia | lia].
  - destruct (loop_condition imin imax istop step ret) as [[|]|e] eqn:Ec.
    + assert (step < m) as Hlt.
      { unfold loop_condition in Ec. rewrite Hm in Ec.
        destruct (Z.ltb_spec step m); [assumption | discriminate]. }
      rewrite prepare_eq in H.
      destruct (assume_sigs step _ future_sigs []) as [asm|e] eqn:Ea.
      * apply IH in H. destruct H as (new & -> & Hn & Hf).
        exists (pass_calls program_parts step ++ solve asm step :: new).
        split; [now rewrite <- !app_assoc|]. split.
        -- rewrite solve_steps_app.
           destruct (pass_calls_steps program_parts step) as [-> _].
           simpl. lia.
        -- intros Hfuel. apply Hf. lia.
      * injection H as <- <-. eexists. split; [reflexivity|].
        destruct (pass_calls_steps program_parts step) as [-> _].
        split; [simpl; lia | discriminate].
    + injection H as <- <-. exists []. rewrite app_nil_r.
      split; [reflexivity|]. split; [simpl; lia | discriminate].
    + injection H as <- <-. exists []. rewrite app_nil_r.
      split; [reflexivity|]. split; [simpl; lia | discriminate].
Qed.

(** X16: with a maximum [imax], the loop makes at most [imax] calls of
    [solve], and it is over after at most [imax] passes. *)
Theorem imax_bounds_passes m fuel prg out history :
  imax = Some m ->
  imain symbolic_atoms solve_result future_sigs program_parts imin imax istop
        fuel prg = (out, history) ->
  exists new,
    history = prg ++ new
    /\ (List.length (solve_steps new) <= Z.to_nat m)%nat
    /\ ((Z.to_nat m < fuel)%nat -> out <> OutOfFuel).
Proof.
  intros Hm H. unfold imain in H.
  destruct (loop_bound fuel m Hm _ _ _ _ _ H) as (new & E & Hn & Hf).
  exists new. rewrite Z.sub_0_r in Hn, Hf. auto.
Qed.

(** The condition does not raise in a run of [imain]: there is a result to
    ask as soon as the step is not 0. *)
Lemma loop_condition_defined step ret :
  (ret = None -> step = 0) -> exists b, loop_condition imin imax istop step ret = Ok b.
Proof.
  intros H. unfold loop_condition.
  destruct (match imax with None => true | Some m => step <? m end); [|eauto].
  destruct (Z.eqb_spec step 0) as [E|E]; [simpl; eauto|].
  destruct ret as [r|]; [|now specialize (H eq_refl)].
  simpl. destruct (step <? imin); [eauto|].
  destruct (String.eqb istop "SAT"); simpl;
    [destruct (negb (satisfiable r)); [eauto|]|];
    (destruct (String.eqb istop "UNSAT"); simpl;
     [destruct (negb (unsatisfiable r)); [eauto|]|];
     (destruct (String.eqb istop "UNKNOWN"); simpl; eauto)).
Qed.

Lemma condition_false_inv step r :
  imax = None ->
  loop_condition imin imax istop step (Some r) = Ok false ->
  step <> 0 /\ imin <= step /\ criterion_met istop r.
Proof.
  intros Hm. unfold loop_condition. rewrite Hm.
  destruct (Z.eqb_spec step 0); [discriminate|]. simpl.
  destruct (Z.ltb_spec step imin); [discriminate|].
  unfold criterion_met.
  destruct (String.eqb_spec istop "SAT") as [->|H1]; simpl.
  - destruct (satisfiable r); simpl; [|discriminate].
    intros _. repeat split; auto; discriminate.
  - destruct (String.eqb_spec istop "UNSAT") as [->|H2]; simpl.
    + destruct (unsatisfiable r); simpl; [|discriminate].
      intros _. repeat split; auto; discriminate.
    + destruct (String.eqb_spec istop "UNKNOWN") as [->|H3]; simpl.
      * destruct (unknown r); simpl; [|discriminate].
        intros _. repeat split; auto; discriminate.
      * intros _. repeat split; auto; intros; contradiction.
Qed.

(** How a run that returns ends: with the condition false, either at once
    or after a last [solve]. *)
Lemma trace_returned step ret prg out new :
  trace step ret prg out new -> out = Returned ->
  (new = [] /\ loop_condition imin imax istop step ret = Ok false)
  \/ (exists pre assumptions k,
        new = pre ++ [solve assumptions k] /\ step <= k
        /\ loop_condition imin imax istop (k + 1)
             (Some (solve_result (prg ++ pre) assumptions)) = Ok false).
Proof.
  induction 1 as [step ret prg|step ret prg e He|step ret prg Hc
                 |step ret prg e Hc Ha|step ret prg asm out new Hc Ha Hr IH];
    intros Hout; try discriminate.
  - left. now split.
  - right. destruct (IH Hout) as [[-> Hf]|(pre & asm' & k & -> & Hk & Hf)].
    + exists (pass_calls program_parts step), asm, step.
      split; [reflexivity|]. split; [lia | exact Hf].
    + exists (pass_calls program_parts step ++ solve asm step :: pre), asm', k.
      split; [now rewrite <- app_assoc|]. split; [lia|].
      rewrite <- Hf. do 3 f_equal. rewrite <- !app_assoc. reflexivity.
Qed.

(** X17: without a maximum, when the loop returns it has just called
    [solve], at a step [k] with [imin <= k + 1], so after at least [imin]
    passes and at least one, and the result of that call meets the stop
    criterion: satisfiable for SAT, unsatisfiable for UNSAT, unknown for
    UNKNOWN. *)
Theorem returns_when_criterion_met fuel prg history :
  imax = None ->
  imain symbolic_atoms solve_result future_sigs program_parts imin imax istop
        fuel prg = (Returned, history) ->
  exists pre assumptions k,
    history = prg ++ pre ++ [solve assumptions k]
    /\ 0 <= k /\ imin <= k + 1
    /\ solve_steps (pre ++ [solve assumptions k]) = zseq 0 (Z.to_nat (k + 1))
    /\ criterion_met istop (solve_result (prg ++ pre) assumptions).
Proof.
  intros Hm H. unfold imain in H. apply imain_loop_passes in H.
  destruct H as (new & -> & Ht).
  destruct (trace_returned _ _ _ _ _ Ht eq_refl)
    as [[-> Hf]|(pre & asm & k & -> & Hk & Hf)].
  - unfold loop_condition in Hf. rewrite Hm in Hf. discriminate.
  - exists pre, asm, k. apply (condition_false_inv _ _ Hm) in Hf.
    destruct Hf as (_ & Hmin & Hcrit).
    split; [reflexivity|]. split; [assumption|]. split; [assumption|].
    split; [|assumption].
    destruct (trace_solve_steps _ _ _ _ _ Ht) as [n Hn].
    rewrite Hn. f_equal.
    assert (forall s j, List.length (zseq s j) = j) as Hlen
      by (intros s j; revert s; induction j; intros s; simpl; auto).
    assert (forall s j, j <> 0%nat ->
                        last (zseq s j) 0 = s + Z.of_nat j - 1) as Hlast.
    { intros s j. revert s. induction j as [|j IHj]; intros s Hj; [contradiction|].
      destruct j as [|j]; [simpl; lia|].
      change (last (zseq (s + 1) (S j)) 0 = s + Z.of_nat (S (S j)) - 1).
      rewrite IHj by discriminate. lia. }
    assert (last (solve_steps (pre ++ [solve asm k])) 0 = k) as Hk'.
    { rewrite solve_steps_app. simpl. apply last_last. }
    rewrite Hn in Hk'. destruct n as [|n].
    + rewrite solve_steps_app in Hn. simpl in Hn.
      now destruct (solve_steps pre).
    + rewrite Hlast in Hk' by discriminate. lia.
Qed.

End Stopping.

(** ** When the loop raises *)

Section TimeArguments.

Lemma assume_atoms_raise step atoms :
  forall acc e,
    assume_atoms step atoms acc = Raise e ->
    exists a, In a atoms /\ time_of a = Raise e.
Proof.
  induction atoms as [|a atoms IH]; intros acc e H; simpl in H; [discriminate|].
  destruct (time_of a) as [t|e'] eqn:Et; simpl in H.
  - destruct (IH _ _ H) as (b & Hb & Hr). exists b. split; [now right | exact Hr].
  - injection H as <-. exists a. split; [now left | exact Et].
Qed.

Lemma assume_sigs_raise step base sigs :
  forall acc e,
    assume_sigs step base sigs acc = Raise e ->
    exists name arity a,
      In (name, arity) sigs /\ In a (by_signature base name arity)
      /\ time_of a = Raise e.
Proof.
  induction sigs as [|[name arity] sigs IH]; intros acc e H; simpl in H;
    [discriminate|].
  destruct (assume_atoms step (by_signature base name arity) acc)
    as [asm|e'] eqn:Ea; simpl in H.
  - destruct (IH _ _ H) as (n & ar & a & Hs & Ha & Hr).
    exists n, ar, a. split; [now right | now split].
  - injection H as <-. apply assume_atoms_raise in Ea.
    destruct Ea as (a & Ha & Hr). exists name, arity, a.
    split; [now left | now split].
Qed.

Lemma time_of_raise name arity a e :
  has_signature name arity a = true -> time_of a = Raise e ->
  (arity = 0%nat /\ e = IndexError "list index out of range")
  \/ (arity <> 0%nat /\ e = RuntimeError "unexpected").
Proof.
  unfold has_signature, time_of.
  destruct (atom_symbol a) as [k|n args]; [discriminate|].
  rewrite andb_true_iff, Nat.eqb_eq. intros [_ <-]. simpl.
  unfold last_item. destruct (rev args) as [|x xs] eqn:Er; simpl.
  - intros [= <-]. left. split; [|reflexivity].
    apply (f_equal (@List.length symbol)) in Er.
    now rewrite length_rev in Er.
  - destruct x; simpl; [discriminate|]. intros [= <-]. right.
    split; [|reflexivity]. intros E.
    apply length_zero_iff_nil in E. subst args. discriminate.
Qed.

Lemma assumptions_need_timed_atoms_aux step base sigs e :
  assume_sigs step base sigs [] = Raise e ->
  exists name arity a,
    In (name, arity) sigs /\ In a (by_signature base name arity)
    /\ time_of a = Raise e
    /\ ((arity = 0%nat /\ e = IndexError "list index out of range")
        \/ (arity <> 0%nat /\ e = RuntimeError "unexpected")).
Proof.
  intros H. apply assume_sigs_raise in H.
  destruct H as (name & arity & a & Hs & Ha & Hr).
  exists name, arity, a. repeat split; try assumption.
  apply (time_of_raise name arity a e); [|assumption].
  unfold by_signature in Ha. apply filter_In in Ha. tauto.
Qed.

(** X18: the assumptions of a step can be built exactly when every atom of
    the base over a future signature has a number as last argument; when
    they cannot, the exception is the one of the first such atom met: an
    index error for an atom without arguments (a signature of arity 0), the
    error of [number] for a last argument that is not a number. *)
Theorem assumptions_need_timed_atoms step base sigs :
  ((exists assumptions, assume_sigs step base sigs [] = Ok assumptions) <->
   timed base sigs)
  /\ (forall e,
        assume_sigs step base sigs [] = Raise e ->
        exists name arity a,
          In (name, arity) sigs /\ In a (by_signature base name arity)
          /\ time_of a = Raise e
          /\ ((arity = 0%nat /\ e = IndexError "list index out of range")
              \/ (arity <> 0%nat /\ e = RuntimeError "unexpected"))).
Proof.
  assert (forall sigs' acc asm,
            assume_sigs step base sigs' acc = Ok asm -> timed base sigs') as Hok.
  { induction sigs' as [|[n ar] sigs' IH]; intros acc asm H name arity a Hs Ha;
      [contradiction|].
    simpl in H.
    destruct (assume_atoms step (by_signature base n ar) acc) as [asm'|e] eqn:Ea;
      simpl in H; [|discriminate].
    destruct Hs as [[= -> ->]|Hs]; [|eapply IH; eauto].
    clear H IH. revert acc asm' Ea.
    induction (by_signature base name arity) as [|b atoms IHa]; intros acc asm' Ea;
      [contradiction|].
    simpl in Ea. destruct (time_of b) as [t|e] eqn:Et; simpl in Ea; [|discriminate].
    destruct Ha as [->|Ha]; [eauto | eapply IHa; eauto]. }
  split; [split|].
  - intros [asm H]. eapply Hok; eauto.
  - intros Ht. now apply assume_sigs_total.
  - intros e. apply assumptions_need_timed_atoms_aux.
Qed.

End TimeArguments.

Section Raising.

Variable symbolic_atoms : control -> list symbolic_atom.
Variable solve_result : control -> list Z -> SolveResult.
Variable raises : control -> call -> option exn.
Variable future_sigs : list signature.
Variable program_parts : list part_descriptor.
Variable imin : Z.
Variable imax : option Z.
Variable istop : string.

Lemma perform_none calls :
  forall prg prg',
    Raising.perform raises calls prg = (None, prg') -> prg' = prg ++ calls.
Proof.
  induction calls as [|c calls IH]; intros prg prg' H; simpl in H.
  - injection H as <-. now rewrite app_nil_r.
  - destruct (raises prg c); [discriminate|].
    rewrite (IH _ _ H), <- app_assoc. reflexivity.
Qed.

Lemma perform_some calls :
  forall prg e prg',
    Raising.perform raises calls prg = (Some e, prg') ->
    exists pre c post,
      calls = pre ++ c :: post
      /\ prg' = prg ++ pre ++ [c] /\ raises (prg ++ pre) c = Some e.
Proof.
  induction calls as [|c calls IH]; intros prg e prg' H; simpl in H;
    [discriminate|].
  destruct (raises prg c) as [e'|] eqn:Ec.
  - injection H as <- <-. exists [], c, calls. rewrite app_nil_r. auto.
  - destruct (IH _ _ _ H) as (pre & c' & post & -> & -> & Hr).
    exists (c :: pre), c', post. rewrite <- app_assoc in Hr.
    rewrite <- !app_assoc. auto.
Qed.

(** When no call raises, the loop is the one of [Telingo]. *)
Lemma imain_loop_returning fuel :
  (forall prg c, raises prg c = None) ->
  forall step ret prg,
    Raising.imain_loop symbolic_atoms solve_result raises future_sigs
      program_parts imin imax istop fuel step ret prg =
    imain_loop symbolic_atoms solve_result future_sigs program_parts
      imin imax istop fuel step ret prg.
Proof.
  intros Hr. induction fuel as [|fuel IH]; intros step ret prg; [reflexivity|].
  assert (forall calls p, Raising.perform raises calls p = (None, p ++ calls))
    as Hp.
  { induction calls as [|c calls IHc]; intros p; simpl.
    - now rewrite app_nil_r.
    - rewrite Hr, IHc, <- app_assoc. reflexivity. }
  simpl. destruct (loop_condition imin imax istop step ret) as [[|]|e];
    try reflexivity.
  rewrite Hp.
  replace (prg ++ (if step >? 0
                   then [release_external (__final (step - 1)); cleanup]
                   else [])
               ++ [ground (parts_of step program_parts []);
                   assign_external (__final step) true])
    with (prepare program_parts step prg)
    by (unfold prepare; destruct (step >? 0); now rewrite <- !app_assoc).
  destruct (assume_sigs step _ future_sigs []) as [asm|e]; [|reflexivity].
  rewrite Hr. apply IH.
Qed.

Lemma loop_raised fuel :
  forall step ret prg e history,
    (ret = None -> step = 0) ->
    Raising.imain_loop symbolic_atoms solve_result raises future_sigs
      program_parts imin imax istop fuel step ret prg = (Raised e, history) ->
    (exists pre c,
       history = prg ++ pre ++ [c] /\ raises (prg ++ pre) c = Some e)
    \/ (exists pre k,
          history = prg ++ pre ++ pass_calls program_parts k
          /\ assume_sigs k (symbolic_atoms history) future_sigs [] = Raise e).
Proof.
  induction fuel as [|fuel IH]; intros step ret prg e history Hret H;
    [discriminate|].
  simpl in H.
  destruct (loop_condition_defined imin imax istop step ret Hret) as [b Hb].
  rewrite Hb in H. destruct b; [|discriminate].
  change ((if step >? 0
           then [release_external (__final (step - 1)); cleanup]
           else [])
          ++ [ground (parts_of step program_parts []);
              assign_external (__final step) true])
    with (pass_calls program_parts step) in H.
  destruct (Raising.perform raises (pass_calls program_parts step) prg)
    as [[e1|] prg1] eqn:Ep.
  - injection H as <- <-.
    destruct (perform_some _ _ _ _ Ep) as (pre & c & post & _ & -> & Hr).
    left. now exists pre, c.
  - apply perform_none in Ep. subst prg1.
    destruct (assume_sigs step _ future_sigs []) as [asm|e1] eqn:Ea.
    + simpl in H.
      destruct (raises (prg ++ pass_calls program_parts step) (solve asm step))
        as [e2|] eqn:Es.
      * injection H as <- <-. left.
        exists (pass_calls program_parts step), (solve asm step).
        split; [now rewrite <- app_assoc | exact Es].
      * apply IH in H; [|discriminate].
        destruct H as [(pre & c & -> & Hr)|(pre & k & -> & Hk)].
        -- left.
           exists (pass_calls program_parts step ++ solve asm step :: pre), c.
           split; [now rewrite <- !app_assoc|].
           rewrite <- Hr; f_equal; now rewrite <- !app_assoc.
        -- right.
           exists (pass_calls program_parts step ++ solve asm step :: pre), k.
           split; [now rewrite <- !app_assoc|].
           rewrite <- Hk; do 2 f_equal; now rewrite <- !app_assoc.
    + injection H as <- <-. right. exists [], step. now split.
Qed.

(** X19: the loop raises only what a call on the control object raised
    (that call is the last one made; for [solve] this includes what the model
    callback raised), or what reading the time of an atom over a future
    signature raised while the assumptions of a pass were built, after the
    assertion of the marker.  The loop condition never raises: it asks the
    last result only once there is one. *)
Theorem loop_raises_from_calls_or_untimed_atoms fuel prg e history :
  Raising.imain symbolic_atoms solve_result raises future_sigs program_parts
    imin imax istop fuel prg = (Raised e, history) ->
  (exists pre c,
     history = prg ++ pre ++ [c] /\ raises (prg ++ pre) c = Some e)
  \/ (exists pre k name arity a,
        history = prg ++ pre ++ pass_calls program_parts k
        /\ In (name, arity) future_sigs
        /\ In a (by_signature (symbolic_atoms history) name arity)
        /\ time_of a = Raise e
        /\ ((arity = 0%nat /\ e = IndexError "list index out of range")
            \/ (arity <> 0%nat /\ e = RuntimeError "unexpected"))).
Proof.
  intros H. unfold Raising.imain in H.
  apply loop_raised in H; [|reflexivity].
  destruct H as [H|(pre & k & -> & Hk)]; [now left | right].
  destruct (assumptions_need_timed_atoms_aux _ _ _ _ Hk)
    as (name & arity & a & Hs & Ha & Hr & Hkind).
  exists pre, k, name, arity, a. repeat split; assumption.
Qed.

End Raising.

(** ** Why the loop goes on *)

Section GoingOn.

Variable symbolic_atoms : control -> list symbolic_atom.
Variable solve_result : control -> list Z -> SolveResult.
Variable future_sigs : list signature.
Variable program_parts : list part_descriptor.
Variable imin : Z.
Variable imax : option Z.
Variable istop : string.

Local Notation "'trace'" :=
  (passes symbolic_atoms solve_result future_sigs program_parts imin imax istop).

Lemma trace_started step ret prg out new :
  trace step ret prg out new -> new <> [] ->
  loop_condition imin imax istop step ret = Ok true.
Proof. intros H Hn. destruct H; try contradiction; assumption. Qed.

Lemma trace_continues step ret prg out new :
  trace step ret prg out new ->
  forall l1 assumptions j l2,
    new = l1 ++ solve assumptions j :: l2 -> l2 <> [] ->
    step <= j
    /\ loop_condition imin imax istop (j + 1)
         (Some (solve_result (prg ++ l1) assumptions)) = Ok true.
Proof.
  induction 1 as [step ret prg|step ret prg e He|step ret prg Hc
                 |step ret prg e Hc Ha|step ret prg asm out new Hc Ha Hr IH];
    intros l1 asm' j l2 E Hl2; try (now destruct l1).
  - exfalso. apply (pass_calls_no_solve program_parts step (solve asm' j)); [|exact I].
    rewrite E. apply in_or_app. right. now left.
  - destruct (split_after is_solve _ _ _ (pass_calls_no_solve program_parts step)
                l1 (solve asm' j) l2 I E)
      as [(-> & [= -> ->] & ->)|(l1' & -> & E')].
    + split; [lia|]. now apply (trace_started _ _ _ _ _ Hr).
    + destruct (IH _ _ _ _ E' Hl2) as [Hj Hcond]. split; [lia|].
      rewrite <- Hcond. do 3 f_equal. rewrite <- !app_assoc. reflexivity.
Qed.

Lemma condition_true_inv step r :
  step <> 0 ->
  loop_condition imin imax istop step (Some r) = Ok true ->
  (forall m, imax = Some m -> step < m)
  /\ (step < imin \/ criterion_unmet istop r).
Proof.
  intros Hs. unfold loop_condition.
  assert (forall m, (step <? m) = true -> step < m) as Hlt by (intros; lia).
  destruct imax as [m|].
  - destruct (step <? m) eqn:Em; [|discriminate].
    intros H. split; [intros m' [= <-]; auto|]. revert H.
    destruct (Z.eqb_spec step 0); [contradiction|]. simpl.
    destruct (Z.ltb_spec step imin); [now left|]. right. revert H.
    unfold criterion_unmet.
    destruct (String.eqb_spec istop "SAT") as [->|H1]; simpl.
    { destruct (satisfiable r); simpl; [discriminate | now left]. }
    destruct (String.eqb_spec istop "UNSAT") as [->|H2]; simpl.
    { destruct (unsatisfiable r); simpl; [discriminate | right; now left]. }
    destruct (String.eqb_spec istop "UNKNOWN") as [->|H3]; simpl.
    { destruct (unknown r); simpl; [discriminate | right; now right]. }
    discriminate.
  - intros H. split; [discriminate|]. revert H.
    destruct (Z.eqb_spec step 0); [contradiction|]. simpl.
    destruct (Z.ltb_spec step imin); [now left|]. right. revert H.
    unfold criterion_unmet.
    destruct (String.eqb_spec istop "SAT") as [->|H1]; simpl.
    { destruct (satisfiable r); simpl; [discriminate | now left]. }
    destruct (String.eqb_spec istop "UNSAT") as [->|H2]; simpl.
    { destruct (unsatisfiable r); simpl; [discriminate | right; now left]. }
    destruct (String.eqb_spec istop "UNKNOWN") as [->|H3]; simpl.
    { destruct (unknown r); simpl; [discriminate | right; now right]. }
    discriminate.
Qed.

(** X20: whenever the loop goes into another pass after a call of [solve]
    at step [j], the next step is below the maximum if there is one, and
    either the minimum number of passes is not reached ([j + 1 < imin]) or
    the stop criterion is one of SAT, UNSAT and UNKNOWN and the result of
    that call does not meet it.  So the loop stops at the first result that
    meets the criterion once the minimum is reached. *)
Theorem goes_on_only_while_unmet fuel prg out history l1 assumptions j l2 :
  imain symbolic_atoms solve_result future_sigs program_parts imin imax istop
        fuel prg = (out, history) ->
  history = prg ++ l1 ++ solve assumptions j :: l2 -> l2 <> [] ->
  (forall m, imax = Some m -> j + 1 < m)
  /\ (j + 1 < imin
      \/ criterion_unmet istop (solve_result (prg ++ l1) assumptions)).
Proof.
  intros H Hh Hl2. unfold imain in H. apply imain_loop_passes in H.
  destruct H as (new & -> & Ht). apply app_inv_head in Hh. subst new.
  destruct (trace_continues _ _ _ _ _ Ht _ _ _ _ eq_refl Hl2) as [Hj Hc].
  apply condition_true_inv in Hc; [assumption | lia].
Qed.

Lemma condition_unrecognised step ret :
  recognised istop = false -> imax = None -> (ret = None -> step = 0) ->
  loop_condition imin imax istop step ret = Ok ((step =? 0) || (step <? imin)).
Proof.
  unfold recognised. rewrite !orb_false_iff. intros [[H1 H2] H3] Hm Hret.
  unfold loop_condition. rewrite Hm, H1, H2, H3.
  destruct ((step =? 0) || (step <? imin)); reflexivity.
Qed.

Lemma trace_unrecognised step ret prg out new :
  recognised istop = false -> imax = None ->
  trace step ret prg out new ->
  out = Returned -> 0 <= step -> (ret = None -> step = 0) ->
  List.length (solve_steps new) =
  Z.to_nat (Z.max (imin - step) (if step =? 0 then 1 else 0)).
Proof.
  intros Hr Hm.
  induction 1 as [step ret prg|step ret prg e He|step ret prg Hc
                 |step ret prg e Hc Ha|step ret prg asm out new Hc Ha Ht IH];
    intros Hout Hs Hret; try discriminate.
  - rewrite (condition_unrecognised _ _ Hr Hm Hret) in Hc.
    injection Hc as Hc. apply orb_false_iff in Hc. destruct Hc as [H0 Hi].
    rewrite H0. simpl. lia.
  - rewrite (condition_unrecognised _ _ Hr Hm Hret) in Hc.
    injection Hc as Hc.
    rewrite solve_steps_app.
    destruct (pass_calls_steps program_parts step) as [-> _]. simpl.
    rewrite IH; [|assumption|lia|discriminate].
    destruct (Z.eqb_spec (step + 1) 0); [lia|].
    destruct (Z.eqb_spec step 0); [lia|].
    simpl in Hc. lia.
Qed.

(** X21: with a stop criterion that is none of SAT, UNSAT and UNKNOWN and
    no maximum, a loop that returns has made exactly [max(1, imin)] calls of
    [solve], whatever their results. *)
Theorem unrecognised_criterion_passes fuel prg history :
  recognised istop = false -> imax = None ->
  imain symbolic_atoms solve_result future_sigs program_parts imin imax istop
        fuel prg = (Returned, history) ->
  exists new,
    history = prg ++ new
    /\ List.length (solve_steps new) = Z.to_nat (Z.max 1 imin).
Proof.
  intros Hr Hm H. unfold imain in H. apply imain_loop_passes in H.
  destruct H as (new & -> & Ht). exists new. split; [reflexivity|].
  rewrite (trace_unrecognised _ _ _ _ _ Hr Hm Ht eq_refl); [|lia|reflexivity].
  simpl. f_equal. lia.
Qed.

End GoingOn.

(** ** The stopping rules on the stand-in control *)

Lemma imax_bounds_passes_witness :
  exists new,
    [ground []; assign_external (__final 0) true; solve [-5; -6] 0;
     release_external (__final 0); cleanup;
     ground []; assign_external (__final 1) true; solve [-6] 1] = [] ++ new
    /\ (List.length (solve_steps new) <= Z.to_nat 2)%nat
    /\ ((Z.to_nat 2 < 10)%nat -> Returned <> OutOfFuel).
Proof.
  apply (imax_bounds_passes sample_atoms sample_result [("__future_p", 2%nat)]
           [] 0 (Some 2) "SAT" 2 10 [] Returned).
  - reflexivity.
  - vm_compute. reflexivity.
Defined.

Lemma returns_when_criterion_met_witness :
  exists pre assumptions k,
    sample_history = [] ++ pre ++ [solve assumptions k]
    /\ 0 <= k /\ 0 <= k + 1
    /\ solve_steps (pre ++ [solve assumptions k]) = zseq 0 (Z.to_nat (k + 1))
    /\ criterion_met "SAT" (sample_result ([] ++ pre) assumptions).
Proof.
  apply (returns_when_criterion_met sample_atoms sample_result
           [("__future_p", 2%nat)] [] 0 None "SAT" 10 [] sample_history).
  - reflexivity.
  - exact sample_run.
Defined.

Lemma assumptions_need_timed_atoms_witness :
  exists assumptions,
    assume_sigs 0 (sample_atoms []) [("__future_p", 2%nat)] [] = Ok assumptions.
Proof.
  destruct (assumptions_need_timed_atoms 0 (sample_atoms [])
              [("__future_p", 2%nat)]) as [[_ H] _].
  apply H. apply sample_timed.
Defined.

Lemma loop_raises_from_calls_or_untimed_atoms_witness :
  (exists pre c,
     [ground []; assign_external (__final 0) true; solve [-5; -6] 0;
      release_external (__final 0); cleanup;
      ground []; assign_external (__final 1) true; solve [-6] 1] =
     [] ++ pre ++ [c]
     /\ sample_raises ([] ++ pre) c = Some (RuntimeError "unexpected"))
  \/ (exists pre k name arity a,
        [ground []; assign_external (__final 0) true; solve [-5; -6] 0;
         release_external (__final 0); cleanup;
         ground []; assign_external (__final 1) true; solve [-6] 1] =
        [] ++ pre ++ pass_calls [] k
        /\ In (name, arity) [("__future_p", 2%nat)]
        /\ In a (by_signature
                   (sample_atoms
                      [ground []; assign_external (__final 0) true;
                       solve [-5; -6] 0;
                       release_external (__final 0); cleanup;
                       ground []; assign_external (__final 1) true;
                       solve [-6] 1]) name arity)
        /\ time_of a = Raise (RuntimeError "unexpected")
        /\ ((arity = 0%nat
             /\ RuntimeError "unexpected" =
                IndexError "list index out of range")
            \/ (arity <> 0%nat
                /\ RuntimeError "unexpected" = RuntimeError "unexpected"))).
Proof.
  apply (loop_raises_from_calls_or_untimed_atoms sample_atoms sample_result
           sample_raises [("__future_p", 2%nat)] [] 0 None "SAT" 10 []).
  vm_compute. reflexivity.
Defined.

Lemma goes_on_only_while_unmet_witness :
  (forall m, @None Z = Some m -> 0 + 1 < m)
  /\ (0 + 1 < 0
      \/ criterion_unmet "SAT"
           (sample_result
              ([] ++ [ground []; assign_external (__final 0) true]) [-5; -6])).
Proof.
  apply (goes_on_only_while_unmet sample_atoms sample_result
           [("__future_p", 2%nat)] [] 0 None "SAT" 10 [] Returned sample_history
           [ground []; assign_external (__final 0) true] [-5; -6] 0
           [release_external (__final 0); cleanup;
            ground []; assign_external (__final 1) true; solve [-6] 1;
            release_external (__final 1); cleanup;
            ground []; assign_external (__final 2) true; solve [] 2]).
  - exact sample_run.
  - reflexivity.
  - discriminate.
Defined.

Lemma unrecognised_criterion_passes_witness :
  exists new,
    [ground []; assign_external (__final 0) true; solve [-5; -6] 0;
     release_external (__final 0); cleanup;
     ground []; assign_external (__final 1) true; solve [-6] 1] = [] ++ new
    /\ List.length (solve_steps new) = Z.to_nat (Z.max 1 2).
Proof.
  apply (unrecognised_criterion_passes sample_atoms sample_result
           [("__future_p", 2%nat)] [] 2 None "ANY" 10 []).
  - reflexivity.
  - reflexivity.
  - vm_compute. reflexivity.
Defined.

(** * The printer *)

Lemma table_get_set_same (d : list (Z * list model_symbol)) k v :
  dict_get Z.eqb (dict_set Z.eqb d k v) k = Some v.
Proof.
  induction d as [|[k' v'] d IH]; simpl.
  - now rewrite Z.eqb_refl.
  - destruct (k' =? k) eqn:E; simpl; rewrite E; [reflexivity | exact IH].
Qed.

Lemma table_get_set_other (d : list (Z * list model_symbol)) k k' v :
  k' <> k -> dict_get Z.eqb (dict_set Z.eqb d k' v) k = dict_get Z.eqb d k.
Proof.
  intros Hk. induction d as [|[k0 v0] d IH]; simpl.
  - destruct (Z.eqb_spec k' k); [contradiction | reflexivity].
  - destruct (Z.eqb_spec k0 k') as [->|E0]; simpl.
    + destruct (Z.eqb_spec k' k); [contradiction | reflexivity].
    + destruct (k0 =? k); [reflexivity | exact IH].
Qed.

(** Appending under a key lengthens that key's list and no other. *)
Lemma table_get_append table k v t :
  table_get (table_append table k v) t =
  table_get table t ++ (if k =? t then [v] else []).
Proof.
  unfold table_get, table_append.
  destruct (Z.eqb_spec k t) as [->|Hk].
  - destruct (dict_get Z.eqb table t) as [vs|];
      now rewrite table_get_set_same.
  - destruct (dict_get Z.eqb table k) as [vs|];
      rewrite table_get_set_other by assumption; now rewrite app_nil_r.
Qed.

Lemma last_item_rev args x :
  last_item args = Ok x -> exists before, rev args = x :: before
                                          /\ removelast args = rev before.
Proof.
  unfold last_item. destruct (rev args) as [|y before] eqn:E; [discriminate|].
  intros [= ->]. exists before. split; [reflexivity|].
  rewrite <- (rev_involutive args), E. simpl. now rewrite removelast_last.
Qed.

Lemma fill_table_timed name x args positive shown tbl :
  fill_table (FunctionSymbol name (x :: args) positive :: shown) tbl =
  (y <- last_item (x :: args) ;;
   t <- number y ;;
   fill_table shown
     (table_append tbl t (clingo_Function name (all_but_last (x :: args))))).
Proof. reflexivity. Qed.

Lemma fill_table_state_atoms shown :
  forall tbl table,
    fill_table shown tbl = Ok table ->
    forall t, table_get table t = table_get tbl t ++ state_atoms t shown.
Proof.
  induction shown as [|sym shown IH]; intros tbl table H t.
  - injection H as <-. simpl. now rewrite app_nil_r.
  - change (state_atoms t (sym :: shown))
      with (match at_state sym with
            | Some (t', s) => if t' =? t then [s] else []
            | None => []
            end ++ state_atoms t shown).
    destruct sym as [n|name [|x args] positive].
    + simpl. now apply IH.
    + simpl. now apply IH.
    + rewrite fill_table_timed in H. unfold rbind in H.
      destruct (last_item (x :: args)) as [y|e] eqn:El; [|discriminate].
      destruct y as [n|f fargs]; [|discriminate].
      destruct (last_item_rev _ _ El) as (before & Er & Eb).
      cbn [number] in H.
      rewrite (IH _ _ H t), table_get_append. unfold all_but_last, clingo_Function.
      rewrite Eb. unfold at_state. rewrite Er. now rewrite <- app_assoc.
Qed.

Lemma fill_table_returns shown :
  forall tbl, (exists table, fill_table shown tbl = Ok table) <->
              Forall well_timed shown.
Proof.
  induction shown as [|sym shown IH]; intros tbl.
  - split; [constructor | now exists tbl].
  - destruct sym as [n|name [|x args] positive].
    + simpl. rewrite IH. split; [now constructor | now inversion 1].
    + simpl. rewrite IH. split; [now constructor | now inversion 1].
    + rewrite fill_table_timed. unfold rbind.
      destruct (last_item (x :: args)) as [y|e] eqn:El.
      * destruct y as [n|f fargs]; cbn [number].
        -- rewrite IH. split.
           ++ intros H. constructor; [|assumption]. exists n. exact El.
           ++ now inversion 1.
        -- split; [intros [table H]; discriminate|].
           intros H. apply Forall_inv in H. destruct H as [t Ht].
           rewrite El in Ht. discriminate.
      * split; [intros [table H]; discriminate|].
        intros H. apply Forall_inv in H. destruct H as [t Ht].
        rewrite El in Ht. discriminate.
Qed.

Lemma written_symbols_app a b :
  written_symbols (a ++ b) = written_symbols a ++ written_symbols b.
Proof. apply flat_map_app. Qed.

Lemma numbered_app a b : numbered (a ++ b) = numbered a ++ numbered b.
Proof. apply filter_app. Qed.

Lemma write_symbols_spec syms :
  forall sig out out',
    write_symbols syms sig out = Ok out' ->
    written_symbols out' = written_symbols out ++ filter visible syms
    /\ numbered out' = numbered out.
Proof.
  induction syms as [|sym syms IH]; intros sig out out' H; simpl in H.
  - injection H as <-. simpl. now rewrite app_nil_r.
  - destruct sym as [n|name args positive]; [discriminate|]. simpl in H. simpl.
    destruct (startswith "__" name); simpl in *.
    + eapply IH; eassumption.
    + apply IH in H. destruct H as [Hw Hn].
      rewrite Hw, Hn, written_symbols_app, numbered_app.
      destruct (negb _);
        rewrite ?written_symbols_app, ?numbered_app; simpl;
        rewrite ?app_nil_r, <- ?app_assoc; auto.
Qed.

Lemma write_symbols_returns syms :
  Forall positive_function syms ->
  forall sig out, exists out', write_symbols syms sig out = Ok out'.
Proof.
  induction 1 as [|sym syms (name & args & ->) _ IH]; intros sig out; simpl.
  - now exists out.
  - destruct (startswith "__" name); simpl; apply IH.
Qed.

Lemma state_atoms_functions t shown :
  Forall positive_function (state_atoms t shown).
Proof.
  unfold state_atoms. apply Forall_forall. intros s Hs.
  apply in_flat_map in Hs. destruct Hs as (sym & _ & Hs).
  destruct sym as [n|name args positive]; simpl in Hs; [contradiction|].
  destruct (rev args) as [|[n|f fargs] before]; try contradiction.
  destruct (n =? t); [|contradiction].
  destruct Hs as [<-|[]]. unfold positive_function. eauto.
Qed.

Section Printer.

Variable sorted : list model_symbol -> list model_symbol.

Lemma write_state_spec table step out out' :
  write_state sorted table step out = Ok out' ->
  written_symbols out' =
    written_symbols out ++ filter visible (sorted (table_get table step))
  /\ numbered out' = numbered out ++ [state_header step].
Proof.
  unfold write_state, rbind. intros H.
  destruct (write_symbols _ _ _) as [o|e] eqn:E; [|discriminate].
  injection H as <-. apply write_symbols_spec in E. destruct E as [Hw Hn].
  rewrite written_symbols_app, numbered_app, Hw, Hn,
    written_symbols_app, numbered_app.
  simpl. now rewrite !app_nil_r.
Qed.

Lemma write_states_spec table steps :
  forall out out',
    write_states sorted table steps out = Ok out' ->
    written_symbols out' =
      written_symbols out
      ++ flat_map (fun t => filter visible (sorted (table_get table t))) steps
    /\ numbered out' = numbered out ++ map state_header steps.
Proof.
  induction steps as [|t steps IH]; intros out out' H; simpl in H.
  - injection H as <-. simpl. now rewrite !app_nil_r.
  - unfold rbind in H.
    destruct (write_state sorted table t out) as [o|e] eqn:E; [|discriminate].
    apply write_state_spec in E. destruct E as [Hw Hn].
    apply IH in H. destruct H as [Hw' Hn'].
    rewrite Hw', Hn', Hw, Hn. simpl. now rewrite <- !app_assoc.
Qed.

Lemma write_states_returns table steps :
  (forall t, Forall positive_function (sorted (table_get table t))) ->
  forall out, exists out', write_states sorted table steps out = Ok out'.
Proof.
  intros Hf. induction steps as [|t steps IH]; intros out.
  - now exists out.
  - cbn [write_states]. unfold write_state. cbv zeta.
    destruct (write_symbols_returns _ (Hf t) None (out ++ [state_header t]))
      as [o Ho].
    unfold rbind.
    destruct (write_symbols _ _ _) as [o'|e]; [apply IH | discriminate Ho].
Qed.

Lemma on_model_spec shown model_number steps out :
  __on_model sorted shown model_number steps = Ok out ->
  written_symbols out =
    flat_map (fun t => filter visible (sorted (state_atoms t shown)))
             (range (steps + 1))
  /\ numbered out =
       (("Answer: {}" ++ newline)%string, int_field model_number)
       :: map state_header (range (steps + 1)).
Proof.
  unfold __on_model, rbind. intros H.
  destruct (fill_table shown []) as [table|e] eqn:E; [|discriminate].
  apply write_states_spec in H. destruct H as [Hw Hn]. split.
  - rewrite Hw. simpl. apply flat_map_ext. intros t.
    now rewrite (fill_table_state_atoms _ _ _ E t).
  - rewrite Hn. reflexivity.
Qed.

(** X22: the symbols the printer writes are, state by state for the states
    [0 .. steps] in this order, the shown atoms of that state after sorting,
    without those whose name starts with two underscores; each atom is
    rebuilt as a positive function symbol from its name and its arguments
    without the last one, the state, so a classically negated atom is
    written without its sign: when sorting hands back only symbols it was
    given, every symbol written is positive.  Atoms of a state outside
    [0 .. steps], numbers and symbols without arguments are not written. *)
Theorem on_model_writes_states shown model_number steps out :
  __on_model sorted shown model_number steps = Ok out ->
  written_symbols out =
    flat_map (fun t => filter visible (sorted (state_atoms t shown)))
             (range (steps + 1))
  /\ ((forall l s, In s (sorted l) -> In s l) ->
      Forall positive_function (written_symbols out)).
Proof.
  intros H. apply on_model_spec in H. destruct H as [H _].
  split; [exact H|]. intros Hs. rewrite H. apply Forall_forall. intros s Hin.
  apply in_flat_map in Hin. destruct Hin as (t & _ & Hin).
  apply filter_In in Hin. destruct Hin as [Hin _]. apply Hs in Hin.
  pose proof (state_atoms_functions t shown) as Hf.
  rewrite Forall_forall in Hf. now apply Hf.
Qed.

(** X23: the printer writes the answer line with the number of the model
    and then one header for each state [0 .. steps], in this order, also for
    a state without atoms; nothing else it writes carries a number. *)
Theorem on_model_headers shown model_number steps out :
  __on_model sorted shown model_number steps = Ok out ->
  numbered out =
    (("Answer: {}" ++ newline)%string, int_field model_number)
    :: map state_header (range (steps + 1)).
Proof. intros H. now apply on_model_spec in H. Qed.

(** X24: when sorting hands back only symbols it was given, the printer
    returns exactly when every shown function symbol with arguments has a
    number as its last argument. *)
Theorem on_model_returns shown model_number steps :
  (forall l s, In s (sorted l) -> In s l) ->
  (exists out, __on_model sorted shown model_number steps = Ok out)
  <-> Forall well_timed shown.
Proof.
  intros Hs. rewrite <- (fill_table_returns shown []).
  unfold __on_model, rbind. split.
  - intros [out H]. destruct (fill_table shown []) as [table|e];
      [now exists table | discriminate].
  - intros [table E]. rewrite E. apply write_states_returns. intros t.
    rewrite (fill_table_state_atoms _ _ _ E t). simpl.
    apply Forall_forall. intros s Hin. apply Hs in Hin.
    pose proof (state_atoms_functions t shown) as Hf.
    rewrite Forall_forall in Hf. now apply Hf.
Qed.

End Printer.

(** ** The placeholders of future atoms *)

Lemma future_sig_shape k :
  startswith "__" (fst (future_sig k)) = true /\ (2 <= snd (future_sig k))%nat.
Proof. destruct k as [[name arity] shift]. simpl. split; [reflexivity | lia]. Qed.

Lemma transform_sigs parse_program inputs stms sigs parts name arity :
  transform parse_program inputs = Ok (stms, sigs, parts) ->
  In (name, arity) sigs ->
  startswith "__" name = true /\ (2 <= arity)%nat.
Proof.
  rewrite transform_eq.
  destruct (rewrite_inputs parse_program inputs [] initial_state)
    as [[stms' st]|e]; [|discriminate].
  intros [= <- <- <-] Hin. apply in_map_iff in Hin.
  destruct Hin as ([k d] & E & _). simpl in E.
  pose proof (future_sig_shape k) as H. rewrite E in H. exact H.
Qed.

(** X25: every signature [transform] returns for the placeholders of future
    atoms has a name that starts with two underscores and at least two
    arguments. *)
Theorem future_signatures_internal parse_program inputs stms sigs parts name arity :
  transform parse_program inputs = Ok (stms, sigs, parts) ->
  In (name, arity) sigs ->
  startswith "__" name = true /\ (2 <= arity)%nat.
Proof. apply transform_sigs. Qed.

(** X26: the printer never writes an atom over a signature that [transform]
    returned for the placeholders of future atoms, with or without a sign,
    however the symbols are sorted. *)
Theorem future_atoms_not_printed parse_program sorted inputs stms sigs parts
    shown model_number steps out name arity args positive :
  transform parse_program inputs = Ok (stms, sigs, parts) ->
  __on_model sorted shown model_number steps = Ok out ->
  In (name, arity) sigs ->
  ~ In (FunctionSymbol name args positive) (written_symbols out).
Proof.
  intros Ht Ho Hin Hw.
  destruct (transform_sigs _ _ _ _ _ _ _ Ht Hin) as [Hn _].
  apply on_model_spec in Ho. destruct Ho as [Ho _]. rewrite Ho in Hw.
  apply in_flat_map in Hw. destruct Hw as (t & _ & Hw).
  apply filter_In in Hw. destruct Hw as [_ Hv]. simpl in Hv.
  rewrite Hn in Hv. discriminate.
Qed.

(** ** The printer on a model with two states *)

Lemma on_model_writes_states_witness :
  written_symbols sample_output =
  flat_map (fun t => filter visible ((fun l => l) (state_atoms t sample_shown)))
           (range (1 + 1))
  /\ Forall positive_function (written_symbols sample_output).
Proof.
  destruct (on_model_writes_states (fun l => l) sample_shown 1 1 sample_output
              eq_refl) as [H1 H2].
  split; [exact H1|]. apply H2. intros l s H. exact H.
Defined.

Lemma on_model_headers_witness :
  numbered sample_output =
  (("Answer: {}" ++ newline)%string, int_field 1)
  :: map state_header (range (1 + 1)).
Proof.
  apply (on_model_headers (fun l => l) sample_shown 1 1 sample_output).
  reflexivity.
Defined.

Lemma on_model_returns_witness :
  (exists out, __on_model (fun l => l) sample_shown 1 1 = Ok out)
  <-> Forall well_timed sample_shown.
Proof.
  apply (on_model_returns (fun l => l) sample_shown 1 1).
  intros l s H. exact H.
Defined.

Lemma future_signatures_internal_witness :
  startswith "__" "__future_a" = true /\ (2 <= 2)%nat.
Proof.
  eapply (future_signatures_internal sample_parse ["a'' :- b."] _
            [("__future_a", 2%nat)] [] "__future_a" 2%nat).
  - vm_compute. reflexivity.
  - left. reflexivity.
Defined.

Lemma future_atoms_not_printed_witness :
  ~ In (FunctionSymbol "__future_a" [Number 2] true)
       (written_symbols sample_output).
Proof.
  eapply (future_atoms_not_printed sample_parse (fun l => l) ["a'' :- b."] _
            [("__future_a", 2%nat)] [] sample_shown 1 1 sample_output
            "__future_a" 2%nat [Number 2] true).
  - vm_compute. reflexivity.
  - reflexivity.
  - left. reflexivity.
Defined.
